(** * Pallet Guard: the scan-and-reconcile engine, embedded and verified

    Shallow embedding of [src/src/api.js] (upstream client and operational
    clock) and [src/src/scanner.js] (per-sub-department scan, reconciliation
    and the two process-lifetime dedup sets), followed by the properties the
    specification states about them.

    Conventions of the embedding
    - JS numbers that count things (pallets, quantities, HTTP statuses, time
      values) are integers, [Z]; doubles are exact on them below 2^53.
      [parseFloat] reads a string as the exact decimal it writes; a
      quantity that is no integer, [NaN] apart, has no value among the
      numbers of the model, and the statements that rest on the value of
      quantities say so.
    - A JS string is held as the bytes of its UTF-8 encoding. [trim] and
      [parseFloat] know every character of WhiteSpace and LineTerminator;
      [toLowerCase] lowers the ASCII letters and the two characters beyond
      ASCII whose lower case holds an ASCII letter; [substring] counts
      UTF-16 code units.
    - [undefined]/[null] fields of a payload object are [None].
    - A document the sources serve is an array of objects: a 2xx body that
      parses to anything else, on which the loops of [scanOne] would throw a
      [TypeError], is not modelled.
    - A plain object used as a dictionary is a [gmap string _], a [Set] of
      strings a [gset string] (keys that collide with [Object.prototype]
      members are not modelled).
    - An [async] function is a computation in the monad [M]: it threads the
      module state and the log of every HTTP exchange, and either returns or
      throws a JS error. A computation runs to its end before the next one
      starts; where two runs interleave at an [await], the two halves of
      the [await] are given apart ([send], [receive]). *)

From Stdlib Require Import ZArith String Ascii DecimalString Lia.
From stdpp Require Import gmap strings list.

Open Scope Z_scope.

(** ** JS string primitives used by the sources *)

Module Js.

(** [String(n)] / template-literal rendering of an integer. *)
Definition show (n : Z) : string := NilZero.string_of_int (Z.to_int n).

Fixpoint repeat_char (n : nat) (c : ascii) : string :=
  match n with
  | O => EmptyString
  | S k => String c (repeat_char k c)
  end.

(** [s.padStart(n, c)] for a one-character filler. *)
Definition padStart (n : nat) (c : ascii) (s : string) : string :=
  repeat_char (n - String.length s) c +:+ s.

Definition lower_ascii (c : ascii) : ascii :=
  let n := N_of_ascii c in
  if ((65 <=? n) && (n <=? 90))%N then ascii_of_N (n + 32) else c.

(** *** Characters

    A string is held as the bytes of its UTF-8 encoding. [chars] cuts it
    into its characters: each byte with the continuation bytes (0x80 to
    0xBF) that follow it. *)

Definition is_continuation (c : ascii) : bool :=
  let n := N_of_ascii c in ((128 <=? n) && (n <? 192))%N.

Definition continues (ch : string) : bool :=
  match ch with
  | EmptyString => false
  | String c _ => is_continuation c
  end.

Fixpoint chars (s : string) : list string :=
  match s with
  | EmptyString => []
  | String c r =>
      match chars r with
      | ch :: rest =>
          if continues ch then String c ch :: rest
          else String c EmptyString :: ch :: rest
      | [] => [String c EmptyString]
      end
  end.

Definition join (l : list string) : string := fold_right append EmptyString l.




(** UTF-16 code units of a character: two beyond the BMP (four bytes). *)
Definition units (ch : string) : nat :=
  match ch with
  | String c _ => if (240 <=? N_of_ascii c)%N then 2 else 1
  | EmptyString => 0
  end.

(** The characters that fit in the first [n] code units. *)
Fixpoint take_units (n : nat) (l : list string) : list string :=
  match l with
  | [] => []
  | ch :: r => if (units ch <=? n)%nat then ch :: take_units (n - units ch) r else []
  end.

(** [s.substring(0, n)]. A character beyond the BMP that straddles the cut
    is left out (JS keeps its first half, which alone is no text). *)
Definition substring0 (n : nat) (s : string) : string := join (take_units n (chars s)).

(** The UTF-8 bytes of the character with code point [cp]. *)
Definition utf8 (cp : N) : string :=
  (if cp <? 0x80 then String (ascii_of_N cp) EmptyString
   else if cp <? 0x800 then
     String (ascii_of_N (0xC0 + cp / 0x40))
       (String (ascii_of_N (0x80 + cp mod 0x40)) EmptyString)
   else if cp <? 0x10000 then
     String (ascii_of_N (0xE0 + cp / 0x1000))
       (String (ascii_of_N (0x80 + (cp / 0x40) mod 0x40))
          (String (ascii_of_N (0x80 + cp mod 0x40)) EmptyString))
   else
     String (ascii_of_N (0xF0 + cp / 0x40000))
       (String (ascii_of_N (0x80 + (cp / 0x1000) mod 0x40))
          (String (ascii_of_N (0x80 + (cp / 0x40) mod 0x40))
             (String (ascii_of_N (0x80 + cp mod 0x40)) EmptyString))))%N.

(** The code points of WhiteSpace (TAB, VT, FF, ZWNBSP and the space
    separators) and of LineTerminator (LF, CR, LS, PS): what [trim] strips
    and [parseFloat] skips. *)
Definition white_space : list string :=
  map utf8 [0x09; 0x0A; 0x0B; 0x0C; 0x0D; 0x20; 0xA0; 0x1680;
            0x2000; 0x2001; 0x2002; 0x2003; 0x2004; 0x2005; 0x2006; 0x2007;
            0x2008; 0x2009; 0x200A; 0x2028; 0x2029; 0x202F; 0x205F; 0x3000;
            0xFEFF]%N.

Definition is_space (ch : string) : bool := bool_decide (ch ∈ white_space).

Fixpoint drop_spaces (l : list string) : list string :=
  match l with
  | [] => []
  | ch :: r => if is_space ch then drop_spaces r else l
  end.

Fixpoint drop_spaces_end (l : list string) : list string :=
  match l with
  | [] => []
  | ch :: r =>
      match drop_spaces_end r with
      | [] => if is_space ch then [] else [ch]
      | r' => ch :: r'
      end
  end.

Definition trimStart (s : string) : string := join (drop_spaces (chars s)).

Definition trimEnd (s : string) : string := join (drop_spaces_end (chars s)).

Definition trim (s : string) : string :=
  join (drop_spaces_end (drop_spaces (chars s))).

(** KELVIN SIGN and LATIN CAPITAL LETTER I WITH DOT ABOVE: the two
    characters beyond ASCII whose lower case holds an ASCII letter. *)
Definition kelvin : string := utf8 0x212A.
Definition dotted_I : string := utf8 0x130.

(** The lower case of a character. Letters beyond ASCII other than the two
    above are kept as they are: their lower case, where they have one, is
    again beyond ASCII. *)
Definition lower_char (ch : string) : list string :=
  if bool_decide (ch = kelvin) then ["k"%string]
  else if bool_decide (ch = dotted_I) then ["i"%string; utf8 0x307]
  else match ch with
       | String c EmptyString => [String (lower_ascii c) EmptyString]
       | _ => [ch]
       end.

Definition toLowerCase (s : string) : string := join (flat_map lower_char (chars s)).

(** *** Numerals *)

Definition digit_of (c : ascii) : option Z :=
  let n := N_of_ascii c in
  if ((48 <=? n) && (n <=? 57))%N then Some (Z.of_N n - 48) else None.

(** The decimal digits at the head of [s] and what follows them. *)
Fixpoint span_digits (s : string) : list Z * string :=
  match s with
  | EmptyString => ([], s)
  | String c r =>
      match digit_of c with
      | Some d => let '(ds, rest) := span_digits r in (d :: ds, rest)
      | None => ([], s)
      end
  end.

(** The number a run of decimal digits writes. *)
Definition value_of (ds : list Z) : Z := fold_left (λ acc d, 10 * acc + d) ds 0.

(** What [parseFloat] reads: [Decimal m e] is the real number
    [m * 10^e], which JS rounds to the nearest double. *)
Inductive number :=
| NaN
| Infinity (negative : bool)
| Decimal (m e : Z).

Definition negate (x : number) : number :=
  match x with
  | NaN => NaN
  | Infinity b => Infinity (negb b)
  | Decimal m e => Decimal (- m) e
  end.

(** ExponentPart at the head of [s]: [e] or [E], an optional sign and at
    least one digit; 0 when there is none. *)
Definition exponent_part (s : string) : Z :=
  match s with
  | String c r =>
      if Ascii.eqb c "e" || Ascii.eqb c "E" then
        match r with
        | String "-" r' => - value_of (span_digits r').1
        | String "+" r' => value_of (span_digits r').1
        | _ => value_of (span_digits r).1
        end
      else 0
  | EmptyString => 0
  end.

(** The longest prefix of [s] that is a StrUnsignedDecimalLiteral:
    [Infinity], digits with an optional fraction, or a fraction alone, and
    an optional exponent. *)
Definition unsigned_literal (s : string) : number :=
  if String.prefix "Infinity" s then Infinity false
  else
    let '(int, r1) := span_digits s in
    match r1 with
    | String "." r2 =>
        let '(frac, r3) := span_digits r2 in
        match int, frac with
        | [], [] => NaN
        | _, _ => Decimal (value_of (int ++ frac)) (exponent_part r3 - Z.of_nat (length frac))
        end
    | _ =>
        match int with
        | [] => NaN
        | _ => Decimal (value_of int) (exponent_part r1)
        end
    end.

(** [parseFloat(s)] on a string: leading white space is skipped, then the
    longest prefix that is a StrDecimalLiteral is read; whatever follows is
    ignored. *)
Definition parseFloat_string (s : string) : number :=
  match trimStart s with
  | String "-" r => negate (unsigned_literal r)
  | String "+" r => unsigned_literal r
  | t => unsigned_literal t
  end.

(** The integer a number is, when it is one that doubles hold exactly (at
    most 2^53 in size), so that the rounding leaves it as it is. *)
Definition integer_of (x : number) : option Z :=
  match x with
  | Decimal m e =>
      let n := if 0 <=? e then Some (m * 10 ^ e)
               else if m mod 10 ^ (- e) =? 0 then Some (m / 10 ^ (- e))
               else None in
      n ≫= λ n, if Z.abs n <=? 2 ^ 53 then Some n else None
  | _ => None
  end.

(** Truthiness of the values the sources test. *)
Definition truthy_string (s : string) : bool :=
  match s with EmptyString => false | _ => true end.

(** [o || ''] for an optional string field. *)
Definition or_empty (o : option string) : string := default EmptyString o.

(** A field holding a non-empty string: the only truthy case. *)
Definition truthy_field (o : option string) : option string :=
  match o with
  | Some s => if truthy_string s then Some s else None
  | None => None
  end.

End Js.

(** ** Operational clock ([api.js], lines 34-51)

    A [Date] is its local time value: milliseconds since the local epoch
    (1970-01-01T00:00 local). The civil fields are read off the day number
    with the proleptic Gregorian calendar, as ECMAScript does; time-zone
    offset changes are not modelled. *)

Module Clock.

Definition msPerDay : Z := 86400000.
Definition msPerHour : Z := 3600000.

Record Date := mkDate { timeValue : Z }.

Definition Day (d : Date) : Z := timeValue d / msPerDay.
Definition TimeWithinDay (d : Date) : Z := timeValue d mod msPerDay.

(** Day number of the civil date [y]-[m]-[d], [m] in 1..12. *)
Definition days_from_civil (y m d : Z) : Z :=
  let y' := if m <=? 2 then y - 1 else y in
  let era := y' / 400 in
  let yoe := y' - era * 400 in
  let mp := if 2 <? m then m - 3 else m + 9 in
  let doy := (153 * mp + 2) / 5 + d - 1 in
  let doe := yoe * 365 + yoe / 4 - yoe / 100 + doy in
  era * 146097 + doe - 719468.

(** Civil date (year, month 1..12, day of month) of a day number. *)
Definition civil_from_days (z : Z) : Z * Z * Z :=
  let z' := z + 719468 in
  let era := z' / 146097 in
  let doe := z' - era * 146097 in
  let yoe := (doe - doe / 1460 + doe / 36524 - doe / 146096) / 365 in
  let doy := doe - (365 * yoe + yoe / 4 - yoe / 100) in
  let mp := (5 * doy + 2) / 153 in
  let d := doy - (153 * mp + 2) / 5 + 1 in
  let m := if mp <? 10 then mp + 3 else mp - 9 in
  let y := yoe + era * 400 in
  (if m <=? 2 then y + 1 else y, m, d).

Definition getFullYear (d : Date) : Z := (civil_from_days (Day d)).1.1.
(** Zero-based, as in JS. *)
Definition getMonth (d : Date) : Z := (civil_from_days (Day d)).1.2 - 1.
Definition getDate (d : Date) : Z := (civil_from_days (Day d)).2.
Definition getHours (d : Date) : Z := (timeValue d / msPerHour) mod 24.

(** ECMAScript [MakeDay]: the day number of day [dt] counted from the first
    of month [m] (zero-based, any integer) of year [y]. *)
Definition MakeDay (y m dt : Z) : Z :=
  days_from_civil (y + m / 12) (m mod 12 + 1) 1 + dt - 1.

Definition MakeDate (day time : Z) : Z := day * msPerDay + time.

(** [d.setDate(dt)] *)
Definition setDate (d : Date) (dt : Z) : Date :=
  mkDate (MakeDate (MakeDay (getFullYear d) (getMonth d) dt) (TimeWithinDay d)).

(** [getOperationalDate], with [new Date()] passed in as [now]. *)
Definition getOperationalDate (now : Date) : Date :=
  if getHours now <? 2 then setDate now (getDate now - 1) else now.

Definition pad2 (n : Z) : string := Js.padStart 2 "0" (Js.show n).

Definition todayApex (now : Date) : string :=
  let d := getOperationalDate now in
  pad2 (getMonth d + 1) +:+ "-" +:+ pad2 (getDate d) +:+ "-" +:+ Js.show (getFullYear d).

Definition todayLoadEntry (now : Date) : string :=
  let d := getOperationalDate now in
  Js.show (getFullYear d) +:+ "-" +:+ pad2 (getMonth d + 1) +:+ "-" +:+ pad2 (getDate d).

(** *** The calendar the specification speaks of

    A calendar date is a triple (year, month 1..12, day of month); "minus
    one day" is the previous date of the Gregorian calendar. *)

Definition is_leap (y : Z) : bool :=
  (y mod 4 =? 0) && (negb (y mod 100 =? 0) || (y mod 400 =? 0)).

Definition days_in_month (y m : Z) : Z :=
  if m =? 2 then (if is_leap y then 29 else 28)
  else if (m =? 4) || (m =? 6) || (m =? 9) || (m =? 11) then 30
  else 31.

Definition prev_day (c : Z * Z * Z) : Z * Z * Z :=
  let '(y, m, d) := c in
  if 1 <? d then (y, m, d - 1)
  else if 1 <? m then (y, m - 1, days_in_month y (m - 1))
  else (y - 1, 12, 31).

(** The calendar date a [Date] falls on. *)
Definition calendarDate (d : Date) : Z * Z * Z := civil_from_days (Day d).

(** *** The pieces of [civil_from_days], named for the proofs *)

(** Year of the 400-year era of a day of the era. *)
Definition yoe_of (doe : Z) : Z := (doe - doe / 1460 + doe / 36524 - doe / 146096) / 365.

(** Day of the era of day [d] of the March-based year [y] of the era. *)
Definition doe_of (y d : Z) : Z := 365 * y + y / 4 - y / 100 + d.

(** Month and day of month of a day of the March-based year. *)
Definition md_of_doy (doy : Z) : Z * Z :=
  let mp := (5 * doy + 2) / 153 in
  (if mp <? 10 then mp + 3 else mp - 9, doy - (153 * mp + 2) / 5 + 1).

Definition civil_of (y doy : Z) : Z * Z * Z :=
  let '(m, d) := md_of_doy doy in (if m <=? 2 then y + 1 else y, m, d).

(** [f] holds of the [fuel] integers from [k] on. *)
Fixpoint all_from (fuel : nat) (k : Z) (f : Z → bool) : bool :=
  match fuel with
  | O => true
  | S n => f k && all_from n (k + 1) f
  end.

(** Within a March-based year, the day before day [doy] is the previous
    day of the calendar (the year only matters on 1 March, day 0). *)
Definition prev_in_year_ok (doy : Z) : bool :=
  let '(m, d) := md_of_doy doy in
  let '(m', d') := md_of_doy (doy - 1) in
  if 1 <? d then (m' =? m) && (d' =? d - 1)
  else if 1 <? m then negb (m =? 3) && (m' =? m - 1) && (d' =? days_in_month 1 (m - 1))
  else (m' =? 12) && (d' =? 31).

(** The two-digit, zero-padded rendering [MM] / [DD] of the specification. *)
Definition two_digits (n : Z) : string :=
  String (ascii_of_N (Z.to_N (48 + n / 10)))
    (String (ascii_of_N (Z.to_N (48 + n mod 10))) EmptyString).

End Clock.

(** ** The process: errors, the network, module state and the [async] monad *)

Module Process.

(** A JS [Error]: its message and, when the code sets one, [err.status]. *)
Record js_error := mkError { message : string; status : option Z }.

(** [new Error(msg)] *)
Definition Error (msg : string) : js_error := mkError msg None.

Inductive method := GET | DELETE.

(** What the sources pass to [fetch]: the method, the URL and the bearer
    token of the [Authorization] header. *)
Record request := mkRequest { req_method : method; req_url : string; req_bearer : string }.

Record response := mkResponse { res_status : Z; res_body : string }.

(** [res.ok] *)
Definition res_ok (r : response) : bool :=
  (200 <=? res_status r) && (res_status r <=? 299).

(** [fetch] either rejects (no HTTP response at all) or resolves to a
    response. *)
Inductive fetch_outcome :=
| Rejected (msg : string)
| Responded (r : response).

(** The environment of the process: what the network answers to the
    [n]-th request and what the host clock shows after [n] requests. *)
Record world := mkWorld {
  net : nat → request → fetch_outcome;
  wallClock : nat → Clock.Date
}.

(** Module state of [scanner.js] (lines 21-22), with the history of HTTP
    exchanges (newest first) and the lines passed to [log]. *)
Record state := mkState {
  voidedCheckoutIDs : gset string;
  alertedOverPOs : gset string;
  exchanges : list (request * fetch_outcome);
  logs : list string
}.

Definition init : state := mkState ∅ ∅ [] [].

Inductive completion (A : Type) :=
| Return (a : A)
| Throw (e : js_error).
Arguments Return {A} a.
Arguments Throw {A} e.

Definition M (A : Type) : Type := state → completion A * state.

#[global] Instance M_ret : MRet M := λ A a s, (Return a, s).

#[global] Instance M_bind : MBind M := λ A B f m s,
  match m s with
  | (Return a, s') => f a s'
  | (Throw e, s') => (Throw e, s')
  end.

#[global] Instance M_fmap : FMap M := λ A B f m s,
  match m s with
  | (Return a, s') => (Return (f a), s')
  | (Throw e, s') => (Throw e, s')
  end.

Definition throw {A} (e : js_error) : M A := λ s, (Throw e, s).

(** [try { m } catch (err) { h err }] *)
Definition try_catch {A} (m : M A) (h : js_error → M A) : M A := λ s,
  match m s with
  | (Return a, s') => (Return a, s')
  | (Throw e, s') => h e s'
  end.

Definition with_log (line : string) (s : state) : state :=
  mkState (voidedCheckoutIDs s) (alertedOverPOs s) (exchanges s) (logs s ++ [line]).

Definition with_voided (id : string) (s : state) : state :=
  mkState ({[id]} ∪ voidedCheckoutIDs s) (alertedOverPOs s) (exchanges s) (logs s).

Definition with_alerted (po : string) (s : state) : state :=
  mkState (voidedCheckoutIDs s) ({[po]} ∪ alertedOverPOs s) (exchanges s) (logs s).

Definition record_exchange (x : request * fetch_outcome) (s : state) : state :=
  mkState (voidedCheckoutIDs s) (alertedOverPOs s) (x :: exchanges s) (logs s).

(** [log(line)] *)
Definition log (line : string) : M unit := λ s, (Return (), with_log line s).

(** [voidedCheckoutIDs.has(id)] *)
Definition voided_has (id : string) : M bool := λ s,
  (Return (bool_decide (id ∈ voidedCheckoutIDs s)), s).

(** [voidedCheckoutIDs.add(id)] *)
Definition voided_add (id : string) : M unit := λ s, (Return (), with_voided id s).

(** [alertedOverPOs.has(po)] *)
Definition alerted_has (po : string) : M bool := λ s,
  (Return (bool_decide (po ∈ alertedOverPOs s)), s).

(** [alertedOverPOs.add(po)] *)
Definition alerted_add (po : string) : M unit := λ s, (Return (), with_alerted po s).

Section World.
Context (w : world).

(** [await fetch(url, { method, headers })] *)
Definition fetch (req : request) : M response := λ s,
  let o := net w (length (exchanges s)) req in
  let s' := record_exchange (req, o) s in
  match o with
  | Rejected msg => (Throw (Error msg), s')
  | Responded r => (Return r, s')
  end.

(** [new Date()] *)
Definition newDate : M Clock.Date := λ s,
  (Return (wallClock w (length (exchanges s))), s).

(** [await fetch(...)] in its two halves. First the call: the request
    goes out and the caller is suspended; [o] is the outcome that will
    arrive. *)
Definition send (req : request) : M fetch_outcome := λ s,
  let o := net w (length (exchanges s)) req in
  (Return o, record_exchange (req, o) s).
End World.

(** Then the outcome arrives and the caller resumes with it. *)
Definition receive (o : fetch_outcome) : M response :=
  match o with
  | Rejected msg => throw (Error msg)
  | Responded r => mret r
  end.

End Process.

(** ** Upstream client ([api.js], lines 1-32) *)

Module Api.
Import Process.

Definition APEX_API : string := "https://siteadminsso.capstonelogistics.com/api/".
Definition LE_API : string := "https://apexloadentryapi.capstonelogistics.com/api/".

(** [JSON.parse], over whatever type the parsed documents have; [None] is
    the [SyntaxError] it throws on text that is not JSON. *)
Class Json (J : Type) := { JSON_parse : string → option J }.

Section World.
Context (w : world) {J : Type} `{!Json J}.

Definition fetchApex (endpoint token : string) : M J :=
  res ← fetch w (mkRequest GET (APEX_API +:+ endpoint) token);
  if res_status res =? 401 then
    throw (mkError "Apex auth expired (401)" (Some 401))
  else if negb (res_ok res) then
    throw (Error ("Apex API " +:+ Js.show (res_status res) +:+ ": " +:+ endpoint))
  else
    let text := res_body res in
    match JSON_parse text with
    | Some j => mret j
    | None =>
        throw (Error ("Apex API bad JSON for " +:+ endpoint +:+ ": "
                      +:+ Js.substring0 200 text))
    end.

Definition fetchLoadEntry (endpoint token : string) : M J :=
  res ← fetch w (mkRequest GET (LE_API +:+ endpoint) token);
  if res_status res =? 401 then
    throw (mkError "Load Entry auth expired (401)" (Some 401))
  else if negb (res_ok res) then
    throw (Error ("LE API " +:+ Js.show (res_status res) +:+ ": " +:+ endpoint))
  else
    let text := res_body res in
    match JSON_parse text with
    | Some j => mret j
    | None =>
        throw (Error ("LE API bad JSON for " +:+ endpoint +:+ ": "
                      +:+ Js.substring0 200 text))
    end.

Definition void_url (checkoutID : string) : string :=
  LE_API +:+ "payment/driverwallet/checkout/void/" +:+ checkoutID.

Definition voidDriverWalletCheckout (checkoutID token : string) : M bool :=
  res ← fetch w (mkRequest DELETE (void_url checkoutID) token);
  if res_status res =? 401 then
    throw (mkError "Load Entry auth expired" (Some 401))
  else if negb (res_ok res) then
    throw (Error ("Void failed " +:+ Js.show (res_status res)))
  else mret true.

(** [voidDriverWalletCheckout] in the two halves of its [await]: the
    DELETE goes out (lines 25-28), and from its outcome on (lines 29-31). *)
Definition voidRequested (checkoutID token : string) : M fetch_outcome :=
  send w (mkRequest DELETE (void_url checkoutID) token).

Definition voidSettled (o : fetch_outcome) : M bool :=
  res ← receive o;
  if res_status res =? 401 then
    throw (mkError "Load Entry auth expired" (Some 401))
  else if negb (res_ok res) then
    throw (Error ("Void failed " +:+ Js.show (res_status res)))
  else mret true.

Definition todayApex : M string := Clock.todayApex <$> newDate w.
Definition todayLoadEntry : M string := Clock.todayLoadEntry <$> newDate w.
End World.

(** *** The failure kinds of the specification (section 4.2) *)

Inductive failure :=
| AuthExpired
| UpstreamError (status : Z) (path : string)
| MalformedResponse (path snippet : string).

(** What the specification says a wrapper makes of an HTTP response. *)
Definition classify `{!Json J} (path : string) (r : response) : failure + J :=
  if res_status r =? 401 then inl AuthExpired
  else if (res_status r <? 200) || (299 <? res_status r) then
    inl (UpstreamError (res_status r) path)
  else match JSON_parse (res_body r) with
       | Some j => inr j
       | None => inl (MalformedResponse path (Js.substring0 200 (res_body r)))
       end.

(** How each wrapper renders a failure kind as a JS error: [service] is
    the name the wrapper uses in its messages, [expired] its 401 message. *)
Definition raise (service expired : string) (f : failure) : js_error :=
  match f with
  | AuthExpired => mkError expired (Some 401)
  | UpstreamError st path => Error (service +:+ " " +:+ Js.show st +:+ ": " +:+ path)
  | MalformedResponse path snippet =>
      Error (service +:+ " bad JSON for " +:+ path +:+ ": " +:+ snippet)
  end.

(** How a wrapper settles on an outcome of [fetch]: a rejection passes
    through, a response settles as its classification says. *)
Definition settle `{!Json J} (service expired path : string) (o : fetch_outcome)
    : completion J :=
  match o with
  | Rejected msg => Throw (Error msg)
  | Responded r =>
      match classify path r with
      | inl f => Throw (raise service expired f)
      | inr j => Return j
      end
  end.

(** The error [voidDriverWalletCheckout] throws on an outcome of [fetch],
    [None] when the void went through. *)
Definition void_failure (o : fetch_outcome) : option js_error :=
  match o with
  | Rejected msg => Some (Error msg)
  | Responded r =>
      if res_status r =? 401 then Some (mkError "Load Entry auth expired" (Some 401))
      else if res_ok r then None
      else Some (Error ("Void failed " +:+ Js.show (res_status r)))
  end.

End Api.

(** ** Payload records (the fields the scanner reads) *)

(** A purchase order of the PO source. *)
Module PO.
Record t := mk {
  poNumber : option string;
  truckId : option string;
  palletWhiteInCount : option Z;
  palletChepInCount : option Z;
  palletPecoInCount : option Z;
  palletIgpsInCount : option Z
}.
End PO.

(** The JS values an ancillary item's [quantity] is modelled to hold. *)
Inductive jsval :=
| JUndefined            (* absent, [undefined] or [null] *)
| JNumber (n : Z)
| JString (s : string).

(** A line item of the ancillary source. *)
Module Ancillary.
Record t := mk {
  pO_Number : option string;
  carrier_Name : option string;
  additional_Fee_Name : option string;
  quantity : jsval
}.
End Ancillary.

(** A truck summary of the Load Entry source. *)
Module Truck.
Record t := mk {
  truckID : option string;
  driverWalletCheckoutID : option string;
  carrierName : option string
}.
End Truck.

Inductive Status := OK | OVER | CANCELLED.

#[global] Instance Status_eq_dec : EqDecision Status.
Proof. solve_decision. Defined.

(** An entry of [poData]. *)
Module Result.
Record t := mk {
  subDept : Z;
  poNumber : string;
  truckId : string;
  carrier : string;
  palletsIn : Z;
  restacksUpstacks : Z;
  status : Status
}.
End Result.

Inductive ActionType := cancelled | over_no_wallet.

#[global] Instance ActionType_eq_dec : EqDecision ActionType.
Proof. solve_decision. Defined.

(** An entry of [actions]; [timestamp] is the instant whose ISO rendering
    the source stores. *)
Module Action.
Record t := mk {
  type : ActionType;
  poNumber : string;
  truckId : string;
  carrier : string;
  palletsIn : Z;
  restacksUpstacks : Z;
  driverWalletCheckoutID : option string;
  timestamp : Clock.Date
}.
End Action.

(** ** Scanner ([scanner.js]) *)

Module Scanner.
Import Process Api.

(** The parsed documents seen as the arrays of objects the scanner
    iterates over. A document that is no array, or has [null] for an entry,
    has no such view: the [TypeError] that the loops of [scanOne] throw on
    it is not modelled. *)
Class Payload (J : Type) := {
  as_pos : J → list PO.t;
  as_ancillary : J → list Ancillary.t;
  as_trucks : J → list Truck.t
}.

(** [parseFloat(v)]: the value is rendered as a string and read back, which
    gives a number back as it is. *)
Definition parseFloat (v : jsval) : Js.number :=
  match v with
  | JUndefined => Js.NaN
  | JNumber n => Js.Decimal n 0
  | JString s => Js.parseFloat_string s
  end.

(** [(item.additional_Fee_Name || '').toLowerCase().trim()] *)
Definition feeName (item : Ancillary.t) : string :=
  Js.trim (Js.toLowerCase (Js.or_empty (Ancillary.additional_Fee_Name item))).

(** [feeName === 'restack' || feeName === 'upstack'] *)
Definition isRestackOrUpstack (item : Ancillary.t) : bool :=
  bool_decide (feeName item = "restack") || bool_decide (feeName item = "upstack").

(** [parseFloat(item.quantity) || 0]: [NaN] and 0 give 0. The numbers of
    the model are integers: a reading that is none (a fraction, an infinity,
    an integer no double holds exactly) has no value here, and the
    statements that rest on the value keep to [Spec.within_model]. *)
Definition quantityOf (item : Ancillary.t) : Z :=
  default 0 (Js.integer_of (parseFloat (Ancillary.quantity item))).

(** Body of the loop of lines 58-67 on the pair
    ([restacksByPO], [carrierByPO]). *)
Definition ancillaryStep (acc : gmap string Z * gmap string string)
    (item : Ancillary.t) : gmap string Z * gmap string string :=
  let '(restacksByPO, carrierByPO) := acc in
  let po := Js.truthy_field (Ancillary.pO_Number item) in
  let carrierByPO' :=
    match po, Js.truthy_field (Ancillary.carrier_Name item) with
    | Some p, Some c => <[p := c]> carrierByPO
    | _, _ => carrierByPO
    end in
  let restacksByPO' :=
    if isRestackOrUpstack item then
      match po with
      | Some p => <[p := default 0 (restacksByPO !! p) + quantityOf item]> restacksByPO
      | None => restacksByPO
      end
    else restacksByPO in
  (restacksByPO', carrierByPO').

(** Lines 56-67. *)
Definition aggregate (ancillary : list Ancillary.t) : gmap string Z * gmap string string :=
  fold_left ancillaryStep ancillary (∅, ∅).

(** Lines 82-85. *)
Definition indexTrucks (leTrucks : list Truck.t) : gmap string Truck.t :=
  fold_left (λ leByTruckID t,
               match Js.truthy_field (Truck.truckID t) with
               | Some id => <[id := t]> leByTruckID
               | None => leByTruckID
               end) leTrucks ∅.

(** [a || b] on optional strings: the first truthy one. *)
Definition or_else (a b : option string) : option string :=
  match Js.truthy_field a with
  | Some x => Some x
  | None => b
  end.

Section PerPO.
Context (restacksByPO : gmap string Z) (carrierByPO : gmap string string)
        (leByTruckID : gmap string Truck.t).

Definition poNumberOf (po : PO.t) : string := Js.or_empty (PO.poNumber po).
Definition truckIdOf (po : PO.t) : string := Js.or_empty (PO.truckId po).

(** Line 93. *)
Definition carrierOf (po : PO.t) : string :=
  Js.or_empty
    (or_else (carrierByPO !! poNumberOf po)
       (or_else (match leByTruckID !! truckIdOf po with
                 | Some t => Truck.carrierName t
                 | None => Some EmptyString
                 end)
          (Some EmptyString))).

(** Lines 95-96. *)
Definition palletsInOf (po : PO.t) : Z :=
  default 0 (PO.palletWhiteInCount po) + default 0 (PO.palletChepInCount po)
  + default 0 (PO.palletPecoInCount po) + default 0 (PO.palletIgpsInCount po).

(** Line 98. *)
Definition restacksUpstacksOf (po : PO.t) : Z :=
  default 0 (restacksByPO !! poNumberOf po).

(** Line 99. *)
Definition isOver (po : PO.t) : bool := palletsInOf po <? restacksUpstacksOf po.

(** Lines 106-107. *)
Definition checkoutIDOf (po : PO.t) : option string :=
  match leByTruckID !! truckIdOf po with
  | Some leTruck => Js.truthy_field (Truck.driverWalletCheckoutID leTruck)
  | None => None
  end.

Definition mkResult (subDept : Z) (po : PO.t) (st : Status) : Result.t :=
  Result.mk subDept (poNumberOf po) (truckIdOf po) (carrierOf po)
            (palletsInOf po) (restacksUpstacksOf po) st.

Definition mkAction (ty : ActionType) (po : PO.t) (checkoutID : option string)
    (ts : Clock.Date) : Action.t :=
  Action.mk ty (poNumberOf po) (truckIdOf po) (carrierOf po)
            (palletsInOf po) (restacksUpstacksOf po) checkoutID ts.

(** The lines passed to [log] for one PO. *)
Definition cancelledLine (po : PO.t) (checkoutID : string) : string :=
  "🚫 CANCELLED wallet payment for PO " +:+ poNumberOf po +:+ " | Truck "
  +:+ Js.substring0 8 (truckIdOf po) +:+ "... | CheckoutID " +:+ checkoutID.

Definition voidFailedLine (po : PO.t) (checkoutID : string) (err : js_error) : string :=
  "❌ Failed to void checkoutID " +:+ checkoutID +:+ " for PO " +:+ poNumberOf po
  +:+ ": " +:+ message err.

Definition noWalletLine (po : PO.t) : string :=
  "⚠️ PO " +:+ poNumberOf po +:+ ": restacks (" +:+ Js.show (restacksUpstacksOf po)
  +:+ ") > pallets in (" +:+ Js.show (palletsInOf po) +:+ ") — no wallet payment found".

Section World.
Context (w : world).

(** Lines 110-132: the PO is over and a checkout ID resolved. Yields the
    PO's status and the actions pushed. *)
Definition voidOnce (loadEntryToken : string) (po : PO.t) (checkoutID : string)
    : M (Status * list Action.t) :=
  seen ← voided_has checkoutID;
  if negb seen then
    try_catch
      (_ ← voidDriverWalletCheckout w checkoutID loadEntryToken;
       _ ← voided_add checkoutID;
       _ ← log (cancelledLine po checkoutID);
       ts ← newDate w;
       mret (CANCELLED, [mkAction cancelled po (Some checkoutID) ts]))
      (λ err,
         if bool_decide (status err = Some 401) then throw err
         else
           _ ← log (voidFailedLine po checkoutID err);
           mret (OVER, []))
  else mret (CANCELLED, []).

(** [voidOnce] in the two halves of its [await] (line 112). Up to it: the
    ID is looked up and, when it is not there, the void call goes out;
    [None] when the ID is there already. *)
Definition voidOnce_begin (loadEntryToken checkoutID : string) : M (option fetch_outcome) :=
  seen ← voided_has checkoutID;
  if negb seen then Some <$> voidRequested w checkoutID loadEntryToken
  else mret None.

(** From the outcome of the void call on (lines 112-132). *)
Definition voidOnce_resume (po : PO.t) (checkoutID : string)
    (pending : option fetch_outcome) : M (Status * list Action.t) :=
  match pending with
  | Some o =>
      try_catch
        (_ ← voidSettled o;
         _ ← voided_add checkoutID;
         _ ← log (cancelledLine po checkoutID);
         ts ← newDate w;
         mret (CANCELLED, [mkAction cancelled po (Some checkoutID) ts]))
        (λ err,
           if bool_decide (status err = Some 401) then throw err
           else
             _ ← log (voidFailedLine po checkoutID err);
             mret (OVER, []))
  | None => mret (CANCELLED, [])
  end.

(** Lines 133-146: the PO is over and no checkout ID resolved. *)
Definition alertOnce (po : PO.t) : M (Status * list Action.t) :=
  seen ← alerted_has (poNumberOf po);
  if negb seen then
    _ ← alerted_add (poNumberOf po);
    _ ← log (noWalletLine po);
    ts ← newDate w;
    mret (OVER, [mkAction over_no_wallet po None ts])
  else mret (OVER, []).

(** Lines 101-147: the status of the PO and the actions pushed for it. *)
Definition decide_status (loadEntryToken : string) (po : PO.t)
    : M (Status * list Action.t) :=
  if isOver po then
    match checkoutIDOf po with
    | Some checkoutID => voidOnce loadEntryToken po checkoutID
    | None => alertOnce po
    end
  else mret (OK, []).

(** Body of the loop of lines 90-150 for one PO: the entry pushed on
    [poData] and the actions pushed on [actions]. *)
Definition scanPO (subDept : Z) (loadEntryToken : string) (po : PO.t)
    : M (Result.t * list Action.t) :=
  '(st, acts) ← decide_status loadEntryToken po;
  mret (mkResult subDept po st, acts).

(** The loop of lines 90-150. *)
Fixpoint scanPOs (subDept : Z) (loadEntryToken : string) (pos : list PO.t)
    : M (list Result.t * list Action.t) :=
  match pos with
  | [] => mret ([], [])
  | po :: rest =>
      '(r, acts) ← scanPO subDept loadEntryToken po;
      '(poData, actions) ← scanPOs subDept loadEntryToken rest;
      mret (r :: poData, acts ++ actions)
  end.
End World.
End PerPO.

(** [poData.filter(p => p.status === 'OVER').length] *)
Definition count_over (poData : list Result.t) : nat :=
  length (filter (λ p, Result.status p = OVER) poData).

Definition posEndpoint (subDept : Z) (dateApex : string) : string :=
  "subdept/" +:+ Js.show subDept +:+ "/pos/" +:+ dateApex +:+ "/" +:+ dateApex.

Definition ancillaryEndpoint (subDept : Z) (dateApex : string) : string :=
  "subdept/" +:+ Js.show subDept +:+ "/ancillaryItems/" +:+ dateApex +:+ "/" +:+ dateApex.

Definition trucksEndpoint (subDept : Z) (dateLE : string) : string :=
  "truckSummaries/" +:+ Js.show subDept +:+ "/" +:+ dateLE +:+ "/".

(** The three requests of a scan. *)
Definition posRequest (subDept : Z) (dateApex token : string) : request :=
  mkRequest GET (APEX_API +:+ posEndpoint subDept dateApex) token.

Definition ancillaryRequest (subDept : Z) (dateApex token : string) : request :=
  mkRequest GET (APEX_API +:+ ancillaryEndpoint subDept dateApex) token.

Definition trucksRequest (subDept : Z) (dateLE token : string) : request :=
  mkRequest GET (LE_API +:+ trucksEndpoint subDept dateLE) token.

Definition sd (subDept : Z) : string := "[SD" +:+ Js.show subDept +:+ "] ".

Definition trucksWarning (err : js_error) : string :=
  "Warning: Load Entry truckSummaries failed: " +:+ message err.

Definition completeLine (subDept : Z) (poData : list Result.t) (actions : list Action.t)
    : string :=
  sd subDept +:+ "Scan complete: " +:+ Js.show (Z.of_nat (length poData)) +:+ " POs, "
  +:+ Js.show (Z.of_nat (count_over poData)) +:+ " over, "
  +:+ Js.show (Z.of_nat (length actions)) +:+ " newly cancelled".

(** One polling cycle as the service drives it: [scan] is called with
    the tokens then held and whatever it throws is caught by the caller. *)
Record cycle := mkCycle {
  c_subDepts : Z + list Z;
  c_apexToken : string;
  c_loadEntryToken : string
}.

Section World.
Context (w : world) {J : Type} `{!Json J, !Payload J}.

(** Lines 69-80: the truck summaries, or [[]] when the fetch fails with
    anything but a 401. *)
Definition fetchTruckSummaries (subDept : Z) (dateLE loadEntryToken : string)
    : M (list Truck.t) :=
  try_catch
    (as_trucks <$> fetchLoadEntry w (trucksEndpoint subDept dateLE) loadEntryToken)
    (λ err,
       if bool_decide (status err = Some 401) then throw err
       else
         _ ← log (trucksWarning err);
         mret []).

(** Lines 82-153: the reconciliation proper, once the three documents are
    at hand. *)
Definition reconcile (subDept : Z) (loadEntryToken : string)
    (restacksByPO : gmap string Z) (carrierByPO : gmap string string)
    (leTrucks : list Truck.t) (pos : list PO.t) : M (list Result.t * list Action.t) :=
  let leByTruckID := indexTrucks leTrucks in
  '(poData, actions) ←
    scanPOs restacksByPO carrierByPO leByTruckID w subDept loadEntryToken pos;
  _ ← log (completeLine subDept poData actions);
  mret (poData, actions).

Definition scanOne (subDept : Z) (apexToken loadEntryToken : string)
    : M (list Result.t * list Action.t) :=
  dateApex ← todayApex w;
  dateLE ← todayLoadEntry w;
  _ ← log (sd subDept +:+ "Fetching POs...");
  pos ← fetchApex w (posEndpoint subDept dateApex) apexToken;
  _ ← log (sd subDept +:+ "Fetching ancillary items...");
  ancillary ← fetchApex w (ancillaryEndpoint subDept dateApex) apexToken;
  let '(restacksByPO, carrierByPO) := aggregate (as_ancillary ancillary) in
  _ ← log (sd subDept +:+ "Fetching Load Entry truck summaries...");
  leTrucks ← fetchTruckSummaries subDept dateLE loadEntryToken;
  reconcile subDept loadEntryToken restacksByPO carrierByPO leTrucks (as_pos pos).

(** The loop of lines 29-33. *)
Fixpoint scanEach (deptList : list Z) (apexToken loadEntryToken : string)
    : M (list Result.t * list Action.t) :=
  match deptList with
  | [] => mret ([], [])
  | subDept :: rest =>
      '(poData, actions) ← scanOne subDept apexToken loadEntryToken;
      '(allPoData, allActions) ← scanEach rest apexToken loadEntryToken;
      mret (poData ++ allPoData, actions ++ allActions)
  end.

(** [scan]; [subDepts] is one sub-department or an array of them. *)
Definition scan (subDepts : Z + list Z) (apexToken loadEntryToken : string)
    : M (list Result.t * list Action.t) :=
  let deptList := match subDepts with inl d => [d] | inr l => l end in
  scanEach deptList apexToken loadEntryToken.

Definition run_cycle (c : cycle) (s : state)
    : completion (list Result.t * list Action.t) * state :=
  scan (c_subDepts c) (c_apexToken c) (c_loadEntryToken c) s.

(** A sequence of cycles run one after the other, each call of [scan]
    settled before the next starts: the outcome of each, in order, and the
    state left behind. The timer of [index.js] does not wait for a cycle to
    end, so cycles of the service may overlap; those are not of this
    form. *)
Fixpoint run_cycles (cs : list cycle) (s : state)
    : list (completion (list Result.t * list Action.t)) * state :=
  match cs with
  | [] => ([], s)
  | c :: rest =>
      let '(o, s1) := run_cycle c s in
      let '(os, s2) := run_cycles rest s1 in
      (o :: os, s2)
  end.
End World.

End Scanner.

(** ** Reading the history of exchanges *)

Module History.
Import Process Api.

#[global] Instance method_eq_dec : EqDecision method.
Proof. solve_decision. Defined.

(** The request [voidDriverWalletCheckout] sends. *)
Definition void_request (id tok : string) : request := mkRequest DELETE (void_url id) tok.

(** The exchange is a void call for checkout ID [id]. *)
Definition is_void_of (id : string) (x : request * fetch_outcome) : bool :=
  bool_decide (req_method x.1 = DELETE) && bool_decide (req_url x.1 = void_url id).

(** The exchange got a 2xx answer: for a void call, the call succeeded. *)
Definition answered_ok (x : request * fetch_outcome) : bool :=
  match x.2 with
  | Responded r => res_ok r
  | Rejected _ => false
  end.

#[global] Arguments void_url : simpl never.
#[global] Arguments void_request : simpl never.
#[global] Arguments is_void_of : simpl never.
#[global] Arguments answered_ok : simpl never.

Definition count {A} (f : A → bool) (l : list A) : nat := length (List.filter f l).

(** Void calls issued for [id], and those of them that succeeded. *)
Definition void_calls (id : string) (h : list (request * fetch_outcome)) : nat :=
  count (is_void_of id) h.

Definition void_successes (id : string) (h : list (request * fetch_outcome)) : nat :=
  count (λ x, is_void_of id x && answered_ok x) h.

(** No void call for [id] was issued after one for it had succeeded
    ([h] is newest first). *)
Fixpoint quiet_after_success (id : string) (h : list (request * fetch_outcome)) : bool :=
  match h with
  | [] => true
  | x :: older =>
      (negb (is_void_of id x) || (void_successes id older =? 0)%nat)
      && quiet_after_success id older
  end.

(** The invariant linking the history to [voidedCheckoutIDs]. *)
Definition consistent (s : state) : Prop :=
  ∀ id, (void_successes id (exchanges s) ≠ 0%nat → id ∈ voidedCheckoutIDs s)
        ∧ quiet_after_success id (exchanges s) = true.

(** A step that does not break the invariant. *)
Definition keeps_consistent (s s' : state) : Prop := consistent s → consistent s'.

(** Both dedup sets only grow. *)
Definition grows (s s' : state) : Prop :=
  voidedCheckoutIDs s ⊆ voidedCheckoutIDs s' ∧ alertedOverPOs s ⊆ alertedOverPOs s'.

(** [m] relates every state it starts in to the state it leaves, whether it
    returns or throws. *)
Definition stepwise (R : state → state → Prop) {A} (m : M A) : Prop :=
  ∀ s, R s (m s).2.

(** The PO is over and no checkout ID resolves for it. *)
Definition needs_alert (restacksByPO : gmap string Z) (leByTruckID : gmap string Truck.t)
    (po : PO.t) : bool :=
  Scanner.isOver restacksByPO po
  && bool_decide (Scanner.checkoutIDOf leByTruckID po = None).

(** Over-no-wallet actions for PO number [p] among [actions]. *)
Definition alerts_for (p : string) (actions : list Action.t) : nat :=
  count (λ a, bool_decide (Action.type a = over_no_wallet)
              && bool_decide (Action.poNumber a = p)) actions.

(** [actions] holds one over-no-wallet action for each PO number recorded
    in [alertedOverPOs] between [s] and [s'], and no other. *)
Definition alerts_match (s s' : state) (actions : list Action.t) : Prop :=
  alertedOverPOs s ⊆ alertedOverPOs s' ∧
  ∀ p, alerts_for p actions
       = if bool_decide (p ∈ alertedOverPOs s' ∧ p ∉ alertedOverPOs s) then 1%nat
         else 0%nat.

(** What the caller of a cycle receives: nothing when the cycle threw. *)
Definition delivered (o : completion (list Result.t * list Action.t)) : list Action.t :=
  match o with
  | Return (_, actions) => actions
  | Throw _ => []
  end.

End History.

(** ** The words of the specification, as definitions of their own *)

Module Spec.
Import Scanner.

Fixpoint Zsum (l : list Z) : Z :=
  match l with
  | [] => 0
  | x :: r => x + Zsum r
  end.

(** The item carries PO number [p]. *)
Definition item_of (p : string) (item : Ancillary.t) : bool :=
  bool_decide (Js.truthy_field (Ancillary.pO_Number item) = Some p).

(** The restack/upstack items of PO number [p], in array order. *)
Definition restack_items (p : string) (ancillary : list Ancillary.t) : list Ancillary.t :=
  List.filter (λ i, item_of p i && isRestackOrUpstack i) ancillary.

(** The carrier name an item gives to PO number [p], when it carries one. *)
Definition item_carrier (p : string) (item : Ancillary.t) : option string :=
  if item_of p item then Js.truthy_field (Ancillary.carrier_Name item) else None.

(** Last write wins. *)
Definition ancillaryCarrier (p : string) (ancillary : list Ancillary.t) : option string :=
  last (omap (item_carrier p) ancillary).

(** The truck summary matched by truck ID [id] (the last one, on duplicates). *)
Definition matchedTruck (id : string) (trucks : list Truck.t) : option Truck.t :=
  last (List.filter (λ t, bool_decide (Js.truthy_field (Truck.truckID t) = Some id)) trucks).

(** Carrier precedence of section 4.3, step 7. *)
Definition carrier (ancillary : list Ancillary.t) (trucks : list Truck.t) (po : PO.t)
    : string :=
  match ancillaryCarrier (poNumberOf po) ancillary with
  | Some c => c
  | None =>
      match matchedTruck (truckIdOf po) trucks with
      | Some t => Js.or_empty (Truck.carrierName t)
      | None => EmptyString
      end
  end.

(** *** The same precedence, read off the fields of the payloads *)

(** A name that is there and not empty. *)
Definition named (o : option string) : option string :=
  match o with
  | Some s => if bool_decide (s = EmptyString) then None else Some s
  | None => None
  end.

(** The item carries the number of the PO: both have one, the same, and it
    is not empty. *)
Definition same_number (po : PO.t) (item : Ancillary.t) : bool :=
  match named (PO.poNumber po), Ancillary.pO_Number item with
  | Some p, Some q => bool_decide (q = p)
  | _, _ => false
  end.

(** The truck summary has the truck ID of the PO: both have one, the same,
    and it is not empty. *)
Definition same_truck (po : PO.t) (t : Truck.t) : bool :=
  match named (PO.truckId po), Truck.truckID t with
  | Some a, Some b => bool_decide (b = a)
  | _, _ => false
  end.

(** The carrier names the ancillary items give to the PO, in array
    order. *)
Definition carriers_named (ancillary : list Ancillary.t) (po : PO.t) : list string :=
  omap (λ item, if same_number po item then named (Ancillary.carrier_Name item) else None)
       ancillary.

(** The carrier of the claim: the last carrier name an ancillary item
    gives to the PO; failing that the [carrierName] of the truck summary
    matched by the PO's truck ID (the last one, on duplicates); failing
    that the empty string. *)
Definition carrier_by_precedence (ancillary : list Ancillary.t) (trucks : list Truck.t)
    (po : PO.t) : string :=
  match last (carriers_named ancillary po) with
  | Some c => c
  | None =>
      match last (List.filter (same_truck po) trucks) with
      | Some t => default EmptyString (named (Truck.carrierName t))
      | None => EmptyString
      end
  end.













End Spec.

(** ** Fixtures: the scenarios of section 8 and a scripted network *)

Module Fixture.
Import Process Api Scanner.

(** The three documents the sources serve. *)
Inductive doc :=
| Pos (l : list PO.t)
| Items (l : list Ancillary.t)
| Trucks (l : list Truck.t).

(** PO P1 of sub-department 85: five white pallets in, on truck T1. *)
Definition P1 : PO.t := PO.mk (Some "P1") (Some "T1") (Some 5) None None None.
(** A second PO, on truck T2. *)
Definition P2 : PO.t := PO.mk (Some "P2") (Some "T2") (Some 1) (Some 1) None None.

Definition restack7 : Ancillary.t :=
  Ancillary.mk (Some "P1") (Some "ACME") (Some "RESTACK ") (JNumber 7).
Definition upstack3 : Ancillary.t :=
  Ancillary.mk (Some "P2") None (Some "Upstack") (JString "3").

(** T1 has a pending wallet checkout, [T1_bare] has none, [T1_blank] has
    the field present but empty. *)
Definition T1 : Truck.t := Truck.mk (Some "T1") (Some "CO123") (Some "Roadway").
Definition T1_bare : Truck.t := Truck.mk (Some "T1") None (Some "Roadway").
Definition T1_blank : Truck.t := Truck.mk (Some "T1") (Some EmptyString) (Some "Roadway").
Definition T2 : Truck.t := Truck.mk (Some "T2") (Some "CO456") None.

(** A stand-in for [JSON.parse] that knows the fixture documents by name. *)
Definition documents : list (string * doc) :=
  [ ("pos:P1", Pos [P1]); ("pos:P1,P2", Pos [P1; P2]);
    ("items:P1", Items [restack7]); ("items:P1,P2", Items [restack7; upstack3]);
    ("trucks:T1", Trucks [T1]); ("trucks:T1-bare", Trucks [T1_bare]);
    ("trucks:T1-blank", Trucks [T1_blank]);
    ("trucks:T1-bare,T2", Trucks [T1_bare; T2]) ].

Fixpoint lookup_doc (name : string) (table : list (string * doc)) : option doc :=
  match table with
  | [] => None
  | (n, d) :: rest => if bool_decide (n = name) then Some d else lookup_doc name rest
  end.

#[global] Instance doc_json : Json doc := {| JSON_parse name := lookup_doc name documents |}.

#[global] Instance doc_payload : Payload doc := {|
  as_pos d := match d with Pos l => l | _ => [] end;
  as_ancillary d := match d with Items l => l | _ => [] end;
  as_trucks d := match d with Trucks l => l | _ => [] end
|}.

Definition answer (st : Z) (body : string) : fetch_outcome := Responded (mkResponse st body).

(** A network that answers the [n]-th request with the [n]-th entry of the
    script and is unreachable afterwards; the clock starts on 14 November
    2023, 22:13 local and gains a second per request. *)
Definition scripted (script : list fetch_outcome) : world :=
  mkWorld (λ n _, nth n script (Rejected "fetch failed"))
          (λ n, Clock.mkDate (1700000000000 + 1000 * Z.of_nat n)).

Definition sub85 : cycle := mkCycle (inl 85) "apex-token" "le-token".

(** P1 is over and T1 has checkout CO123: the void answers 500 in the
    first cycle and 200 in the second. *)
Definition void_fails_then_succeeds : world :=
  scripted [ answer 200 "pos:P1"; answer 200 "items:P1"; answer 200 "trucks:T1";
             answer 500 "unavailable";
             answer 200 "pos:P1"; answer 200 "items:P1"; answer 200 "trucks:T1";
             answer 200 "" ].

(** The same, the void answering 200 at once. *)
Definition void_succeeds : world :=
  scripted [ answer 200 "pos:P1"; answer 200 "items:P1"; answer 200 "trucks:T1";
             answer 200 "";
             answer 200 "pos:P1"; answer 200 "items:P1"; answer 200 "trucks:T1" ].

(** P1 is over with no wallet checkout, P2 is over with checkout CO456: the
    void for P2 answers 401 in the first cycle and 200 in the second. *)
Definition token_expires_mid_cycle : world :=
  scripted [ answer 200 "pos:P1,P2"; answer 200 "items:P1,P2";
             answer 200 "trucks:T1-bare,T2"; answer 401 "";
             answer 200 "pos:P1,P2"; answer 200 "items:P1,P2";
             answer 200 "trucks:T1-bare,T2"; answer 200 "" ].

(** The truck source is down (503), then its token has expired (401). *)
Definition trucks_down : world :=
  scripted [ answer 200 "pos:P1"; answer 200 "items:P1"; answer 503 "down" ].

Definition trucks_expired : world :=
  scripted [ answer 200 "pos:P1"; answer 200 "items:P1"; answer 401 "" ].

End Fixture.

(** ** Reading a scan off its results *)

Module Ledger.
Import Process Api Scanner History.

(** Every ID in [voidedCheckoutIDs] has a void call answered 2xx in the
    history. *)
Definition backed (s : state) : Prop :=
  ∀ id, id ∈ voidedCheckoutIDs s → void_successes id (exchanges s) ≠ 0%nat.

(** A step that does not break it. *)
Definition keeps_backed (s s' : state) : Prop := backed s → backed s'.

(** Cancelled actions for checkout ID [id] among [actions]. *)
Definition cancels_for (id : string) (actions : list Action.t) : nat :=
  count (λ a, bool_decide (Action.type a = cancelled)
              && bool_decide (Action.driverWalletCheckoutID a = Some id)) actions.

(** [actions] holds one cancelled action for each checkout ID recorded in
    [voidedCheckoutIDs] between [s] and [s'], and no other. *)
Definition cancels_match (s s' : state) (actions : list Action.t) : Prop :=
  voidedCheckoutIDs s ⊆ voidedCheckoutIDs s' ∧
  ∀ id, cancels_for id actions
        = if bool_decide (id ∈ voidedCheckoutIDs s' ∧ id ∉ voidedCheckoutIDs s) then 1%nat
          else 0%nat.

(** A cancelled action carries its checkout ID, an over-no-wallet action
    carries none. *)
Definition well_formed (a : Action.t) : bool :=
  match Action.type a, Action.driverWalletCheckoutID a with
  | cancelled, Some _ => true
  | over_no_wallet, None => true
  | _, _ => false
  end.

(** The status of a PO for which nothing is left to do. *)
Definition settled_status (restacksByPO : gmap string Z) (leByTruckID : gmap string Truck.t)
    (po : PO.t) : Status :=
  if isOver restacksByPO po then
    match checkoutIDOf leByTruckID po with
    | Some _ => CANCELLED
    | None => OVER
    end
  else OK.

(** Nothing is left to do for the PO in state [s]: if it is over, its
    checkout ID is voided or, without one, its number is alerted. *)
Definition settled (restacksByPO : gmap string Z) (leByTruckID : gmap string Truck.t)
    (s : state) (po : PO.t) : Prop :=
  isOver restacksByPO po = true →
  match checkoutIDOf leByTruckID po with
  | Some id => id ∈ voidedCheckoutIDs s
  | None => poNumberOf po ∈ alertedOverPOs s
  end.

(** The requests of a scan of one sub-department, newest first. *)
Definition scanRequests (subDept : Z) (dateApex dateLE apexToken loadEntryToken : string)
    : list request :=
  [ trucksRequest subDept dateLE loadEntryToken;
    ancillaryRequest subDept dateApex apexToken;
    posRequest subDept dateApex apexToken ].

End Ledger.

(** ** The service ([index.js])

    The module variables of [index.js] live beside the module state of
    [scanner.js] in one record; the browser log-ins of [auth.js] and the
    mail transport behind [notifier.sendEmail] are part of the host, like
    the network. A function is embedded as one invocation run to its end:
    the timer that fires [performScan] is not part of the embedding. *)

Module Service.
Import Process Api Scanner.

(** [hay.includes(needle)]; the needles of the source are ASCII, for which
    searching code units and searching UTF-8 bytes agree. *)
Fixpoint includes (needle hay : string) : bool :=
  String.prefix needle hay ||
  match hay with
  | EmptyString => false
  | String _ rest => includes needle rest
  end.

(** [scanStats] (lines 23-30). *)
Record scanStats := mkStats {
  totalScans : Z;
  successfulScans : Z;
  errors : Z;
  lastError : option string;
  startTime : Clock.Date;
  lastScanTime : option Clock.Date
}.

(** [lastScanResult] (lines 96-103); [timestamp] is the instant whose ISO
    rendering the source stores. *)
Record scanResult := mkScanResult {
  timestamp : Clock.Date;
  poCount : nat;
  overCount : nat;
  cancelledCount : nat;
  actions : nat;
  poData : list Result.t
}.

Inductive login := ApexLogin | LoadEntryLogin.

(** What the host provides besides the network and the clock: the [n]-th
    log-in attempt of [auth.js] yields a token or throws, the [n]-th call
    of [notifier.sendEmail] resolves ([None]) or throws, and the
    environment may hold NOTIFY_EMAIL. *)
Record host := mkHost {
  getApexToken : nat → string + js_error;
  getLoadEntryToken : nat → string + js_error;
  sendEmail : nat → Action.t → option js_error;
  NOTIFY_EMAIL : option string
}.

(** The module variables (lines 18-30), the state of [scanner.js], and the
    history of log-in attempts and of mails handed to the notifier (both
    newest first). [scanInterval] tells whether a timer handle is held. *)
Record service := mkService {
  apexToken : option string;
  loadEntryToken : option string;
  scanInterval : bool;
  isScanning : bool;
  lastScanResult : option scanResult;
  stats : scanStats;
  scanner : state;
  logins : list (login * (string + js_error));
  outbox : list (Action.t * option js_error)
}.

Definition start (t0 : Clock.Date) : service :=
  mkService None None false false None (mkStats 0 0 0 None t0 None) init [] [].

Definition with_apexToken (t : option string) (s : service) : service :=
  mkService t (loadEntryToken s) (scanInterval s) (isScanning s) (lastScanResult s)
            (stats s) (scanner s) (logins s) (outbox s).

Definition with_loadEntryToken (t : option string) (s : service) : service :=
  mkService (apexToken s) t (scanInterval s) (isScanning s) (lastScanResult s)
            (stats s) (scanner s) (logins s) (outbox s).

Definition with_scanInterval (b : bool) (s : service) : service :=
  mkService (apexToken s) (loadEntryToken s) b (isScanning s) (lastScanResult s)
            (stats s) (scanner s) (logins s) (outbox s).

Definition with_isScanning (b : bool) (s : service) : service :=
  mkService (apexToken s) (loadEntryToken s) (scanInterval s) b (lastScanResult s)
            (stats s) (scanner s) (logins s) (outbox s).

Definition with_lastScanResult (r : option scanResult) (s : service) : service :=
  mkService (apexToken s) (loadEntryToken s) (scanInterval s) (isScanning s) r
            (stats s) (scanner s) (logins s) (outbox s).

Definition with_stats (f : scanStats → scanStats) (s : service) : service :=
  mkService (apexToken s) (loadEntryToken s) (scanInterval s) (isScanning s)
            (lastScanResult s) (f (stats s)) (scanner s) (logins s) (outbox s).

Definition with_scanner (sc : state) (s : service) : service :=
  mkService (apexToken s) (loadEntryToken s) (scanInterval s) (isScanning s)
            (lastScanResult s) (stats s) sc (logins s) (outbox s).

Definition record_login (x : login * (string + js_error)) (s : service) : service :=
  mkService (apexToken s) (loadEntryToken s) (scanInterval s) (isScanning s)
            (lastScanResult s) (stats s) (scanner s) (x :: logins s) (outbox s).

Definition record_mail (x : Action.t * option js_error) (s : service) : service :=
  mkService (apexToken s) (loadEntryToken s) (scanInterval s) (isScanning s)
            (lastScanResult s) (stats s) (scanner s) (logins s) (x :: outbox s).

(** [s] with [lines] added to the log and [mails], newest first, to the
    outbox. *)
Definition with_mails (lines : list string) (mails : list (Action.t * option js_error))
    (s : service) : service :=
  mkService (apexToken s) (loadEntryToken s) (scanInterval s) (isScanning s)
            (lastScanResult s) (stats s)
            (mkState (voidedCheckoutIDs (scanner s)) (alertedOverPOs (scanner s))
                     (exchanges (scanner s)) (logs (scanner s) ++ lines))
            (logins s) (mails ++ outbox s).

(** [scanStats.totalScans++] and the like. *)
Definition bump_totalScans (st : scanStats) : scanStats :=
  mkStats (totalScans st + 1) (successfulScans st) (errors st) (lastError st)
          (startTime st) (lastScanTime st).

Definition bump_successfulScans (st : scanStats) : scanStats :=
  mkStats (totalScans st) (successfulScans st + 1) (errors st) (lastError st)
          (startTime st) (lastScanTime st).

Definition bump_errors (st : scanStats) : scanStats :=
  mkStats (totalScans st) (successfulScans st) (errors st + 1) (lastError st)
          (startTime st) (lastScanTime st).

Definition set_lastError (msg : string) (st : scanStats) : scanStats :=
  mkStats (totalScans st) (successfulScans st) (errors st) (Some msg)
          (startTime st) (lastScanTime st).

Definition set_lastScanTime (t : Clock.Date) (st : scanStats) : scanStats :=
  mkStats (totalScans st) (successfulScans st) (errors st) (lastError st)
          (startTime st) (Some t).

(** An [async] function of [index.js]. *)
Definition T (A : Type) : Type := service → completion A * service.

#[global] Instance T_ret : MRet T := λ A a s, (Return a, s).

#[global] Instance T_bind : MBind T := λ A B f m s,
  match m s with
  | (Return a, s') => f a s'
  | (Throw e, s') => (Throw e, s')
  end.

(** [try { m } catch (error) { h error }] *)
Definition catch {A} (m : T A) (h : js_error → T A) : T A := λ s,
  match m s with
  | (Return a, s') => (Return a, s')
  | (Throw e, s') => h e s'
  end.

Definition getVar {A} (f : service → A) : T A := λ s, (Return (f s), s).

Definition update (f : service → service) : T unit := λ s, (Return (), f s).

(** A computation of [scanner.js] or [api.js], run on their part of the
    state. *)
Definition lift {A} (m : M A) : T A := λ s,
  let '(o, sc) := m (scanner s) in (o, with_scanner sc s).

(** [log(message)] (lines 33-36): the message, without the time stamp the
    console line starts with. This is the [log] handed to [scanner.scan]. *)
Definition log (line : string) : T unit := lift (Process.log line).

(** [!!(apexToken && loadEntryToken)], the [authenticated] flag of the
    status endpoint (line 198). *)
Definition authenticated (s : service) : bool :=
  match Js.truthy_field (apexToken s), Js.truthy_field (loadEntryToken s) with
  | Some _, Some _ => true
  | _, _ => false
  end.

(** Every scan that was counted has either completed or failed. *)
Definition counters_add_up (s : service) : Prop :=
  successfulScans (stats s) + errors (stats s) = totalScans (stats s).

(** [m] never throws: the promise of the [async] function never rejects. *)
Definition settles {A} (m : T A) : Prop := ∀ s, ∃ a, (m s).1 = Return a.

(** [`${v}`] for a variable of the environment. *)
Definition show_env (v : option string) : string := default "undefined" v.

(** [`${action.type}`] *)
Definition show_type (ty : ActionType) : string :=
  match ty with
  | cancelled => "cancelled"
  | over_no_wallet => "over-no-wallet"
  end.

Definition emailSentLine (to : option string) (action : Action.t) : string :=
  "📧 Email sent to " +:+ show_env to +:+ " for PO " +:+ Action.poNumber action
  +:+ " (" +:+ show_type (Action.type action) +:+ ")".

Definition emailFailedLine (emailErr : js_error) : string :=
  "⚠️ Email failed: " +:+ message emailErr.

Definition cycleCompleteLine (poData : list Result.t) (actions : list Action.t) : string :=
  "✅ Scan cycle complete: " +:+ Js.show (Z.of_nat (length poData)) +:+ " POs, "
  +:+ Js.show (Z.of_nat (length actions)) +:+ " actions taken".

(** [poData.filter(p => p.status === 'CANCELLED').length] *)
Definition count_cancelled (poData : list Result.t) : nat :=
  length (filter (λ p, Result.status p = CANCELLED) poData).

(** Lines 127-129: which token a 401 message asks to renew. *)
Definition reauthTarget (msg : string) : string :=
  let isApex := includes "siteadminsso" msg || includes "Apex" msg in
  let isLE := includes "loadentry" msg || includes "LoadEntry" msg in
  if isApex && isLE then "both"
  else if isApex then "Apex"
  else if isLE then "Load Entry"
  else "both".

(** [stopScanning] (lines 171-186). *)
Definition stopScanning : T bool :=
  scanning ← getVar isScanning;
  if negb scanning then
    _ ← log "⚠️ Scanner not running";
    mret false
  else
    _ ← log "🛑 Stopping scanner";
    _ ← update (with_isScanning false);
    held ← getVar scanInterval;
    _ ← (if (held : bool) then update (with_scanInterval false) else mret ());
    mret true.

Section Host.
Context (w : world) (h : host) {J : Type} `{!Json J, !Payload J}.

(** [new Date()] *)
Definition newDate : T Clock.Date := lift (Process.newDate w).

(** [await auth.getApexToken()] *)
Definition awaitApexToken : T string := λ s,
  let o := getApexToken h (length (logins s)) in
  let s' := record_login (ApexLogin, o) s in
  match o with
  | inl token => (Return token, s')
  | inr e => (Throw e, s')
  end.

(** [await auth.getLoadEntryToken()] *)
Definition awaitLoadEntryToken : T string := λ s,
  let o := getLoadEntryToken h (length (logins s)) in
  let s' := record_login (LoadEntryLogin, o) s in
  match o with
  | inl token => (Return token, s')
  | inr e => (Throw e, s')
  end.

(** [await notifier.sendEmail(action)] *)
Definition awaitSendEmail (action : Action.t) : T unit := λ s,
  let o := sendEmail h (length (outbox s)) action in
  let s' := record_mail (action, o) s in
  match o with
  | None => (Return (), s')
  | Some e => (Throw e, s')
  end.

(** What the [i]-th call of [notifier.sendEmail] leaves in the outbox and
    in the log. *)
Definition mailAttempt (i : nat) (action : Action.t) : Action.t * option js_error :=
  (action, sendEmail h i action).

Definition mailLine (i : nat) (action : Action.t) : string :=
  match sendEmail h i action with
  | None => emailSentLine (NOTIFY_EMAIL h) action
  | Some emailErr => emailFailedLine emailErr
  end.

(** [authenticate] (lines 39-58). *)
Definition authenticate : T bool :=
  catch
    (_ ← log "🔐 Starting authentication...";
     _ ← log "📡 Authenticating with Apex (form POST to apex.capstonelogistics.com)...";
     token ← awaitApexToken;
     _ ← update (with_apexToken (Some token));
     _ ← log ("✅ Apex Token acquired (" +:+ Js.substring0 20 token +:+ "...)");
     _ ← log "🌐 Authenticating with Load Entry (Microsoft B2C SSO flow)...";
     token' ← awaitLoadEntryToken;
     _ ← update (with_loadEntryToken (Some token'));
     _ ← log ("✅ Load Entry B2C token acquired (" +:+ Js.substring0 20 token' +:+ "...)");
     _ ← log "🎯 Authentication complete - ready to scan";
     mret true)
    (λ error,
       _ ← log ("❌ Authentication failed: " +:+ message error);
       _ ← update (with_stats (set_lastError (message error)));
       mret false).

(** [reauth] (lines 61-79). *)
Definition reauth (which : string) : T bool :=
  _ ← log ("🔄 " +:+ which +:+ " token expired — re-authenticating...");
  catch
    (_ ← (if bool_decide (which = "Apex") || bool_decide (which = "both") then
            token ← awaitApexToken;
            _ ← update (with_apexToken (Some token));
            log "✅ Apex re-auth successful"
          else mret ());
     _ ← (if bool_decide (which = "Load Entry") || bool_decide (which = "both") then
            token ← awaitLoadEntryToken;
            _ ← update (with_loadEntryToken (Some token));
            log "✅ Load Entry re-auth successful"
          else mret ());
     mret true)
    (λ error,
       _ ← log ("❌ Re-auth failed: " +:+ message error);
       _ ← update (with_stats (set_lastError (message error)));
       mret false).

(** Lines 106-115: one mail per action, a failure being logged and
    passed over. *)
Fixpoint sendAlerts (actions : list Action.t) : T unit :=
  match actions with
  | [] => mret ()
  | action :: rest =>
      _ ← (if bool_decide (Action.type action = cancelled)
              || bool_decide (Action.type action = over_no_wallet) then
             catch
               (_ ← awaitSendEmail action;
                log (emailSentLine (NOTIFY_EMAIL h) action))
               (λ emailErr, log (emailFailedLine emailErr))
           else mret ());
      sendAlerts rest
  end.

(** Lines 88-119: the [try] block of [performScan]. *)
Definition scanAndNotify (apex le : string) : T bool :=
  _ ← update (with_stats bump_totalScans);
  now ← newDate;
  _ ← update (with_stats (set_lastScanTime now));
  '(poData, actions) ← lift (scan w (inr [85; 86]) apex le);
  ts ← newDate;
  _ ← update (with_lastScanResult
                (Some (mkScanResult ts (length poData) (count_over poData)
                         (count_cancelled poData) (length actions) poData)));
  _ ← sendAlerts actions;
  _ ← update (with_stats bump_successfulScans);
  _ ← log (cycleCompleteLine poData actions);
  mret true.

(** Lines 121-145: its [catch] block. *)
Definition onScanError (error : js_error) : T bool :=
  _ ← update (with_stats bump_errors);
  let msg := message error in
  if includes "401" msg then
    success ← reauth (reauthTarget msg);
    if (success : bool) then
      _ ← log "🔄 Re-auth succeeded — will retry on next cycle";
      mret false
    else
      _ ← log "💥 Re-auth failed — stopping scanner";
      _ ← stopScanning;
      mret false
  else
    _ ← log ("❌ Scan error: " +:+ msg);
    _ ← update (with_stats (set_lastError msg));
    mret false.

(** [performScan] (lines 82-146). *)
Definition performScan : T bool :=
  apex ← getVar apexToken;
  le ← getVar loadEntryToken;
  match Js.truthy_field apex, Js.truthy_field le with
  | Some apex, Some le => catch (scanAndNotify apex le) onScanError
  | _, _ =>
      _ ← log "❌ Cannot scan — not authenticated";
      mret false
  end.

(** The timer callback (lines 162-166). *)
Definition onInterval : T unit :=
  scanning ← getVar isScanning;
  if (scanning : bool) then
    _ ← performScan;
    mret ()
  else mret ().

(** [n] firings of the timer, one after the other. *)
Fixpoint ticks (n : nat) (s : service) : service :=
  match n with
  | O => s
  | S k => ticks k (onInterval s).2
  end.

End Host.

End Service.

(** ** Scenarios of the service *)

Module Scenario.
Import Process Api Scanner Service.

(** Log-ins that succeed and a mail transport that delivers. *)
Definition obliging : host :=
  mkHost (λ _, inl "apex-token-2") (λ _, inl "le-token-2") (λ _ _, None)
         (Some "ops@example.com").

(** The Apex log-in times out and the mail transport refuses its
    credentials; NOTIFY_EMAIL is not set. *)
Definition locked_out : host :=
  mkHost (λ _, inr (Error "Apex Token cookie not found after 30s - login may have failed"))
         (λ _, inl "le-token-2") (λ _ _, Some (Error "Invalid login")) None.

(** The service once authenticated and started. *)
Definition running : service :=
  mkService (Some "apex-token") (Some "le-token") true true None
            (mkStats 0 0 0 None (Clock.mkDate 1699999000000) None) init [] [].

(** Sub-departments 85 and 86 both serve P1, over, on truck T1 with
    checkout CO123; the void call answers 200. *)
Definition both_depts_answer : world :=
  Fixture.scripted
    [ Fixture.answer 200 "pos:P1"; Fixture.answer 200 "items:P1";
      Fixture.answer 200 "trucks:T1"; Fixture.answer 200 "";
      Fixture.answer 200 "pos:P1"; Fixture.answer 200 "items:P1";
      Fixture.answer 200 "trucks:T1" ].

(** The Apex source answers 500, and 401, to the first request. *)
Definition apex_down : world := Fixture.scripted [ Fixture.answer 500 "oops" ].

Definition apex_expired : world := Fixture.scripted [ Fixture.answer 401 "" ].

(** The void call for CO123 answers 401. *)
Definition void_expired : world :=
  Fixture.scripted
    [ Fixture.answer 200 "pos:P1"; Fixture.answer 200 "items:P1";
      Fixture.answer 200 "trucks:T1"; Fixture.answer 401 "" ].

End Scenario.

(** * Properties *)

(** ** Operational clock *)

Section ClockFacts.
Import Clock.

Lemma all_from_spec fuel k f :
  all_from fuel k f = true → ∀ i, k ≤ i < k + Z.of_nat fuel → f i = true.
Proof.
  revert k. induction fuel as [|n IH]; intros k H i Hi; [lia|].
  simpl in H. apply andb_true_iff in H as [H0 H1].
  destruct (decide (i = k)) as [->|]; [done|].
  apply (IH (k + 1)); [done|lia].
Qed.

Lemma civil_from_days_split z :
  civil_from_days z =
  let era := (z + 719468) / 146097 in
  let doe := z + 719468 - era * 146097 in
  civil_of (yoe_of doe + era * 400) (doe - doe_of (yoe_of doe) 0).
Proof.
  unfold civil_from_days, civil_of, md_of_doy, yoe_of, doe_of. cbv zeta.
  rewrite Z.add_0_r. reflexivity.
Qed.

Lemma yoe_of_range doe :
  0 ≤ doe ≤ 146096 →
  let y := yoe_of doe in let d := doe - doe_of y 0 in
  0 ≤ y ≤ 399 ∧ 0 ≤ d ≤ 365 ∧ (d = 365 → y mod 4 = 3 ∧ (y mod 100 ≠ 99 ∨ y = 399)).
Proof.
  intros H. unfold yoe_of, doe_of. cbv zeta. Z.div_mod_to_equations; lia.
Qed.

Lemma yoe_of_unique y d :
  0 ≤ y ≤ 399 → 0 ≤ d ≤ 365 →
  (d = 365 → y mod 4 = 3 ∧ (y mod 100 ≠ 99 ∨ y = 399)) →
  yoe_of (doe_of y d) = y.
Proof.
  intros Hy Hd Hl. unfold yoe_of, doe_of. Z.div_mod_to_equations; lia.
Qed.

Lemma prev_in_year_checked : all_from 365 1 prev_in_year_ok = true.
Proof. vm_compute. reflexivity. Qed.

Lemma civil_of_prev_in_year y doy :
  1 ≤ doy ≤ 365 → civil_of y (doy - 1) = prev_day (civil_of y doy).
Proof.
  intros Hd.
  pose proof (all_from_spec _ _ _ prev_in_year_checked doy ltac:(lia)) as Hc.
  unfold prev_in_year_ok in Hc. unfold civil_of, prev_day.
  destruct (md_of_doy doy) as [m d], (md_of_doy (doy - 1)) as [m' d'].
  destruct (1 <? d) eqn:Hd1.
  - apply andb_true_iff in Hc as [->%Z.eqb_eq ->%Z.eqb_eq]. reflexivity.
  - destruct (1 <? m) eqn:Hm1.
    + apply andb_true_iff in Hc as [Hc ->%Z.eqb_eq].
      apply andb_true_iff in Hc as [Hm3 ->%Z.eqb_eq].
      apply negb_true_iff, Z.eqb_neq in Hm3.
      assert (days_in_month 1 (m - 1)
              = days_in_month (if m <=? 2 then y + 1 else y) (m - 1)) as ->.
      { unfold days_in_month. destruct (m - 1 =? 2) eqn:E; [lia|done]. }
      simpl.
      destruct (m <=? 2) eqn:Hm2, (m - 1 <=? 2) eqn:Hm2'; try reflexivity; lia.
    + apply andb_true_iff in Hc as [->%Z.eqb_eq ->%Z.eqb_eq].
      simpl. destruct (m <=? 2) eqn:Hm2; [|lia].
      f_equal. f_equal. lia.
Qed.

Lemma is_leap_yoe y e :
  1 ≤ y ≤ 399 →
  is_leap (y + e * 400) = bool_decide (y mod 4 = 0 ∧ y mod 100 ≠ 0).
Proof.
  intros Hy. unfold is_leap.
  replace ((y + e * 400) mod 4) with (y mod 4) by (Z.div_mod_to_equations; lia).
  replace ((y + e * 400) mod 100) with (y mod 100) by (Z.div_mod_to_equations; lia).
  replace ((y + e * 400) mod 400) with y by (Z.div_mod_to_equations; lia).
  case_bool_decide as Hb.
  - destruct Hb as [-> Hb]. simpl. apply Z.eqb_neq in Hb. rewrite Hb. done.
  - destruct (y mod 4 =? 0) eqn:E4; [|done]. apply Z.eqb_eq in E4.
    destruct (y mod 100 =? 0) eqn:E100; simpl.
    + apply Z.eqb_neq. lia.
    + apply Z.eqb_neq in E100. tauto.
Qed.

(** The day before, on day numbers, is the previous date of the calendar. *)
Lemma civil_prev z : civil_from_days (z - 1) = prev_day (civil_from_days z).
Proof.
  rewrite !civil_from_days_split. cbv zeta.
  set (e := (z + 719468) / 146097).
  set (r := z + 719468 - e * 146097).
  assert (0 ≤ r ≤ 146096) as Hr by (subst r e; Z.div_mod_to_equations; lia).
  destruct (decide (r = 0)) as [Hr0|Hr0].
  - replace ((z - 1 + 719468) / 146097) with (e - 1)
      by (subst r e; Z.div_mod_to_equations; lia).
    replace (z - 1 + 719468 - (e - 1) * 146097) with 146096 by lia.
    rewrite Hr0. change (yoe_of 146096) with 399. change (yoe_of 0) with 0.
    change (146096 - doe_of 399 0) with 365. change (0 - doe_of 0 0) with 0.
    change (civil_of (399 + (e - 1) * 400) 365) with (399 + (e - 1) * 400 + 1, 2, 29).
    change (civil_of (0 + e * 400) 0) with (0 + e * 400, 3, 1).
    unfold prev_day, days_in_month. simpl.
    assert (is_leap (0 + e * 400) = true) as ->.
    { unfold is_leap.
      replace ((0 + e * 400) mod 4) with 0 by (Z.div_mod_to_equations; lia).
      replace ((0 + e * 400) mod 400) with 0 by (Z.div_mod_to_equations; lia).
      simpl. apply orb_true_r. }
    f_equal. f_equal. lia.
  - replace ((z - 1 + 719468) / 146097) with e
      by (subst r e; Z.div_mod_to_equations; lia).
    replace (z - 1 + 719468 - e * 146097) with (r - 1) by lia.
    pose proof (yoe_of_range r Hr) as (Hy & Hd & Hl). cbv zeta in Hy, Hd, Hl.
    set (y := yoe_of r) in *. set (d := r - doe_of y 0) in *.
    assert (r = doe_of y d) as Hrd by (subst d; unfold doe_of; lia).
    destruct (decide (d = 0)) as [Hd0|Hd0].
    + assert (1 ≤ y) as Hy1 by (unfold doe_of in Hrd; Z.div_mod_to_equations; lia).
      set (l := (y / 4 - (y - 1) / 4) - (y / 100 - (y - 1) / 100)).
      assert (r - 1 = doe_of (y - 1) (364 + l)) as Hr1
        by (subst l; unfold doe_of in *; lia).
      assert (yoe_of (r - 1) = y - 1) as Hy'.
      { rewrite Hr1. apply yoe_of_unique; subst l; Z.div_mod_to_equations; lia. }
      rewrite Hy'.
      replace (r - 1 - doe_of (y - 1) 0) with (364 + l)
        by (rewrite Hr1; unfold doe_of; lia).
      rewrite Hd0. change (civil_of (y + e * 400) 0) with (y + e * 400, 3, 1).
      unfold prev_day, days_in_month. simpl. rewrite is_leap_yoe by lia.
      case_bool_decide as Hb.
      * replace l with 1 by (subst l; Z.div_mod_to_equations; lia).
        change (civil_of (y - 1 + e * 400) (364 + 1)) with (y - 1 + e * 400 + 1, 2, 29).
        f_equal. f_equal. lia.
      * replace l with 0 by (subst l; Z.div_mod_to_equations; lia).
        change (civil_of (y - 1 + e * 400) (364 + 0)) with (y - 1 + e * 400 + 1, 2, 28).
        f_equal. f_equal. lia.
    + assert (yoe_of (r - 1) = y) as Hy'.
      { replace (r - 1) with (doe_of y (d - 1)) by (rewrite Hrd; unfold doe_of; lia).
        apply yoe_of_unique; lia. }
      rewrite Hy'. replace (r - 1 - doe_of y 0) with (d - 1) by (subst d; lia).
      apply civil_of_prev_in_year. lia.
Qed.

Lemma civil_month_range z : 1 ≤ (civil_from_days z).1.2 ≤ 12.
Proof.
  unfold civil_from_days. cbv zeta. simpl.
  case_match; Z.div_mod_to_equations; lia.
Qed.

Lemma civil_day_range z : 1 ≤ (civil_from_days z).2 ≤ 31.
Proof.
  unfold civil_from_days. cbv zeta. simpl.
  Z.div_mod_to_equations; lia.
Qed.

(** Reading the civil fields of a day number and counting them back gives
    the day number. *)
Lemma days_civil_roundtrip z :
  days_from_civil (civil_from_days z).1.1 (civil_from_days z).1.2 (civil_from_days z).2 = z.
Proof.
  unfold civil_from_days, days_from_civil. cbv zeta. simpl.
  repeat case_match; Z.div_mod_to_equations; lia.
Qed.

Lemma days_from_civil_day y m d :
  days_from_civil y m d = days_from_civil y m 1 + d - 1.
Proof. unfold days_from_civil. cbv zeta. lia. Qed.

Lemma getHours_range now : 0 ≤ getHours now < 24.
Proof. unfold getHours. Z.div_mod_to_equations; lia. Qed.

(** [d.setDate(d.getDate() - 1)] moves to the day before and keeps the time
    of day. *)
Lemma setDate_yesterday now :
  Day (setDate now (getDate now - 1)) = Day now - 1 ∧
  TimeWithinDay (setDate now (getDate now - 1)) = TimeWithinDay now.
Proof.
  unfold setDate, MakeDay, getFullYear, getMonth, getDate.
  pose proof (civil_month_range (Day now)) as Hm.
  pose proof (days_civil_roundtrip (Day now)) as Hrt.
  set (c := civil_from_days (Day now)) in *.
  replace ((c.1.2 - 1) / 12) with 0 by (Z.div_mod_to_equations; lia).
  replace ((c.1.2 - 1) mod 12 + 1) with (c.1.2) by (Z.div_mod_to_equations; lia).
  rewrite Z.add_0_r.
  rewrite days_from_civil_day in Hrt.
  replace (days_from_civil c.1.1 c.1.2 1 + (c.2 - 1) - 1) with (Day now - 1) by lia.
  unfold Day, TimeWithinDay, MakeDate, msPerDay; simpl.
  split; Z.div_mod_to_equations; lia.
Qed.

Lemma pad2_checked : all_from 100 0 (λ n, bool_decide (pad2 n = two_digits n)) = true.
Proof. vm_compute. reflexivity. Qed.

Lemma pad2_two_digits n : 0 ≤ n ≤ 99 → pad2 n = two_digits n.
Proof.
  intros Hn. pose proof (all_from_spec _ _ _ pad2_checked n ltac:(lia)) as H.
  simpl in H. by apply bool_decide_eq_true in H.
Qed.

(** C7. For every wall-clock time [now]: the hour lies in [0,24); when it is
    in [0,2) the operational date is the calendar date of [now] minus one
    day, with the time of day kept; when it is in [2,24) it is the calendar
    date of [now]; [todayApex] renders that date as MM-DD-YYYY and
    [todayLoadEntry] as YYYY-MM-DD, where MM and DD are the month (1..12)
    and the day (1..31) as two digits, zero-padded. *)
Theorem operational_date_and_formats (now : Date) :
  0 ≤ getHours now < 24 ∧
  (getHours now < 2 →
     calendarDate (getOperationalDate now) = prev_day (calendarDate now) ∧
     TimeWithinDay (getOperationalDate now) = TimeWithinDay now) ∧
  (2 ≤ getHours now → getOperationalDate now = now) ∧
  (∀ y m d, calendarDate (getOperationalDate now) = (y, m, d) →
     1 ≤ m ≤ 12 ∧ 1 ≤ d ≤ 31 ∧
     todayApex now = two_digits m +:+ "-" +:+ two_digits d +:+ "-" +:+ Js.show y ∧
     todayLoadEntry now = Js.show y +:+ "-" +:+ two_digits m +:+ "-" +:+ two_digits d).
Proof.
  split; [apply getHours_range|]. split; [|split].
  - intros Hh. unfold getOperationalDate.
    destruct (getHours now <? 2) eqn:E; [|lia].
    destruct (setDate_yesterday now) as [Hday Htime]. split; [|done].
    unfold calendarDate. rewrite Hday. apply civil_prev.
  - intros Hh. unfold getOperationalDate.
    destruct (getHours now <? 2) eqn:E; [lia|done].
  - intros y m d Hc. unfold calendarDate in Hc.
    pose proof (civil_month_range (Day (getOperationalDate now))) as Hm.
    pose proof (civil_day_range (Day (getOperationalDate now))) as Hd.
    unfold todayApex, todayLoadEntry, getMonth, getDate, getFullYear. cbv zeta.
    rewrite Hc in *. simpl in *.
    replace (m - 1 + 1) with m by lia.
    rewrite !pad2_two_digits by lia. done.
Qed.

(** At 01:30 on 1 March 2024 the operational date is 29 February 2024. *)
Lemma operational_date_witness :
  getHours (mkDate 1709256600000) < 2 ∧
  calendarDate (getOperationalDate (mkDate 1709256600000)) = (2024, 2, 29) ∧
  todayApex (mkDate 1709256600000) = "02-29-2024" ∧
  todayLoadEntry (mkDate 1709256600000) = "2024-02-29".
Proof.
  pose proof (operational_date_and_formats (mkDate 1709256600000)) as (_ & Hlt & _ & Hfmt).
  assert (getHours (mkDate 1709256600000) < 2) as Hh by (vm_compute; reflexivity).
  destruct (Hlt Hh) as [Hcal _].
  assert (prev_day (calendarDate (mkDate 1709256600000)) = (2024, 2, 29)) as Hp
    by (vm_compute; reflexivity).
  rewrite Hp in Hcal.
  destruct (Hfmt _ _ _ Hcal) as (_ & _ & Ha & Hl).
  split; [exact Hh|]. split; [exact Hcal|]. split; [exact Ha|exact Hl].
Defined.

End ClockFacts.

(** ** Strings and their characters *)

Section Strings.
Import Js.

Lemma append_cons c a b : String c a +:+ b = String c (a +:+ b).
Proof. reflexivity. Qed.

Lemma append_empty_r s : s +:+ EmptyString = s.
Proof. induction s as [|c s IH]; [done|]. by rewrite append_cons, IH. Qed.




Lemma chars_cons c r :
  chars (String c r) =
  match chars r with
  | ch :: rest =>
      if continues ch then String c ch :: rest else String c EmptyString :: ch :: rest
  | [] => [String c EmptyString]
  end.
Proof. reflexivity. Qed.

(** The characters of a string, put together again, are the string. *)
Lemma join_chars s : join (chars s) = s.
Proof.
  induction s as [|c s IH]; [done|]. rewrite chars_cons.
  destruct (chars s) as [|ch rest]; [by rewrite <- IH|].
  destruct (continues ch); rewrite <- IH; reflexivity.
Qed.


Lemma chars_nil s : chars s = [] → s = EmptyString.
Proof. intros H. rewrite <- (join_chars s). by rewrite H. Qed.











(** *** White space *)





Lemma drop_spaces_blank l : forallb is_space l = true → drop_spaces l = [].
Proof.
  induction l as [|ch l IH]; [done|]. cbn [forallb drop_spaces].
  intros [-> H]%andb_true_iff. by apply IH.
Qed.




Lemma drop_spaces_end_nil l : drop_spaces_end l = [] → forallb is_space l = true.
Proof.
  induction l as [|ch l IH]; [done|]. cbn [drop_spaces_end forallb].
  destruct (drop_spaces_end l) as [|x r]; [|done].
  destruct (is_space ch); [|done]. intros _. by apply IH.
Qed.


(** *** Lower case *)











(** *** Substrings *)





End Strings.

(** ** Upstream client *)

Section ApiFacts.
Import Process Api.

Lemma bind_run {A B} (m : M A) (f : A → M B) s :
  (m ≫= f) s = match m s with
               | (Return a, s') => f a s'
               | (Throw e, s') => (Throw e, s')
               end.
Proof. reflexivity. Qed.

Lemma fetch_run w req s :
  fetch w req s =
  (match net w (length (exchanges s)) req with
   | Rejected msg => Throw (Error msg)
   | Responded r => Return r
   end, record_exchange (req, net w (length (exchanges s)) req) s).
Proof. unfold fetch. by destruct (net w _ req). Qed.

Lemma classify_non_2xx `{!Json J} path (r : response) :
  (res_status r =? 401) = false → res_ok r = false →
  classify (J:=J) path r = inl (UpstreamError (res_status r) path).
Proof.
  unfold classify, res_ok. intros -> H.
  replace ((res_status r <? 200) || (299 <? res_status r)) with true; [done|].
  symmetry. apply andb_false_iff in H as [H|H]; apply orb_true_iff; [left|right]; lia.
Qed.

Lemma classify_2xx `{!Json J} path (r : response) :
  (res_status r =? 401) = false → res_ok r = true →
  classify path r = match JSON_parse (res_body r) with
                    | Some j => inr j
                    | None => inl (MalformedResponse path (Js.substring0 200 (res_body r)))
                    end.
Proof.
  unfold classify, res_ok. intros -> [H1 H2]%andb_true_iff.
  replace ((res_status r <? 200) || (299 <? res_status r)) with false; [done|].
  symmetry. apply orb_false_iff. split; lia.
Qed.

(** What the two fetch wrappers do on any outcome of [fetch]. *)
Lemma fetchApex_run w `{!Json J} endpoint token s :
  fetchApex w endpoint token s =
  (settle "Apex API" "Apex auth expired (401)" endpoint
     (net w (length (exchanges s)) (mkRequest GET (APEX_API +:+ endpoint) token)),
   record_exchange
     (mkRequest GET (APEX_API +:+ endpoint) token,
      net w (length (exchanges s)) (mkRequest GET (APEX_API +:+ endpoint) token)) s).
Proof.
  unfold fetchApex. rewrite bind_run, fetch_run.
  destruct (net w _ _) as [msg|r]; [done|]. unfold settle.
  destruct (res_status r =? 401) eqn:E401; [by unfold classify; rewrite E401|].
  destruct (res_ok r) eqn:Eok; cbn [negb].
  - rewrite (classify_2xx _ _ E401 Eok). by destruct (JSON_parse (res_body r)).
  - by rewrite (classify_non_2xx _ _ E401 Eok).
Qed.

Lemma fetchLoadEntry_run w `{!Json J} endpoint token s :
  fetchLoadEntry w endpoint token s =
  (settle "LE API" "Load Entry auth expired (401)" endpoint
     (net w (length (exchanges s)) (mkRequest GET (LE_API +:+ endpoint) token)),
   record_exchange
     (mkRequest GET (LE_API +:+ endpoint) token,
      net w (length (exchanges s)) (mkRequest GET (LE_API +:+ endpoint) token)) s).
Proof.
  unfold fetchLoadEntry. rewrite bind_run, fetch_run.
  destruct (net w _ _) as [msg|r]; [done|]. unfold settle.
  destruct (res_status r =? 401) eqn:E401; [by unfold classify; rewrite E401|].
  destruct (res_ok r) eqn:Eok; cbn [negb].
  - rewrite (classify_2xx _ _ E401 Eok). by destruct (JSON_parse (res_body r)).
  - by rewrite (classify_non_2xx _ _ E401 Eok).
Qed.

Lemma voidDriverWalletCheckout_run w id tok s :
  voidDriverWalletCheckout w id tok s =
  (match void_failure (net w (length (exchanges s)) (History.void_request id tok)) with
   | Some e => Throw e
   | None => Return true
   end,
   record_exchange (History.void_request id tok,
                    net w (length (exchanges s)) (History.void_request id tok)) s).
Proof.
  unfold voidDriverWalletCheckout, History.void_request. rewrite bind_run, fetch_run.
  destruct (net w _ _) as [msg|r]; [done|]. unfold void_failure.
  destruct (res_status r =? 401); [done|]. by destruct (res_ok r).
Qed.





End ApiFacts.

(** ** Scanner: running the per-PO steps *)

Section ScannerRuns.
Import Process Api Scanner History.
Context (w : world).
Context (restacksByPO : gmap string Z) (carrierByPO : gmap string string)
        (leByTruckID : gmap string Truck.t).

#[local] Abbreviation voidOnce' := (voidOnce restacksByPO carrierByPO leByTruckID w).
#[local] Abbreviation alertOnce' := (alertOnce restacksByPO carrierByPO leByTruckID w).
#[local] Abbreviation decide_status' := (decide_status restacksByPO carrierByPO leByTruckID w).
#[local] Abbreviation scanPO' := (scanPO restacksByPO carrierByPO leByTruckID w).
#[local] Abbreviation scanPOs' := (scanPOs restacksByPO carrierByPO leByTruckID w).
#[local] Abbreviation mkAction' := (mkAction restacksByPO carrierByPO leByTruckID).
#[local] Abbreviation mkResult' := (mkResult restacksByPO carrierByPO leByTruckID).

(** What [voidOnce] does, case by case. *)
Lemma voidOnce_run tok po id s :
  voidOnce' tok po id s =
  if bool_decide (id ∈ voidedCheckoutIDs s) then (Return (CANCELLED, []), s)
  else
    let o := net w (length (exchanges s)) (void_request id tok) in
    let s1 := record_exchange (void_request id tok, o) s in
    match o with
    | Rejected msg =>
        (Return (OVER, []), with_log (voidFailedLine po id (Error msg)) s1)
    | Responded r =>
        if res_status r =? 401 then
          (Throw (mkError "Load Entry auth expired" (Some 401)), s1)
        else if res_ok r then
          (Return (CANCELLED,
                   [mkAction' cancelled po (Some id) (wallClock w (S (length (exchanges s))))]),
           with_log (cancelledLine po id) (with_voided id s1))
        else
          (Return (OVER, []),
           with_log (voidFailedLine po id
                       (Error ("Void failed " +:+ Js.show (res_status r)))) s1)
    end.
Proof.
  unfold voidOnce, voided_has, try_catch.
  rewrite bind_run. destruct (bool_decide (id ∈ voidedCheckoutIDs s)); cbn [negb]; [done|].
  rewrite bind_run, voidDriverWalletCheckout_run. unfold void_failure. cbv zeta.
  destruct (net w (length (exchanges s)) _) as [msg|r]; [done|].
  destruct (res_status r =? 401); [done|].
  destruct (res_ok r); done.
Qed.

Lemma alertOnce_run po s :
  alertOnce' po s =
  if bool_decide (poNumberOf po ∈ alertedOverPOs s) then (Return (OVER, []), s)
  else
    (Return (OVER, [mkAction' over_no_wallet po None (wallClock w (length (exchanges s)))]),
     with_log (noWalletLine restacksByPO po) (with_alerted (poNumberOf po) s)).
Proof.
  unfold alertOnce, alerted_has. rewrite bind_run.
  destruct (bool_decide (poNumberOf po ∈ alertedOverPOs s)); simpl; done.
Qed.

Lemma scanPO_run subDept tok po s :
  scanPO' subDept tok po s =
  match decide_status' tok po s with
  | (Return (st, acts), s') => (Return (mkResult' subDept po st, acts), s')
  | (Throw e, s') => (Throw e, s')
  end.
Proof.
  unfold scanPO. rewrite bind_run.
  destruct (decide_status' tok po s) as [[[st acts]|e] s']; done.
Qed.

Lemma scanPOs_cons subDept tok po rest s :
  scanPOs' subDept tok (po :: rest) s =
  match scanPO' subDept tok po s with
  | (Return (r, acts), s1) =>
      match scanPOs' subDept tok rest s1 with
      | (Return (poData, actions), s2) => (Return (r :: poData, acts ++ actions), s2)
      | (Throw e, s2) => (Throw e, s2)
      end
  | (Throw e, s1) => (Throw e, s1)
  end.
Proof.
  simpl. rewrite bind_run.
  destruct (scanPO' subDept tok po s) as [[[r acts]|e] s1]; [|done].
  rewrite bind_run.
  destruct (scanPOs' subDept tok rest s1) as [[[poData actions]|e] s2]; done.
Qed.

End ScannerRuns.

(** ** Relations every step of a cycle respects *)

Section Stepwise.
Import Process History.
Context (R : state → state → Prop) `{!PreOrder R}.

Lemma stepwise_ret {A} (a : A) : stepwise R (mret a).
Proof. intros s. simpl. reflexivity. Qed.

Lemma stepwise_throw {A} e : stepwise R (throw (A:=A) e).
Proof. intros s. simpl. reflexivity. Qed.

Lemma stepwise_bind {A B} (m : M A) (f : A → M B) :
  stepwise R m → (∀ a, stepwise R (f a)) → stepwise R (m ≫= f).
Proof.
  intros Hm Hf s. rewrite bind_run. specialize (Hm s).
  destruct (m s) as [[a|e] s1]; simpl in *; [|done].
  etrans; [exact Hm|apply Hf].
Qed.

Lemma stepwise_fmap {A B} (g : A → B) (m : M A) : stepwise R m → stepwise R (g <$> m).
Proof.
  intros Hm s. specialize (Hm s). unfold fmap, M_fmap.
  destruct (m s) as [[a|e] s1]; done.
Qed.

Lemma stepwise_try_catch {A} (m : M A) (h : js_error → M A) :
  stepwise R m → (∀ e, stepwise R (h e)) → stepwise R (try_catch m h).
Proof.
  intros Hm Hh s. unfold try_catch. specialize (Hm s).
  destruct (m s) as [[a|e] s1]; simpl in *; [done|].
  etrans; [exact Hm|apply Hh].
Qed.

Lemma stepwise_pure {A} (f : state → A) : stepwise R (λ s, (Return (f s), s)).
Proof. intros s. simpl. reflexivity. Qed.
End Stepwise.

Ltac stepwise_step :=
  lazymatch goal with
  | |- History.stepwise ?R (mret _) => apply (stepwise_ret R)
  | |- History.stepwise ?R (Process.throw _) => apply (stepwise_throw R)
  | |- History.stepwise ?R (_ ≫= _) => apply (stepwise_bind R); [|intros ?]
  | |- History.stepwise ?R (_ <$> _) => apply (stepwise_fmap R)
  | |- History.stepwise ?R (Process.try_catch _ _) => apply (stepwise_try_catch R); [|intros ?]
  | |- History.stepwise ?R (if ?b then _ else _) => destruct b
  | |- History.stepwise ?R (match ?x with _ => _ end) => destruct x
  end.

Section CycleSteps.
Import Process Api Scanner History.
Context (w : world) (R : state → state → Prop) `{!PreOrder R}.
Hypothesis R_log : ∀ line s, R s (with_log line s).
Hypothesis R_alerted : ∀ p s, R s (with_alerted p s).
Hypothesis R_get : ∀ url tok o s, R s (record_exchange (mkRequest GET url tok, o) s).
Hypothesis R_void : ∀ rb cb lb tok po id, stepwise R (voidOnce rb cb lb w tok po id).

Lemma stepwise_log line : stepwise R (log line).
Proof. intros s. apply R_log. Qed.

Lemma stepwise_newDate : stepwise R (newDate w).
Proof. apply (stepwise_pure R). Qed.

Lemma stepwise_get url tok : stepwise R (fetch w (mkRequest GET url tok)).
Proof. intros s. rewrite fetch_run. apply R_get. Qed.

Lemma stepwise_fetchApex `{!Json J} endpoint tok : stepwise R (fetchApex w endpoint tok).
Proof.
  unfold fetchApex. apply (stepwise_bind R); [apply stepwise_get|intros res].
  repeat stepwise_step.
Qed.

Lemma stepwise_fetchLoadEntry `{!Json J} endpoint tok :
  stepwise R (fetchLoadEntry w endpoint tok).
Proof.
  unfold fetchLoadEntry. apply (stepwise_bind R); [apply stepwise_get|intros res].
  repeat stepwise_step.
Qed.

Lemma stepwise_alertOnce rb cb lb po : stepwise R (alertOnce rb cb lb w po).
Proof.
  intros s. rewrite alertOnce_run. case_bool_decide; simpl; [reflexivity|].
  etrans; [apply R_alerted|apply R_log].
Qed.

Lemma stepwise_scanPO rb cb lb subDept tok po : stepwise R (scanPO rb cb lb w subDept tok po).
Proof.
  unfold scanPO, decide_status. apply (stepwise_bind R).
  - destruct (isOver rb po); [|apply (stepwise_ret R)].
    destruct (checkoutIDOf lb po); [apply R_void|apply stepwise_alertOnce].
  - intros [st acts]. apply (stepwise_ret R).
Qed.

Lemma stepwise_scanPOs rb cb lb subDept tok pos :
  stepwise R (scanPOs rb cb lb w subDept tok pos).
Proof.
  induction pos as [|po rest IH]; simpl; [apply (stepwise_ret R)|].
  apply (stepwise_bind R); [apply stepwise_scanPO|]. intros [r acts].
  apply (stepwise_bind R); [exact IH|]. intros [poData actions]. apply (stepwise_ret R).
Qed.

Context {J : Type} `{!Json J, !Payload J}.

Lemma stepwise_fetchTruckSummaries subDept dateLE tok :
  stepwise R (fetchTruckSummaries w subDept dateLE tok).
Proof.
  unfold fetchTruckSummaries. apply (stepwise_try_catch R).
  - apply (stepwise_fmap R), stepwise_fetchLoadEntry.
  - intros err. case_bool_decide; [apply (stepwise_throw R)|].
    apply (stepwise_bind R); [apply stepwise_log|]. intros _. apply (stepwise_ret R).
Qed.

Lemma stepwise_reconcile subDept tok rb cb leTrucks pos :
  stepwise R (reconcile w subDept tok rb cb leTrucks pos).
Proof.
  unfold reconcile. apply (stepwise_bind R); [apply stepwise_scanPOs|].
  intros [poData actions]. apply (stepwise_bind R); [apply stepwise_log|].
  intros _. apply (stepwise_ret R).
Qed.

Lemma stepwise_scanOne subDept apexToken tok : stepwise R (scanOne w subDept apexToken tok).
Proof.
  unfold scanOne, todayApex, todayLoadEntry.
  apply (stepwise_bind R); [apply (stepwise_fmap R), stepwise_newDate|intros dateApex].
  apply (stepwise_bind R); [apply (stepwise_fmap R), stepwise_newDate|intros dateLE].
  apply (stepwise_bind R); [apply stepwise_log|intros _].
  apply (stepwise_bind R); [apply stepwise_fetchApex|intros pos].
  apply (stepwise_bind R); [apply stepwise_log|intros _].
  apply (stepwise_bind R); [apply stepwise_fetchApex|intros ancillary].
  destruct (aggregate (as_ancillary ancillary)) as [rb cb].
  apply (stepwise_bind R); [apply stepwise_log|intros _].
  apply (stepwise_bind R); [apply stepwise_fetchTruckSummaries|intros leTrucks].
  apply stepwise_reconcile.
Qed.

Lemma stepwise_scanEach deptList apexToken tok :
  stepwise R (scanEach w deptList apexToken tok).
Proof.
  induction deptList as [|d rest IH]; simpl; [apply (stepwise_ret R)|].
  apply (stepwise_bind R); [apply stepwise_scanOne|]. intros [poData actions].
  apply (stepwise_bind R); [exact IH|]. intros [ps acts]. apply (stepwise_ret R).
Qed.

Lemma stepwise_scan subDepts apexToken tok : stepwise R (scan w subDepts apexToken tok).
Proof. unfold scan. apply stepwise_scanEach. Qed.

Lemma run_cycles_related cs s : R s (run_cycles w cs s).2.
Proof.
  revert s. induction cs as [|c rest IH]; intros s; simpl; [reflexivity|].
  unfold run_cycle. pose proof (stepwise_scan (c_subDepts c) (c_apexToken c)
                                  (c_loadEntryToken c) s) as H1.
  destruct (scan w _ _ _ s) as [o s1]. specialize (IH s1).
  destruct (run_cycles w rest s1) as [os s2]. simpl in *. by etrans.
Qed.

End CycleSteps.

(** ** The dedup sets and the history of void calls *)

Section Invariants.
Import Process Api Scanner History.
Context (w : world).

Lemma append_inj_r (p a b : string) : p +:+ a = p +:+ b → a = b.
Proof. induction p as [|c p IH]; simpl; [done|]. intros [= H]. by apply IH. Qed.

Lemma void_url_inj id id' : void_url id = void_url id' → id = id'.
Proof. unfold void_url. intros H. by do 2 apply append_inj_r in H. Qed.

Lemma is_void_of_void id id' tok o :
  is_void_of id' (void_request id tok, o) = bool_decide (id' = id).
Proof.
  unfold is_void_of, void_request. cbn [fst req_method req_url].
  rewrite (bool_decide_eq_true_2 (DELETE = DELETE)) by done. rewrite andb_true_l.
  apply bool_decide_ext. split; [intros H; symmetry; by apply void_url_inj|by intros ->].
Qed.

Lemma is_void_of_get id url tok o : is_void_of id (mkRequest GET url tok, o) = false.
Proof. unfold is_void_of. cbn [fst req_method]. by rewrite bool_decide_eq_false_2. Qed.

Lemma count_cons {A} (f : A → bool) x l :
  count f (x :: l) = ((if f x then 1 else 0) + count f l)%nat.
Proof. unfold count. simpl. by destruct (f x). Qed.

Lemma grows_preorder : PreOrder grows.
Proof.
  split.
  - intros s. by split.
  - intros s1 s2 s3 [H1 H2] [H3 H4]. split; set_solver.
Qed.

Lemma keeps_consistent_preorder : PreOrder keeps_consistent.
Proof.
  split.
  - by intros s H.
  - intros s1 s2 s3 H1 H2 H. by apply H2, H1.
Qed.

Lemma grows_void rb cb lb tok po id : stepwise grows (voidOnce rb cb lb w tok po id).
Proof.
  intros s. rewrite voidOnce_run. case_bool_decide; [by split|]. cbv zeta.
  destruct (net w _ _) as [msg|r]; cbn [snd]; [by split|].
  destruct (res_status r =? 401); cbn [snd]; [by split|].
  destruct (res_ok r); cbn [snd]; split;
    cbn [voidedCheckoutIDs alertedOverPOs with_log with_voided record_exchange];
    set_solver.
Qed.

(** A void call that is not answered 2xx, issued while its ID is not in
    [voidedCheckoutIDs], leaves the invariant standing. *)
Lemma consistent_void_failed id tok o s :
  id ∉ voidedCheckoutIDs s →
  answered_ok (void_request id tok, o) = false →
  consistent s → consistent (record_exchange (void_request id tok, o) s).
Proof.
  intros Hid Hfail Hs id'. destruct (Hs id') as [Hin Hq].
  cbn [exchanges voidedCheckoutIDs record_exchange quiet_after_success].
  unfold void_successes in *. rewrite count_cons, Hfail, andb_false_r.
  split; [done|]. rewrite Hq, andb_true_r, is_void_of_void.
  case_bool_decide as E; [|done]. subst id'. cbn [negb orb].
  apply Nat.eqb_eq. destruct (decide (count (λ x, is_void_of id x && answered_ok x)
                                        (exchanges s) = 0%nat)); [done|].
  exfalso. by apply Hid, Hin.
Qed.

Lemma consistent_void_ok id tok o s :
  id ∉ voidedCheckoutIDs s →
  consistent s → consistent (with_voided id (record_exchange (void_request id tok, o) s)).
Proof.
  intros Hid Hs id'. destruct (Hs id') as [Hin Hq].
  cbn [exchanges voidedCheckoutIDs record_exchange with_voided quiet_after_success].
  unfold void_successes in *. rewrite count_cons, is_void_of_void.
  case_bool_decide as E; cbn [negb orb andb].
  - subst id'. split; [set_solver|]. rewrite Hq, andb_true_r.
    apply Nat.eqb_eq. destruct (decide (count (λ x, is_void_of id x && answered_ok x)
                                          (exchanges s) = 0%nat)); [done|].
    exfalso. by apply Hid, Hin.
  - split; [|by rewrite Hq]. intros H. apply Hin in H. set_solver.
Qed.

Lemma consistent_with_log line s : consistent s → consistent (with_log line s).
Proof. done. Qed.

Lemma keeps_consistent_void rb cb lb tok po id :
  stepwise keeps_consistent (voidOnce rb cb lb w tok po id).
Proof.
  intros s Hs. rewrite voidOnce_run. case_bool_decide as Hid; [done|]. cbv zeta.
  destruct (net w _ _) as [msg|r] eqn:Hnet; cbn [snd].
  { apply consistent_with_log, consistent_void_failed; done. }
  destruct (res_status r =? 401) eqn:E401; cbn [snd].
  { apply consistent_void_failed; [done| |done].
    unfold answered_ok, res_ok. cbn [snd]. lia. }
  destruct (res_ok r) eqn:Eok; cbn [snd].
  - apply consistent_with_log, consistent_void_ok; done.
  - apply consistent_with_log, consistent_void_failed; done.
Qed.

Lemma keeps_consistent_get url tok o s :
  keeps_consistent s (record_exchange (mkRequest GET url tok, o) s).
Proof.
  intros Hs id. destruct (Hs id) as [Hin Hq].
  cbn [exchanges voidedCheckoutIDs record_exchange quiet_after_success].
  unfold void_successes in *. rewrite count_cons, is_void_of_get. by rewrite Hq.
Qed.

(** Over any sequence of cycles the dedup sets only grow. *)
Lemma run_cycles_grows `{!Json J, !Payload J} cs s : grows s (run_cycles w cs s).2.
Proof.
  apply (run_cycles_related w grows (PreOrder0:=grows_preorder)).
  - intros line s0. by split.
  - intros p s0. split; cbn [voidedCheckoutIDs alertedOverPOs with_alerted]; set_solver.
  - intros url tok o s0. by split.
  - apply grows_void.
Qed.

(** Over any sequence of cycles the invariant is kept. *)
Lemma run_cycles_consistent `{!Json J, !Payload J} cs s :
  consistent s → consistent (run_cycles w cs s).2.
Proof.
  apply (run_cycles_related w keeps_consistent (PreOrder0:=keeps_consistent_preorder)).
  - intros line s0 H. by apply consistent_with_log.
  - intros p s0 H. exact H.
  - apply keeps_consistent_get.
  - apply keeps_consistent_void.
Qed.

Lemma consistent_init : consistent init.
Proof. intros id. split; [done|done]. Qed.

(** From the invariant: at most one void call per ID ever succeeds. *)
Lemma quiet_at_most_one id h :
  quiet_after_success id h = true → (void_successes id h ≤ 1)%nat.
Proof.
  induction h as [|x h IH]; cbn [quiet_after_success];
    [unfold void_successes, count; simpl; lia|].
  intros [Hx Hq]%andb_true_iff. specialize (IH Hq).
  unfold void_successes in *. rewrite count_cons.
  destruct (is_void_of id x) eqn:E; cbn [negb orb andb] in *; [|lia].
  apply Nat.eqb_eq in Hx. destruct (answered_ok x); lia.
Qed.

End Invariants.

(** ** The joins: restacks per PO, carrier per PO, trucks per ID *)

Section Joins.
Import Scanner Spec.

Lemma aggregate_snoc ancillary item :
  aggregate (ancillary ++ [item]) = ancillaryStep (aggregate ancillary) item.
Proof. unfold aggregate. by rewrite fold_left_app. Qed.

Lemma Zsum_map_snoc {A} (f : A → Z) l x :
  Zsum (map f (l ++ [x])) = Zsum (map f l) + f x.
Proof. induction l as [|y l IH]; simpl; lia. Qed.


Lemma truthy_field_idem o p : Js.truthy_field o = Some p → Js.truthy_field (Some p) = Some p.
Proof. destruct o as [[|c s]|]; simpl; [done| |done]. by intros [= <-]. Qed.

Lemma sum_of_snoc {A} (f : A → Z) l x :
  match l ++ [x] with
  | [] => None
  | items => Some (Zsum (map f items))
  end = Some (Zsum (map f l) + f x).
Proof.
  destruct l as [|y l]; simpl; [f_equal; lia|].
  f_equal. rewrite Zsum_map_snoc. lia.
Qed.

(** [restacksByPO[p]] is set exactly when some restack/upstack item carries
    PO number [p], and then holds the sum of their quantities. *)
Lemma restacksByPO_lookup ancillary p :
  (aggregate ancillary).1 !! p =
  match restack_items p ancillary with
  | [] => None
  | items => Some (Zsum (map quantityOf items))
  end.
Proof.
  induction ancillary as [|item ancillary IH] using rev_ind; [done|].
  rewrite aggregate_snoc. unfold restack_items in *. rewrite List.filter_app.
  destruct (aggregate ancillary) as [rb cb]. cbn [fst] in IH.
  set (l := List.filter _ ancillary) in *.
  cbn [List.filter ancillaryStep fst]. unfold item_of.
  destruct (isRestackOrUpstack item) eqn:Efee.
  - destruct (Js.truthy_field (Ancillary.pO_Number item)) as [q|] eqn:Epo.
    + destruct (decide (q = p)) as [->|Hne].
      * rewrite bool_decide_eq_true_2 by done. cbn [andb].
        rewrite lookup_insert_eq, IH, sum_of_snoc. by destruct l.
      * rewrite bool_decide_eq_false_2 by congruence. cbn [andb].
        rewrite lookup_insert_ne by done. by rewrite IH, app_nil_r.
    + rewrite bool_decide_eq_false_2 by done. cbn [andb]. by rewrite IH, app_nil_r.
  - rewrite andb_false_r. by rewrite IH, app_nil_r.
Qed.

(** [carrierByPO[p]] is the carrier name of the last item that carries PO
    number [p] and a carrier name. *)
Lemma carrierByPO_lookup ancillary p :
  (aggregate ancillary).2 !! p = ancillaryCarrier p ancillary.
Proof.
  unfold ancillaryCarrier.
  induction ancillary as [|item ancillary IH] using rev_ind; [done|].
  rewrite aggregate_snoc, omap_app, last_app.
  destruct (aggregate ancillary) as [rb cb]. cbn [snd] in IH.
  cbn [omap list_omap ancillaryStep snd]. unfold item_carrier, item_of.
  destruct (Js.truthy_field (Ancillary.pO_Number item)) as [q|] eqn:Epo.
  - destruct (decide (q = p)) as [->|Hne].
    + rewrite bool_decide_eq_true_2 by done.
      destruct (Js.truthy_field (Ancillary.carrier_Name item)) as [c|]; cbn [last].
      * by rewrite lookup_insert_eq.
      * exact IH.
    + rewrite bool_decide_eq_false_2 by congruence. cbn [last].
      destruct (Js.truthy_field (Ancillary.carrier_Name item)) as [c|]; [|exact IH].
      by rewrite lookup_insert_ne.
  - rewrite bool_decide_eq_false_2 by done. exact IH.
Qed.

Lemma carrierByPO_truthy ancillary p c :
  (aggregate ancillary).2 !! p = Some c → Js.truthy_field (Some c) = Some c.
Proof.
  rewrite carrierByPO_lookup. unfold ancillaryCarrier. intros Hl.
  apply last_Some in Hl as [l' Hl].
  assert (c ∈ omap (item_carrier p) ancillary) as Hin by (rewrite Hl; set_solver).
  apply list_elem_of_omap in Hin as (item & _ & Hitem).
  unfold item_carrier in Hitem. destruct (item_of p item); [|done].
  by apply truthy_field_idem in Hitem.
Qed.

(** [leByTruckID[id]] is the last truck summary whose truck ID is [id]. *)
Lemma leByTruckID_lookup trucks id : indexTrucks trucks !! id = matchedTruck id trucks.
Proof.
  unfold indexTrucks, matchedTruck.
  induction trucks as [|t trucks IH] using rev_ind; [done|].
  rewrite fold_left_app, List.filter_app, last_app. cbn [fold_left List.filter].
  destruct (Js.truthy_field (Truck.truckID t)) as [q|] eqn:Eid.
  - destruct (decide (q = id)) as [->|Hne].
    + rewrite bool_decide_eq_true_2 by done. cbn [last]. by rewrite lookup_insert_eq.
    + rewrite bool_decide_eq_false_2 by congruence. cbn [last].
      by rewrite lookup_insert_ne.
  - rewrite bool_decide_eq_false_2 by done. exact IH.
Qed.

(** Line 93 computes the carrier of the specification. *)
Lemma carrierOf_spec ancillary trucks po :
  carrierOf (aggregate ancillary).2 (indexTrucks trucks) po = Spec.carrier ancillary trucks po.
Proof.
  unfold carrierOf, Spec.carrier, or_else.
  rewrite leByTruckID_lookup.
  destruct ((aggregate ancillary).2 !! poNumberOf po) as [c|] eqn:Ec.
  - rewrite (carrierByPO_truthy _ _ _ Ec). rewrite carrierByPO_lookup in Ec.
    by rewrite Ec.
  - rewrite carrierByPO_lookup in Ec. rewrite Ec. simpl.
    destruct (matchedTruck (truckIdOf po) trucks) as [t|]; [|done].
    by destruct (Truck.carrierName t) as [[|a s]|].
Qed.

End Joins.

(** ** Per-PO decisions *)

Import Process Api Scanner History Spec.

Section Decisions.
Context (w : world).

Lemma isOver_gt rb po : isOver rb po = true ↔ restacksUpstacksOf rb po > palletsInOf po.
Proof. unfold isOver. rewrite Z.ltb_lt. lia. Qed.

Lemma scanPO_not_over rb cb lb subDept tok po s :
  isOver rb po = false →
  scanPO rb cb lb w subDept tok po s = (Return (mkResult rb cb lb subDept po OK, []), s).
Proof. intros H. rewrite scanPO_run. unfold decide_status. by rewrite H. Qed.

Lemma decide_status_over_not_OK rb cb lb tok po s st acts s' :
  isOver rb po = true →
  decide_status rb cb lb w tok po s = (Return (st, acts), s') → st ≠ OK.
Proof.
  intros Hover. unfold decide_status. rewrite Hover.
  destruct (checkoutIDOf lb po) as [id|].
  - rewrite voidOnce_run. case_bool_decide; [by intros [= <- _ _]|]. cbv zeta.
    destruct (net w _ _) as [msg|r]; [by intros [= <- _ _]|].
    destruct (res_status r =? 401); [done|].
    destruct (res_ok r); by intros [= <- _ _].
  - rewrite alertOnce_run. case_bool_decide; by intros [= <- _ _].
Qed.

(** C2. For every PO: [palletsIn] is the sum of the sub-counts that are
    present (a missing one counts 0); [restacksUpstacks] is 0 when no
    restack/upstack item carries the PO's number; the PO is over exactly
    when [restacksUpstacks > palletsIn]; and when [restacksUpstacks <=
    palletsIn], equality included, the step returns status OK, pushes no
    action and leaves the state as it was, while an entry returned for a
    PO that is over never has status OK. *)
Theorem over_iff_restacks_exceed_pallets (ancillary : list Ancillary.t)
    (cb : gmap string string) (lb : gmap string Truck.t) (subDept : Z) (tok : string)
    (po : PO.t) (s : state) :
  let rb := (aggregate ancillary).1 in
  palletsInOf po
  = Zsum (omap id [PO.palletWhiteInCount po; PO.palletChepInCount po;
                   PO.palletPecoInCount po; PO.palletIgpsInCount po]) ∧
  (restack_items (poNumberOf po) ancillary = [] → restacksUpstacksOf rb po = 0) ∧
  (isOver rb po = true ↔ restacksUpstacksOf rb po > palletsInOf po) ∧
  (restacksUpstacksOf rb po ≤ palletsInOf po →
     scanPO rb cb lb w subDept tok po s
     = (Return (Result.mk subDept (poNumberOf po) (truckIdOf po) (carrierOf cb lb po)
                  (palletsInOf po) (restacksUpstacksOf rb po) OK, []), s)) ∧
  (∀ r acts s', scanPO rb cb lb w subDept tok po s = (Return (r, acts), s') →
     Result.palletsIn r = palletsInOf po ∧
     Result.restacksUpstacks r = restacksUpstacksOf rb po ∧
     (Result.status r = OK ↔ restacksUpstacksOf rb po ≤ palletsInOf po)).
Proof.
  intros rb. split; [|split; [|split; [|split]]].
  - unfold palletsInOf.
    destruct (PO.palletWhiteInCount po), (PO.palletChepInCount po),
      (PO.palletPecoInCount po), (PO.palletIgpsInCount po); simpl; lia.
  - intros Hnone. unfold restacksUpstacksOf. subst rb.
    by rewrite restacksByPO_lookup, Hnone.
  - apply isOver_gt.
  - intros Hle. apply scanPO_not_over.
    destruct (isOver rb po) eqn:E; [|done]. apply isOver_gt in E. lia.
  - intros r acts s'. rewrite scanPO_run.
    destruct (decide_status rb cb lb w tok po s) as [[[st acts0]|e] s0] eqn:Ed; [|done].
    intros [= <- <- <-]. cbn [Result.palletsIn Result.restacksUpstacks Result.status mkResult].
    split; [done|]. split; [done|].
    destruct (isOver rb po) eqn:E.
    + pose proof (decide_status_over_not_OK _ _ _ _ _ _ _ _ _ E Ed) as Hne.
      apply isOver_gt in E. split; [done|lia].
    + unfold decide_status in Ed. rewrite E in Ed. injection Ed as <- _ _.
      split; [intros _|done]. unfold isOver in E. lia.
Qed.

End Decisions.

(** Five pallets in against five restacks: equal counts are not over. *)
Lemma over_iff_witness :
  scanPO (aggregate [Ancillary.mk (Some "P1") None (Some "Restack") (JNumber 5)]).1
         ∅ (indexTrucks [Fixture.T1]) (Fixture.scripted []) 85 "le-token" Fixture.P1 init
  = (Return (Result.mk 85 "P1" "T1" "Roadway" 5 5 OK, []), init).
Proof.
  exact (proj1 (proj2 (proj2 (proj2
    (over_iff_restacks_exceed_pallets (Fixture.scripted [])
       [Ancillary.mk (Some "P1") None (Some "Restack") (JNumber 5)]
       ∅ (indexTrucks [Fixture.T1]) 85 "le-token" Fixture.P1 init))))
    ltac:(vm_compute; discriminate)).
Defined.


(** ** Void failures *)

Section VoidFailures.
Context (w : world) (rb : gmap string Z) (cb : gmap string string)
        (lb : gmap string Truck.t).

Lemma scanPO_void rb' cb' lb' subDept tok po id s :
  isOver rb' po = true → checkoutIDOf lb' po = Some id →
  scanPO rb' cb' lb' w subDept tok po s =
  match voidOnce rb' cb' lb' w tok po id s with
  | (Return (st, acts), s') => (Return (mkResult rb' cb' lb' subDept po st, acts), s')
  | (Throw e, s') => (Throw e, s')
  end.
Proof. intros Hover Hid. rewrite scanPO_run. unfold decide_status. by rewrite Hover, Hid. Qed.

(** C3. Let a PO be over, with checkout ID [id] not yet voided, and let the
    void call fail with error [e]. If [e] has status 401, the step throws
    [e] at once, the rest of the loop is not run, and neither dedup set
    changes. Otherwise the error is caught and logged, the PO's entry has
    status OVER with no action, neither dedup set changes (so [id] is still
    not voided), the loop goes on with the remaining POs, and the next
    time the PO is processed the void call is issued again. *)
Theorem void_failure_isolated (subDept : Z) (tok : string) (po : PO.t) (id : string)
    (s : state) (e : js_error) :
  isOver rb po = true →
  checkoutIDOf lb po = Some id →
  id ∉ voidedCheckoutIDs s →
  (voidDriverWalletCheckout w id tok s).1 = Throw e →
  let s1 := (voidDriverWalletCheckout w id tok s).2 in
  let s2 := with_log (voidFailedLine po id e) s1 in
  (status e = Some 401 →
     scanPO rb cb lb w subDept tok po s = (Throw e, s1) ∧
     (∀ rest, scanPOs rb cb lb w subDept tok (po :: rest) s = (Throw e, s1)) ∧
     voidedCheckoutIDs s1 = voidedCheckoutIDs s ∧
     alertedOverPOs s1 = alertedOverPOs s ∧
     logs s1 = logs s) ∧
  (status e ≠ Some 401 →
     scanPO rb cb lb w subDept tok po s
     = (Return (mkResult rb cb lb subDept po OVER, []), s2) ∧
     logs s2 = logs s ++ [voidFailedLine po id e] ∧
     voidedCheckoutIDs s2 = voidedCheckoutIDs s ∧
     alertedOverPOs s2 = alertedOverPOs s ∧
     (id ∉ voidedCheckoutIDs s2) ∧
     (∀ rest, scanPOs rb cb lb w subDept tok (po :: rest) s
              = match scanPOs rb cb lb w subDept tok rest s2 with
                | (Return (poData, actions), s3) =>
                    (Return (mkResult rb cb lb subDept po OVER :: poData, actions), s3)
                | (Throw e', s3) => (Throw e', s3)
                end) ∧
     (∀ subDept' tok',
        exchanges (scanPO rb cb lb w subDept' tok' po s2).2
        = (void_request id tok', net w (length (exchanges s2)) (void_request id tok'))
          :: exchanges s2)).
Proof.
  intros Hover Hid Hnew Hfail s1 s2.
  rewrite voidDriverWalletCheckout_run in Hfail. cbn [fst] in Hfail.
  assert (void_failure (net w (length (exchanges s)) (void_request id tok)) = Some e)
    as Hfail' by (by destruct (void_failure _) as [e'|]; [injection Hfail as ->|]).
  clear Hfail. rename Hfail' into Hfail.
  subst s2 s1. rewrite voidDriverWalletCheckout_run. cbn [snd].
  set (s1 := record_exchange _ s). set (s2 := with_log _ s1).
  assert (voidOnce rb cb lb w tok po id s
          = if bool_decide (status e = Some 401) then (Throw e, s1)
            else (Return (OVER, []), s2)) as Hrun.
  { rewrite voidOnce_run, bool_decide_eq_false_2 by done. cbv zeta.
    subst s2 s1. unfold void_failure in Hfail.
    destruct (net w _ _) as [msg|r]; [by injection Hfail as <-|].
    destruct (res_status r =? 401); [by injection Hfail as <-|].
    destruct (res_ok r); [done|]. by injection Hfail as <-. }
  split.
  - intros H401. rewrite bool_decide_eq_true_2 in Hrun by done.
    assert (scanPO rb cb lb w subDept tok po s = (Throw e, s1)) as Hpo.
    { by rewrite (scanPO_void _ _ _ _ _ _ id), Hrun. }
    split; [done|]. split; [|done].
    intros rest. by rewrite scanPOs_cons, Hpo.
  - intros Hother. rewrite bool_decide_eq_false_2 in Hrun by done.
    assert (scanPO rb cb lb w subDept tok po s
            = (Return (mkResult rb cb lb subDept po OVER, []), s2)) as Hpo.
    { by rewrite (scanPO_void _ _ _ _ _ _ id), Hrun. }
    split; [done|]. split; [done|]. split; [done|]. split; [done|]. split; [done|].
    split.
    + intros rest. rewrite scanPOs_cons, Hpo.
      by destruct (scanPOs rb cb lb w subDept tok rest s2) as [[[poData actions]|e'] s3].
    + intros subDept' tok'. rewrite (scanPO_void _ _ _ _ _ _ id) by done.
      rewrite voidOnce_run, bool_decide_eq_false_2 by done. cbv zeta.
      destruct (net w (length (exchanges s2)) _) as [msg|r]; [done|].
      destruct (res_status r =? 401); [done|]. by destruct (res_ok r).
Qed.

End VoidFailures.

(** The void for CO123 answers 500: the error is caught, P1 stays OVER and
    CO123 stays out of [voidedCheckoutIDs]. *)
Lemma void_failure_witness :
  scanPO (aggregate [Fixture.restack7]).1 (aggregate [Fixture.restack7]).2
         (indexTrucks [Fixture.T1]) (Fixture.scripted [Fixture.answer 500 "unavailable"])
         85 "le-token" Fixture.P1 init
  = (Return (Result.mk 85 "P1" "T1" "ACME" 5 7 OVER, []),
     with_log (voidFailedLine Fixture.P1 "CO123" (Error "Void failed 500"))
       (voidDriverWalletCheckout (Fixture.scripted [Fixture.answer 500 "unavailable"])
          "CO123" "le-token" init).2).
Proof.
  exact (proj1 (proj2 (void_failure_isolated
    (Fixture.scripted [Fixture.answer 500 "unavailable"])
    (aggregate [Fixture.restack7]).1 (aggregate [Fixture.restack7]).2
    (indexTrucks [Fixture.T1]) 85 "le-token" Fixture.P1 "CO123" init
    (Error "Void failed 500") eq_refl eq_refl (not_elem_of_empty (C:=gset string) "CO123")
    eq_refl) ltac:(discriminate))).
Defined.

(** ** No wallet checkout: the alert *)

Section Alerts.
Context (w : world) (rb : gmap string Z) (cb : gmap string string)
        (lb : gmap string Truck.t).

Lemma needs_alert_spec po :
  needs_alert rb lb po = true ↔ isOver rb po = true ∧ checkoutIDOf lb po = None.
Proof.
  unfold needs_alert. rewrite andb_true_iff, bool_decide_eq_true. done.
Qed.

Lemma scanPO_alert subDept tok po s :
  needs_alert rb lb po = true →
  scanPO rb cb lb w subDept tok po s =
  if bool_decide (poNumberOf po ∈ alertedOverPOs s) then
    (Return (mkResult rb cb lb subDept po OVER, []), s)
  else
    (Return (mkResult rb cb lb subDept po OVER,
             [mkAction rb cb lb over_no_wallet po None (wallClock w (length (exchanges s)))]),
     with_log (noWalletLine rb po) (with_alerted (poNumberOf po) s)).
Proof.
  intros [Hover Hid]%needs_alert_spec. rewrite scanPO_run. unfold decide_status.
  rewrite Hover, Hid, alertOnce_run. by case_bool_decide.
Qed.

Lemma count_app {A} (f : A → bool) l1 l2 : count f (l1 ++ l2) = (count f l1 + count f l2)%nat.
Proof. unfold count. by rewrite List.filter_app, length_app. Qed.

(** What one step does to [alertedOverPOs] and how many alerts for PO
    number [p] it pushes. *)
Lemma scanPO_alerts subDept tok po s r acts s' p :
  scanPO rb cb lb w subDept tok po s = (Return (r, acts), s') →
  alertedOverPOs s' = (if needs_alert rb lb po then {[poNumberOf po]} ∪ alertedOverPOs s
                       else alertedOverPOs s) ∧
  alerts_for p acts = (if needs_alert rb lb po && bool_decide (poNumberOf po = p)
                          && negb (bool_decide (p ∈ alertedOverPOs s))
                       then 1 else 0)%nat.
Proof.
  destruct (needs_alert rb lb po) eqn:Hna.
  - rewrite scanPO_alert by done. case_bool_decide as Hin.
    + intros [= <- <- <-].
      split; [symmetry; by apply subseteq_union_1_L, singleton_subseteq_l|].
      case_bool_decide as Hp; [subst p; by rewrite bool_decide_eq_true_2|done].
    + intros [= <- <- <-]. split; [done|].
      unfold alerts_for. rewrite count_cons. cbn [Action.type Action.poNumber mkAction].
      rewrite (bool_decide_eq_true_2 (over_no_wallet = over_no_wallet)) by done.
      case_bool_decide as Hp; [subst p; by rewrite bool_decide_eq_false_2|done].
  - destruct (isOver rb po) eqn:Hover.
    + destruct (checkoutIDOf lb po) as [id|] eqn:Hid.
      2:{ unfold needs_alert in Hna. by rewrite Hover, Hid in Hna. }
      rewrite (scanPO_void w _ _ _ _ _ _ id) by done.
      rewrite voidOnce_run. case_bool_decide; [by intros [= <- <- <-]|]. cbv zeta.
      destruct (net w _ _) as [msg|r0]; [by intros [= <- <- <-]|].
      destruct (res_status r0 =? 401); [done|].
      destruct (res_ok r0); by intros [= <- <- <-].
    + rewrite scanPO_not_over by done. by intros [= <- <- <-].
Qed.

(** A loop that returns has pushed one alert for a PO number that needed
    one and had not been alerted before, and none otherwise. *)
Lemma scanPOs_alerts subDept tok pos s poData actions s' p :
  scanPOs rb cb lb w subDept tok pos s = (Return (poData, actions), s') →
  alerts_for p actions
  = (if bool_decide (p ∈ alertedOverPOs s) then 0
     else if existsb (λ po, needs_alert rb lb po && bool_decide (poNumberOf po = p)) pos
          then 1 else 0)%nat.
Proof.
  revert s poData actions. induction pos as [|po rest IH]; intros s poData actions.
  { intros [= <- <- <-]. by case_bool_decide. }
  rewrite scanPOs_cons.
  destruct (scanPO rb cb lb w subDept tok po s) as [[[r acts]|e] s1] eqn:Hpo; [|done].
  destruct (scanPOs rb cb lb w subDept tok rest s1) as [[[pd acts']|e] s2] eqn:Hrest; [|done].
  intros [= <- <- <-]. unfold alerts_for in *. rewrite count_app.
  destruct (scanPO_alerts _ _ _ _ _ _ _ p Hpo) as [Hset Hcount].
  unfold alerts_for in Hcount. rewrite Hcount, (IH _ _ _ Hrest), Hset.
  cbn [existsb]. destruct (needs_alert rb lb po); cbn [andb orb].
  - case_bool_decide as Hp; cbn [andb orb].
    + subst p. rewrite (bool_decide_eq_true_2 (poNumberOf po ∈ _ ∪ _))
        by (by apply elem_of_union_l, elem_of_singleton).
      by case_bool_decide.
    + case_bool_decide as H1; case_bool_decide as H2; try done; exfalso.
      * apply H2, elem_of_union_r, H1.
      * apply elem_of_union in H2 as [H2%elem_of_singleton|H2]; [congruence|done].
  - by case_bool_decide.
Qed.

End Alerts.

(** ** The truck-summary fetch *)

Section TruckFetchRun.
Context (w : world) {J : Type} `{!Json J, !Payload J}.

Lemma fetchTruckSummaries_run subDept dateLE tok s :
  fetchTruckSummaries w subDept dateLE tok s =
  match settle "LE API" "Load Entry auth expired (401)" (trucksEndpoint subDept dateLE)
          (net w (length (exchanges s)) (trucksRequest subDept dateLE tok)) with
  | Return j =>
      (Return (as_trucks j),
       record_exchange (trucksRequest subDept dateLE tok,
                        net w (length (exchanges s)) (trucksRequest subDept dateLE tok)) s)
  | Throw e =>
      if bool_decide (status e = Some 401) then
        (Throw e,
         record_exchange (trucksRequest subDept dateLE tok,
                          net w (length (exchanges s)) (trucksRequest subDept dateLE tok)) s)
      else
        (Return [],
         with_log (trucksWarning e)
           (record_exchange (trucksRequest subDept dateLE tok,
                             net w (length (exchanges s)) (trucksRequest subDept dateLE tok))
              s))
  end.
Proof.
  unfold fetchTruckSummaries, try_catch, fmap, M_fmap, trucksRequest.
  rewrite fetchLoadEntry_run.
  destruct (settle _ _ _ _) as [j|e]; [done|]. by case_bool_decide.
Qed.

End TruckFetchRun.

(** ** Alerts returned by a completed cycle *)

Section Delivered.
Context (w : world).

Lemma alerts_match_same s s' :
  alertedOverPOs s = alertedOverPOs s' → alerts_match s s' [].
Proof.
  intros Heq. split; [by rewrite Heq|]. intros p.
  rewrite bool_decide_eq_false_2; [done|]. rewrite Heq. tauto.
Qed.

Lemma alerts_match_app s s1 s2 a1 a2 :
  alerts_match s s1 a1 → alerts_match s1 s2 a2 → alerts_match s s2 (a1 ++ a2).
Proof.
  intros [Hsub1 H1] [Hsub2 H2]. split; [by etrans|]. intros p.
  unfold alerts_for in *. rewrite count_app, H1, H2.
  pose proof (proj1 (elem_of_subseteq _ _) Hsub1 p) as I1.
  pose proof (proj1 (elem_of_subseteq _ _) Hsub2 p) as I2.
  destruct (decide (p ∈ alertedOverPOs s)), (decide (p ∈ alertedOverPOs s1)),
    (decide (p ∈ alertedOverPOs s2)); repeat case_bool_decide; try done; tauto.
Qed.

Lemma scanPO_alerts_match rb cb lb subDept tok po s r acts s' :
  scanPO rb cb lb w subDept tok po s = (Return (r, acts), s') → alerts_match s s' acts.
Proof.
  intros Hrun. split.
  - destruct (scanPO_alerts w rb cb lb _ _ _ _ _ _ _ EmptyString Hrun) as [-> _].
    destruct (needs_alert rb lb po); [apply union_subseteq_r|done].
  - intros p. destruct (scanPO_alerts w rb cb lb _ _ _ _ _ _ _ p Hrun) as [-> ->].
    destruct (needs_alert rb lb po); cbn [andb].
    + destruct (decide (p ∈ alertedOverPOs s));
        repeat case_bool_decide; try done; exfalso;
        repeat match goal with
               | H : context [_ ∈ _ ∪ _] |- _ =>
                   rewrite elem_of_union, elem_of_singleton in H
               end; intuition (auto; congruence).
    + rewrite bool_decide_eq_false_2; [done|tauto].
Qed.

Lemma scanPOs_alerts_match rb cb lb subDept tok pos s poData actions s' :
  scanPOs rb cb lb w subDept tok pos s = (Return (poData, actions), s') →
  alerts_match s s' actions.
Proof.
  revert s poData actions. induction pos as [|po rest IH]; intros s poData actions.
  { intros [= <- <- <-]. by apply alerts_match_same. }
  rewrite scanPOs_cons.
  destruct (scanPO rb cb lb w subDept tok po s) as [[[r acts]|e] s1] eqn:Hpo; [|done].
  destruct (scanPOs rb cb lb w subDept tok rest s1) as [[[pd acts']|e] s2] eqn:Hrest; [|done].
  intros [= <- <- <-].
  eapply alerts_match_app; [by eapply scanPO_alerts_match|by eapply IH].
Qed.

Context {J : Type} `{!Json J, !Payload J}.

Lemma reconcile_alerts_match subDept tok rb cb leTrucks pos s poData actions s' :
  reconcile w subDept tok rb cb leTrucks pos s = (Return (poData, actions), s') →
  alerts_match s s' actions.
Proof.
  unfold reconcile. rewrite (bind_run (scanPOs _ _ _ w _ _ _)).
  destruct (scanPOs _ _ _ w subDept tok pos s) as [[[pd acts]|e] s1] eqn:Hloop; [|done].
  intros [= <- <- <-]. apply scanPOs_alerts_match in Hloop.
  destruct Hloop as [Hsub Hcount]. by split.
Qed.

(** Up to the reconciliation a scan leaves [alertedOverPOs] alone. *)
Lemma scanOne_alerts_match subDept apexToken tok s poData actions s' :
  scanOne w subDept apexToken tok s = (Return (poData, actions), s') →
  alerts_match s s' actions.
Proof.
  unfold scanOne, todayApex, todayLoadEntry.
  rewrite (bind_run (Clock.todayApex <$> newDate w)).
  change ((Clock.todayApex <$> newDate w) s)
    with (Return (A:=string) (Clock.todayApex (wallClock w (length (exchanges s)))), s).
  cbv beta iota.
  rewrite (bind_run (Clock.todayLoadEntry <$> newDate w)).
  change ((Clock.todayLoadEntry <$> newDate w) s)
    with (Return (A:=string) (Clock.todayLoadEntry (wallClock w (length (exchanges s)))), s).
  cbv beta iota.
  rewrite (bind_run (log _)). unfold log at 1. cbv beta iota.
  rewrite (bind_run (fetchApex w _ _)), fetchApex_run.
  destruct (settle _ _ _ _) as [pos|e]; [|done].
  rewrite (bind_run (log _)). unfold log at 1. cbv beta iota.
  rewrite (bind_run (fetchApex w _ _)), fetchApex_run.
  destruct (settle _ _ _ _) as [ancillary|e]; [|done].
  destruct (aggregate (as_ancillary ancillary)) as [rb cb].
  rewrite (bind_run (log _)). unfold log at 1. cbv beta iota.
  rewrite (bind_run (fetchTruckSummaries w _ _ _)), fetchTruckSummaries_run.
  destruct (settle _ _ _ _) as [trucks|e].
  - intros Hrec. apply reconcile_alerts_match in Hrec. exact Hrec.
  - case_bool_decide; [done|]. intros Hrec. apply reconcile_alerts_match in Hrec.
    exact Hrec.
Qed.

Lemma scanEach_alerts_match deptList apexToken tok s poData actions s' :
  scanEach w deptList apexToken tok s = (Return (poData, actions), s') →
  alerts_match s s' actions.
Proof.
  revert s poData actions. induction deptList as [|d rest IH]; intros s poData actions.
  { intros [= <- <- <-]. by apply alerts_match_same. }
  cbn [scanEach]. rewrite (bind_run (scanOne w _ _ _)).
  destruct (scanOne w d apexToken tok s) as [[[pd acts]|e] s1] eqn:Hone; [|done].
  rewrite (bind_run (scanEach w _ _ _)).
  destruct (scanEach w rest apexToken tok s1) as [[[pd' acts']|e] s2] eqn:Hrest; [|done].
  intros [= <- <- <-].
  eapply alerts_match_app; [by eapply scanOne_alerts_match|by eapply IH].
Qed.

(** A cycle that returns hands its caller exactly one over-no-wallet action
    for each PO number it recorded, and none for any other. *)
Lemma run_cycle_alerts_match c s poData actions s' :
  run_cycle w c s = (Return (poData, actions), s') → alerts_match s s' actions.
Proof. unfold run_cycle, scan. apply scanEach_alerts_match. Qed.

End Delivered.

(** What holds of the over-no-wallet alert. For every PO that is over with
    no checkout ID resolving: the first time its PO number is processed
    (the number is not yet in [alertedOverPOs]) the step pushes exactly one
    over-no-wallet action, records the number and gives status OVER;
    whenever the number is already recorded the step pushes nothing,
    changes nothing and gives status OVER; once recorded a number stays
    recorded over any sequence of cycles; the action list a completed loop
    returns holds exactly one over-no-wallet action for a number that needed
    one and was not recorded before, none for any other number; and a cycle
    that returns hands its caller exactly one over-no-wallet action for each
    PO number it recorded and none for any other. What does not hold is
    that the alert reaches the caller: a cycle that throws after it has
    recorded the number loses it. *)
Theorem over_no_wallet_alert_once (w : world) {J : Type} `{!Json J, !Payload J}
    (rb : gmap string Z) (cb : gmap string string) (lb : gmap string Truck.t) :
  (∀ subDept tok po s,
     isOver rb po = true → checkoutIDOf lb po = None →
     poNumberOf po ∉ alertedOverPOs s →
     scanPO rb cb lb w subDept tok po s
     = (Return (mkResult rb cb lb subDept po OVER,
                [mkAction rb cb lb over_no_wallet po None
                   (wallClock w (length (exchanges s)))]),
        with_log (noWalletLine rb po) (with_alerted (poNumberOf po) s)) ∧
     poNumberOf po ∈ alertedOverPOs (with_log (noWalletLine rb po)
                                       (with_alerted (poNumberOf po) s))) ∧
  (∀ subDept tok po s,
     isOver rb po = true → checkoutIDOf lb po = None →
     poNumberOf po ∈ alertedOverPOs s →
     scanPO rb cb lb w subDept tok po s
     = (Return (mkResult rb cb lb subDept po OVER, []), s)) ∧
  (∀ (cs : list cycle) s p,
     p ∈ alertedOverPOs s → p ∈ alertedOverPOs (run_cycles w cs s).2) ∧
  (∀ subDept tok pos s poData actions s' p,
     scanPOs rb cb lb w subDept tok pos s = (Return (poData, actions), s') →
     alerts_for p actions
     = (if bool_decide (p ∈ alertedOverPOs s) then 0
        else if existsb (λ po, needs_alert rb lb po && bool_decide (poNumberOf po = p)) pos
             then 1 else 0)%nat) ∧
  (∀ (c : cycle) s poData actions s' p,
     run_cycle w c s = (Return (poData, actions), s') →
     alerts_for p actions
     = (if bool_decide (p ∈ alertedOverPOs s' ∧ p ∉ alertedOverPOs s) then 1 else 0)%nat).
Proof.
  split; [|split; [|split; [|split]]].
  - intros subDept tok po s Hover Hid Hnew.
    rewrite scanPO_alert by (by apply needs_alert_spec).
    rewrite bool_decide_eq_false_2 by done. split; [done|].
    cbn [alertedOverPOs with_log with_alerted]. set_solver.
  - intros subDept tok po s Hover Hid Hold.
    rewrite scanPO_alert by (by apply needs_alert_spec).
    by rewrite bool_decide_eq_true_2.
  - intros cs s p Hp. destruct (run_cycles_grows w cs s) as [_ Hsub]. set_solver.
  - intros subDept tok pos s poData actions s' p. apply scanPOs_alerts.
  - intros c s poData actions s' p Hrun.
    by destruct (run_cycle_alerts_match w c s poData actions s' Hrun) as [_ ->].
Qed.

(** P1 of the fixtures, seven restacks against five pallets and no wallet
    checkout on its truck: alerted once, then silent. *)
Lemma over_no_wallet_witness :
  scanPO (aggregate [Fixture.restack7]).1 (aggregate [Fixture.restack7]).2
         (indexTrucks [Fixture.T1_bare]) (Fixture.scripted []) 85 "le-token" Fixture.P1
         (with_alerted "P1" init)
  = (Return (Result.mk 85 "P1" "T1" "ACME" 5 7 OVER, []), with_alerted "P1" init).
Proof.
  exact (proj1 (proj2 (over_no_wallet_alert_once (Fixture.scripted []) (J:=Fixture.doc)
                         (aggregate [Fixture.restack7]).1 (aggregate [Fixture.restack7]).2
                         (indexTrucks [Fixture.T1_bare])))
           85 "le-token" Fixture.P1 (with_alerted "P1" init) eq_refl eq_refl
           (elem_of_union_l (C:=gset string) "P1" {["P1"]} ∅
              (proj2 (elem_of_singleton (C:=gset string) "P1" "P1") eq_refl))).
Defined.

(** C4. The alert for an over-limit PO without wallet payment can be lost
    for good. In both cycles P1 is over with no checkout ID, yet neither
    cycle delivers an over-no-wallet action for it: the first cycle records
    P1 in [alertedOverPOs] (line 134) and then throws on the 401 that P2's
    void call meets, so its action list never reaches the caller and no
    mail is sent; the second finds P1 already recorded and stays silent. *)
Lemma alert_lost_when_cycle_aborts :
  needs_alert (aggregate [Fixture.restack7; Fixture.upstack3]).1
              (indexTrucks [Fixture.T1_bare; Fixture.T2]) Fixture.P1 = true ∧
  map (λ o, alerts_for "P1" (delivered o))
      (run_cycles Fixture.token_expires_mid_cycle [Fixture.sub85; Fixture.sub85] init).1
  = [0; 0]%nat ∧
  map (λ o, match o with Return _ => true | Throw _ => false end)
      (run_cycles Fixture.token_expires_mid_cycle [Fixture.sub85; Fixture.sub85] init).1
  = [false; true].
Proof. vm_compute. done. Qed.

(** ** A checkout ID that is present but empty *)

Section BlankCheckout.
Context (w : world) (rb : gmap string Z) (cb : gmap string string)
        (lb : gmap string Truck.t).

(** C10. When the truck summary matched by an over-limit PO has
    [driverWalletCheckoutID] present but empty, no checkout ID resolves; the
    step does exactly what it does when the field is absent from that truck
    summary; it issues no request; and it takes the over-no-wallet path: one
    alert action when the PO number was not alerted before, none otherwise,
    status OVER either way. *)
Theorem blank_checkout_is_no_checkout (subDept : Z) (tok : string) (po : PO.t)
    (t : Truck.t) (s : state) :
  isOver rb po = true →
  lb !! truckIdOf po = Some t →
  Truck.driverWalletCheckoutID t = Some EmptyString →
  let bare := Truck.mk (Truck.truckID t) None (Truck.carrierName t) in
  checkoutIDOf lb po = None ∧
  scanPO rb cb lb w subDept tok po s
  = scanPO rb cb (<[truckIdOf po := bare]> lb) w subDept tok po s ∧
  exchanges (scanPO rb cb lb w subDept tok po s).2 = exchanges s ∧
  scanPO rb cb lb w subDept tok po s
  = if bool_decide (poNumberOf po ∈ alertedOverPOs s) then
      (Return (mkResult rb cb lb subDept po OVER, []), s)
    else
      (Return (mkResult rb cb lb subDept po OVER,
               [mkAction rb cb lb over_no_wallet po None
                  (wallClock w (length (exchanges s)))]),
       with_log (noWalletLine rb po) (with_alerted (poNumberOf po) s)).
Proof.
  intros Hover Ht Hblank bare.
  assert (checkoutIDOf lb po = None) as Hid.
  { unfold checkoutIDOf. by rewrite Ht, Hblank. }
  assert (checkoutIDOf (<[truckIdOf po := bare]> lb) po = None) as Hid'.
  { unfold checkoutIDOf. by rewrite lookup_insert_eq. }
  assert (carrierOf cb (<[truckIdOf po := bare]> lb) po = carrierOf cb lb po) as Hcar.
  { unfold carrierOf. by rewrite lookup_insert_eq, Ht. }
  assert (needs_alert rb lb po = true) as Hna by (by apply needs_alert_spec).
  assert (needs_alert rb (<[truckIdOf po := bare]> lb) po = true) as Hna'
    by (by apply needs_alert_spec).
  split; [done|]. rewrite !scanPO_alert by done.
  unfold mkResult, mkAction. rewrite Hcar. split; [done|].
  split; [by case_bool_decide|done].
Qed.

End BlankCheckout.

(** Truck T1 with an empty checkout ID: P1 is alerted, nothing is voided. *)
Lemma blank_checkout_witness :
  checkoutIDOf (indexTrucks [Fixture.T1_blank]) Fixture.P1 = None ∧
  exchanges (scanPO (aggregate [Fixture.restack7]).1 (aggregate [Fixture.restack7]).2
               (indexTrucks [Fixture.T1_blank]) (Fixture.scripted [])
               85 "le-token" Fixture.P1 init).2 = [].
Proof.
  pose proof (blank_checkout_is_no_checkout (Fixture.scripted [])
                (aggregate [Fixture.restack7]).1 (aggregate [Fixture.restack7]).2
                (indexTrucks [Fixture.T1_blank]) 85 "le-token" Fixture.P1 Fixture.T1_blank
                init eq_refl eq_refl eq_refl) as (H1 & _ & H2 & _).
  split; [exact H1|exact H2].
Defined.

(** ** Void calls over the process lifetime *)

(** C1 (amended). Over every sequence of cycles run one after the other
    from the initial state ([run_cycles]: each call of [scan] has settled
    before the next starts) and for every checkout ID: no void call for the
    ID is issued after one for it has succeeded, so at most one void call
    per ID succeeds, and an ID with a successful void is in
    [voidedCheckoutIDs], where it stays over any further cycles. Processing
    an over-limit PO whose checkout ID is in [voidedCheckoutIDs] gives
    status CANCELLED and leaves the state, hence the history of calls,
    untouched. And when the void for a not yet voided ID goes through, the
    step gives CANCELLED with one cancelled action, the history gains
    exactly that one void call, and processing the PO again gives CANCELLED
    with no action and no further call. Cycles that overlap are another
    matter: two steps that interleave at the [await] of line 112 can both
    send the void call for one ID. *)
Theorem void_not_repeated_after_success (w : world) {J : Type} `{!Json J, !Payload J} :
  (∀ (cs : list cycle) id,
     quiet_after_success id (exchanges (run_cycles w cs init).2) = true ∧
     (void_successes id (exchanges (run_cycles w cs init).2) ≤ 1)%nat ∧
     (void_successes id (exchanges (run_cycles w cs init).2) ≠ 0%nat →
      id ∈ voidedCheckoutIDs (run_cycles w cs init).2)) ∧
  (∀ (cs : list cycle) s id,
     id ∈ voidedCheckoutIDs s → id ∈ voidedCheckoutIDs (run_cycles w cs s).2) ∧
  (∀ rb cb lb subDept tok po id s,
     isOver rb po = true → checkoutIDOf lb po = Some id →
     id ∈ voidedCheckoutIDs s →
     scanPO rb cb lb w subDept tok po s
     = (Return (mkResult rb cb lb subDept po CANCELLED, []), s)) ∧
  (∀ rb cb lb subDept tok po id s,
     isOver rb po = true → checkoutIDOf lb po = Some id →
     id ∉ voidedCheckoutIDs s →
     (voidDriverWalletCheckout w id tok s).1 = Return true →
     let s1 := with_log (cancelledLine po id)
                 (with_voided id (voidDriverWalletCheckout w id tok s).2) in
     scanPO rb cb lb w subDept tok po s
     = (Return (mkResult rb cb lb subDept po CANCELLED,
                [mkAction rb cb lb cancelled po (Some id)
                   (wallClock w (S (length (exchanges s))))]), s1) ∧
     scanPO rb cb lb w subDept tok po s1
     = (Return (mkResult rb cb lb subDept po CANCELLED, []), s1) ∧
     void_calls id (exchanges s1) = S (void_calls id (exchanges s))).
Proof.
  split; [|split; [|split]].
  - intros cs id.
    destruct (run_cycles_consistent w cs init consistent_init id) as [Hin Hq].
    split; [done|]. split; [by apply quiet_at_most_one|done].
  - intros cs s id Hid. destruct (run_cycles_grows w cs s) as [Hsub _]. set_solver.
  - intros rb cb lb subDept tok po id s Hover Hid Hin.
    rewrite (scanPO_void w _ _ _ _ _ _ id) by done.
    by rewrite voidOnce_run, bool_decide_eq_true_2.
  - intros rb cb lb subDept tok po id s Hover Hid Hnew Hok s1.
    rewrite voidDriverWalletCheckout_run in Hok. cbn [fst] in Hok.
    assert (void_failure (net w (length (exchanges s)) (void_request id tok)) = None)
      as Hok' by (by destruct (void_failure _)).
    clear Hok. rename Hok' into Hok.
    subst s1. rewrite voidDriverWalletCheckout_run. cbn [snd].
    set (s1 := with_log _ (with_voided _ _)).
    assert (scanPO rb cb lb w subDept tok po s
            = (Return (mkResult rb cb lb subDept po CANCELLED,
                       [mkAction rb cb lb cancelled po (Some id)
                          (wallClock w (S (length (exchanges s))))]), s1)) as Hfirst.
    { rewrite (scanPO_void w _ _ _ _ _ _ id) by done.
      rewrite voidOnce_run, bool_decide_eq_false_2 by done. cbv zeta.
      subst s1. unfold void_failure in Hok.
      destruct (net w _ _) as [msg|r]; [done|].
      destruct (res_status r =? 401); [done|]. by destruct (res_ok r). }
    split; [done|]. split.
    + rewrite (scanPO_void w _ _ _ _ _ _ id) by done.
      rewrite voidOnce_run, bool_decide_eq_true_2; [done|].
      subst s1. cbn [voidedCheckoutIDs with_log with_voided]. set_solver.
    + subst s1. cbn [exchanges with_log with_voided record_exchange].
      unfold void_calls. rewrite count_cons, is_void_of_void.
      by rewrite bool_decide_eq_true_2.
Qed.

(** The scenario of the specification run twice: one void call for CO123
    in all, status CANCELLED both times. *)
Lemma void_not_repeated_witness :
  (void_successes "CO123"
     (exchanges (run_cycles Fixture.void_succeeds [Fixture.sub85; Fixture.sub85] init).2)
   ≤ 1)%nat ∧
  void_calls "CO123"
    (exchanges (run_cycles Fixture.void_succeeds [Fixture.sub85; Fixture.sub85] init).2)
  = 1%nat ∧
  map (λ o, match o with
            | Return (poData, _) => map Result.status poData
            | Throw _ => []
            end)
      (run_cycles Fixture.void_succeeds [Fixture.sub85; Fixture.sub85] init).1
  = [[CANCELLED]; [CANCELLED]].
Proof.
  split; [|split; vm_compute; reflexivity].
  exact (proj1 (proj2 (proj1 (void_not_repeated_after_success Fixture.void_succeeds
                                (J:=Fixture.doc))
                         [Fixture.sub85; Fixture.sub85] "CO123"))).
Defined.

(** C1 as stated fails: the void for CO123 is answered 500 in the first
    cycle, so the second cycle submits CO123 to the void call again. *)
Lemma void_submitted_twice :
  void_calls "CO123"
    (exchanges (run_cycles Fixture.void_fails_then_succeeds
                  [Fixture.sub85; Fixture.sub85] init).2)
  = 2%nat.
Proof. vm_compute. reflexivity. Qed.

Section TruckFetch.
Context (w : world) {J : Type} `{!Json J, !Payload J}.

(** C5. In a scan of one sub-department whose PO and ancillary fetches
    returned documents, let the truck-summary fetch fail with error [e].
    If [e] has status 401 the scan throws [e]; otherwise the failure is
    logged as a warning and the scan goes on as the reconciliation over an
    empty truck list, in which no checkout ID resolves for any PO. *)
Theorem truck_fetch_failure_tolerated (subDept : Z) (apexToken tok : string) (s : state)
    (pos ancillary : J) (e : js_error) :
  let dateApex := Clock.todayApex (wallClock w (length (exchanges s))) in
  let dateLE := Clock.todayLoadEntry (wallClock w (length (exchanges s))) in
  let s0 := with_log (sd subDept +:+ "Fetching POs...") s in
  let s1 := with_log (sd subDept +:+ "Fetching ancillary items...")
              (fetchApex (J:=J) w (posEndpoint subDept dateApex) apexToken s0).2 in
  let s2 := with_log (sd subDept +:+ "Fetching Load Entry truck summaries...")
              (fetchApex (J:=J) w (ancillaryEndpoint subDept dateApex) apexToken s1).2 in
  let s3 := (fetchLoadEntry (J:=J) w (trucksEndpoint subDept dateLE) tok s2).2 in
  (fetchApex w (posEndpoint subDept dateApex) apexToken s0).1 = Return pos →
  (fetchApex w (ancillaryEndpoint subDept dateApex) apexToken s1).1 = Return ancillary →
  (fetchLoadEntry (J:=J) w (trucksEndpoint subDept dateLE) tok s2).1 = Throw e →
  (status e = Some 401 → scanOne w subDept apexToken tok s = (Throw e, s3)) ∧
  (status e ≠ Some 401 →
     scanOne w subDept apexToken tok s
     = reconcile w subDept tok (aggregate (as_ancillary ancillary)).1
         (aggregate (as_ancillary ancillary)).2 [] (as_pos pos)
         (with_log (trucksWarning e) s3) ∧
     logs (with_log (trucksWarning e) s3) = logs s3 ++ [trucksWarning e] ∧
     ∀ po, checkoutIDOf (indexTrucks []) po = None).
Proof.
  intros dateApex dateLE s0 s1 s2 s3 Hpos Hanc Htrucks.
  assert (scanOne w subDept apexToken tok s
          = if bool_decide (status e = Some 401) then (Throw e, s3)
            else reconcile w subDept tok (aggregate (as_ancillary ancillary)).1
                   (aggregate (as_ancillary ancillary)).2 [] (as_pos pos)
                   (with_log (trucksWarning e) s3)) as Hrun.
  { unfold scanOne, todayApex, todayLoadEntry.
    rewrite (bind_run (Clock.todayApex <$> newDate w)).
    change ((Clock.todayApex <$> newDate w) s) with (Return (A:=string) dateApex, s).
    cbv beta iota.
    rewrite (bind_run (Clock.todayLoadEntry <$> newDate w)).
    change ((Clock.todayLoadEntry <$> newDate w) s) with (Return (A:=string) dateLE, s).
    cbv beta iota.
    rewrite (bind_run (log _)). unfold log at 1. cbv beta iota. fold s0.
    rewrite (bind_run (fetchApex w _ _)).
    rewrite (surjective_pairing (fetchApex w _ _ s0)), Hpos.
    rewrite (bind_run (log _)). unfold log at 1. cbv beta iota. fold s1.
    rewrite (bind_run (fetchApex w _ _)).
    rewrite (surjective_pairing (fetchApex w _ _ s1)), Hanc.
    destruct (aggregate (as_ancillary ancillary)) as [rb cb] eqn:Hagg.
    rewrite (bind_run (log _)). unfold log at 1. cbv beta iota. fold s2.
    rewrite (bind_run (fetchTruckSummaries w _ _ _)).
    unfold fetchTruckSummaries, try_catch, fmap at 1, M_fmap at 1.
    rewrite (surjective_pairing (fetchLoadEntry w _ _ s2)), Htrucks. fold s3.
    cbn [fst snd]. case_bool_decide; [done|].
    rewrite (bind_run (log _)). by unfold log at 1. }
  split.
  - intros H401. by rewrite Hrun, bool_decide_eq_true_2.
  - intros Hother. rewrite Hrun, bool_decide_eq_false_2 by done.
    split; [done|]. split; [done|]. intros po. unfold checkoutIDOf, indexTrucks.
    cbn [fold_left]. by rewrite lookup_empty.
Qed.

End TruckFetch.

(** With the truck source down (503) the scan of sub-department 85 still
    returns: P1 is over, nothing can be voided, the alert goes out. *)
Lemma truck_fetch_witness :
  (scanOne Fixture.trucks_down 85 "apex-token" "le-token" init).1
  = Return ([Result.mk 85 "P1" "T1" "ACME" 5 7 OVER],
            [Action.mk over_no_wallet "P1" "T1" "ACME" 5 7 None
               (Clock.mkDate 1700000003000)]).
Proof.
  exact (f_equal fst
    (proj1 (proj2 (truck_fetch_failure_tolerated Fixture.trucks_down (J:=Fixture.doc)
                     85 "apex-token" "le-token" init (Fixture.Pos [Fixture.P1])
                     (Fixture.Items [Fixture.restack7])
                     (Error "LE API 503: truckSummaries/85/2023-11-14/")
                     eq_refl eq_refl eq_refl) ltac:(discriminate)))).
Defined.

(** ** Fee names and quantities *)

Section FeeNames.
Import Js.







(** *** Reading a quantity *)



















End FeeNames.



(** ** Carrier *)

Section Carrier.

Lemma named_truthy o : named o = Js.truthy_field o.
Proof. destruct o as [[|c s]|]; reflexivity. Qed.

Lemma truthy_field_eq o p :
  p ≠ EmptyString → Js.truthy_field o = Some p ↔ o = Some p.
Proof.
  intros Hp. destruct o as [[|c s]|]; simpl; split; intros H; simplify_eq; done.
Qed.

Lemma same_number_item_of po item :
  same_number po item = item_of (poNumberOf po) item.
Proof.
  unfold same_number, item_of, poNumberOf. rewrite named_truthy.
  destruct (PO.poNumber po) as [[|c p]|]; cbn [Js.truthy_field Js.truthy_string Js.or_empty
                                               default].
  - symmetry. apply bool_decide_eq_false. by destruct (Ancillary.pO_Number item) as [[|a q]|].
  - destruct (Ancillary.pO_Number item) as [q|]; [|done].
    apply bool_decide_ext. rewrite truthy_field_eq by done. naive_solver.
  - symmetry. apply bool_decide_eq_false. by destruct (Ancillary.pO_Number item) as [[|a q]|].
Qed.

Lemma same_truck_matched po t :
  same_truck po t = bool_decide (Js.truthy_field (Truck.truckID t) = Some (truckIdOf po)).
Proof.
  unfold same_truck, truckIdOf. rewrite named_truthy.
  destruct (PO.truckId po) as [[|c p]|]; cbn [Js.truthy_field Js.truthy_string Js.or_empty
                                             default].
  - symmetry. apply bool_decide_eq_false. by destruct (Truck.truckID t) as [[|a q]|].
  - destruct (Truck.truckID t) as [q|]; [|done].
    apply bool_decide_ext. rewrite truthy_field_eq by done. naive_solver.
  - symmetry. apply bool_decide_eq_false. by destruct (Truck.truckID t) as [[|a q]|].
Qed.

Lemma carriers_named_spec ancillary po :
  carriers_named ancillary po = omap (item_carrier (poNumberOf po)) ancillary.
Proof.
  unfold carriers_named. induction ancillary as [|item l IH]; [done|].
  cbn [omap list_omap]. rewrite IH. unfold item_carrier at 2.
  by rewrite same_number_item_of, named_truthy.
Qed.

Lemma filter_same_truck trucks po :
  List.filter (same_truck po) trucks
  = List.filter (λ t, bool_decide (Js.truthy_field (Truck.truckID t) = Some (truckIdOf po)))
      trucks.
Proof.
  induction trucks as [|t l IH]; [done|]. cbn [List.filter].
  by rewrite same_truck_matched, IH.
Qed.

Lemma carrier_by_precedence_spec ancillary trucks po :
  carrier_by_precedence ancillary trucks po = Spec.carrier ancillary trucks po.
Proof.
  unfold carrier_by_precedence, Spec.carrier, ancillaryCarrier, matchedTruck.
  rewrite carriers_named_spec, filter_same_truck.
  destruct (last (omap _ ancillary)); [done|].
  destruct (last (List.filter _ trucks)) as [t|]; [|done].
  rewrite named_truthy. by destruct (Truck.carrierName t) as [[|c s]|].
Qed.

Lemma filter_same_truck_id trucks po id :
  PO.truckId po = Some id → id ≠ EmptyString →
  List.filter (same_truck po) trucks
  = List.filter (λ t, bool_decide (Truck.truckID t = Some id)) trucks.
Proof.
  intros Hid Hne. induction trucks as [|t' l IH]; [done|]. cbn [List.filter].
  rewrite IH. unfold same_truck. rewrite Hid. cbn [named].
  rewrite bool_decide_eq_false_2 by done.
  destruct (Truck.truckID t') as [b|].
  - assert (bool_decide (b = id) = bool_decide (Some b = Some id)) as ->; [|done].
    apply bool_decide_ext. naive_solver.
  - by rewrite bool_decide_eq_false_2.
Qed.

Lemma filter_same_truck_none trucks po :
  Forall (λ t, Truck.truckID t ≠ PO.truckId po ∨ PO.truckId po = Some EmptyString
               ∨ PO.truckId po = None) trucks →
  List.filter (same_truck po) trucks = [].
Proof.
  induction trucks as [|t' l IH]; [done|]. intros [Ht Hl]%Forall_cons.
  cbn [List.filter]. rewrite (IH Hl).
  assert (same_truck po t' = false) as ->; [|done].
  unfold same_truck. destruct (PO.truckId po) as [[|a p']|]; cbn [named]; try done.
  rewrite bool_decide_eq_false_2 by done.
  destruct (Truck.truckID t') as [b|]; [|done].
  apply bool_decide_eq_false. intros ->. by destruct Ht as [Ht|[Ht|Ht]].
Qed.

(** C9. The carrier of a PO is the carrier name of the last ancillary item
    that carries the PO's number and a carrier name; failing that, the
    [carrierName] of the truck summary whose truck ID is the PO's; failing
    that, the empty string; and it is the [carrier] field of the entry the
    step pushes for the PO. Numbers, truck IDs and names count when they
    are there and not empty. *)
Theorem carrier_precedence (w : world) (ancillary : list Ancillary.t)
    (trucks : list Truck.t) (po : PO.t) :
  carrierOf (aggregate ancillary).2 (indexTrucks trucks) po
  = carrier_by_precedence ancillary trucks po ∧
  (∀ c, last (carriers_named ancillary po) = Some c →
     carrierOf (aggregate ancillary).2 (indexTrucks trucks) po = c) ∧
  (∀ id t, carriers_named ancillary po = [] →
     PO.truckId po = Some id → id ≠ EmptyString →
     last (List.filter (λ t, bool_decide (Truck.truckID t = Some id)) trucks) = Some t →
     carrierOf (aggregate ancillary).2 (indexTrucks trucks) po
     = default EmptyString (Truck.carrierName t)) ∧
  (carriers_named ancillary po = [] →
     Forall (λ t, Truck.truckID t ≠ PO.truckId po ∨ PO.truckId po = Some EmptyString
                  ∨ PO.truckId po = None) trucks →
     carrierOf (aggregate ancillary).2 (indexTrucks trucks) po = EmptyString) ∧
  (∀ subDept tok s r acts s',
     scanPO (aggregate ancillary).1 (aggregate ancillary).2 (indexTrucks trucks) w
       subDept tok po s = (Return (r, acts), s') →
     Result.carrier r = carrier_by_precedence ancillary trucks po).
Proof.
  assert (carrierOf (aggregate ancillary).2 (indexTrucks trucks) po
          = carrier_by_precedence ancillary trucks po) as Hc.
  { by rewrite carrierOf_spec, carrier_by_precedence_spec. }
  split; [exact Hc|]. split; [|split; [|split]].
  - intros c Hlast. rewrite Hc. unfold carrier_by_precedence. by rewrite Hlast.
  - intros id t Hnone Hid Hne Hlast. rewrite Hc. unfold carrier_by_precedence.
    rewrite Hnone. cbn [last].
    rewrite (filter_same_truck_id _ _ id), Hlast by done.
    by destruct (Truck.carrierName t) as [[|a s]|].
  - intros Hnone Hall. rewrite Hc. unfold carrier_by_precedence.
    rewrite Hnone. cbn [last].
    by rewrite filter_same_truck_none.
  - intros subDept tok s r acts s'. rewrite scanPO_run.
    destruct (decide_status _ _ _ w tok po s) as [[[st acts0]|e] s0]; [|done].
    intros [= <- <- <-]. cbn [Result.carrier mkResult]. exact Hc.
Qed.

End Carrier.

(** P1 takes ACME from its ancillary item although truck T1 names Roadway;
    without an item that names a carrier it takes Roadway from truck T1,
    matched by its truck ID; P2, whose truck T2 names none, has the empty
    string. *)
Lemma carrier_precedence_witness :
  carrierOf (aggregate [Fixture.restack7; Fixture.upstack3]).2
            (indexTrucks [Fixture.T1; Fixture.T2]) Fixture.P1 = "ACME" ∧
  carrierOf (aggregate [Fixture.upstack3]).2
            (indexTrucks [Fixture.T2; Fixture.T1]) Fixture.P1 = "Roadway" ∧
  carrierOf (aggregate [Fixture.restack7; Fixture.upstack3]).2
            (indexTrucks [Fixture.T1; Fixture.T2]) Fixture.P2 = EmptyString.
Proof.
  split; [|split].
  - exact (proj1 (carrier_precedence (Fixture.scripted [])
                    [Fixture.restack7; Fixture.upstack3] [Fixture.T1; Fixture.T2]
                    Fixture.P1)).
  - exact (proj1 (proj2 (proj2 (carrier_precedence (Fixture.scripted [])
                                  [Fixture.upstack3] [Fixture.T2; Fixture.T1] Fixture.P1)))
             "T1"%string Fixture.T1 eq_refl eq_refl ltac:(discriminate) eq_refl).
  - exact (proj1 (carrier_precedence (Fixture.scripted [])
                    [Fixture.restack7; Fixture.upstack3] [Fixture.T1; Fixture.T2]
                    Fixture.P2)).
Defined.

(** * Further properties of the scanner *)

(** ** What the loop over the POs asks of the network *)

Section LoopRequests.
Import Ledger.
Context (w : world) (rb : gmap string Z) (cb : gmap string string)
        (lb : gmap string Truck.t).

Lemma scanPO_grows subDept tok po : stepwise grows (scanPO rb cb lb w subDept tok po).
Proof.
  apply (stepwise_scanPO w grows (PreOrder0:=grows_preorder)).
  - intros line s0. by split.
  - intros p s0. split; cbn [voidedCheckoutIDs alertedOverPOs with_alerted]; set_solver.
  - apply grows_void.
Qed.

Lemma scanPOs_grows subDept tok pos : stepwise grows (scanPOs rb cb lb w subDept tok pos).
Proof.
  apply (stepwise_scanPOs w grows (PreOrder0:=grows_preorder)).
  - intros line s0. by split.
  - intros p s0. split; cbn [voidedCheckoutIDs alertedOverPOs with_alerted]; set_solver.
  - apply grows_void.
Qed.

(** One step issues no request, or the one void call of an over PO whose
    checkout ID is not yet voided. *)
Lemma scanPO_exchanges subDept tok po s :
  exchanges (scanPO rb cb lb w subDept tok po s).2 = exchanges s ∨
  ∃ id o, isOver rb po = true ∧ checkoutIDOf lb po = Some id ∧ (id ∉ voidedCheckoutIDs s) ∧
          exchanges (scanPO rb cb lb w subDept tok po s).2
          = (void_request id tok, o) :: exchanges s.
Proof.
  rewrite scanPO_run. unfold decide_status.
  destruct (isOver rb po) eqn:Hover; [|by left].
  destruct (checkoutIDOf lb po) as [id|] eqn:Hid.
  - rewrite voidOnce_run. case_bool_decide as Hin; [by left|]. cbv zeta.
    right. exists id, (net w (length (exchanges s)) (void_request id tok)).
    split; [done|]. split; [done|]. split; [done|].
    destruct (net w _ _) as [msg|r]; [done|].
    destruct (res_status r =? 401); [done|]. by destruct (res_ok r).
  - rewrite alertOnce_run. left. by case_bool_decide.
Qed.

Lemma scanPOs_exchanges subDept tok pos s :
  ∃ new, exchanges (scanPOs rb cb lb w subDept tok pos s).2 = new ++ exchanges s ∧
         (length new ≤ length pos)%nat ∧
         Forall (λ x, ∃ po id, po ∈ pos ∧ isOver rb po = true ∧
                        checkoutIDOf lb po = Some id ∧ (id ∉ voidedCheckoutIDs s) ∧
                        x.1 = void_request id tok) new.
Proof.
  revert s. induction pos as [|po rest IH]; intros s.
  { exists []. by split. }
  rewrite scanPOs_cons.
  pose proof (scanPO_exchanges subDept tok po s) as Hpo.
  pose proof (scanPO_grows subDept tok po s) as [Hsub _].
  destruct (scanPO rb cb lb w subDept tok po s) as [[[r acts]|e] s1]; cbn [snd] in *.
  - destruct (IH s1) as (new & Hnew & Hlen & Hall).
    assert (exchanges (match scanPOs rb cb lb w subDept tok rest s1 with
                       | (Return (poData, actions), s2) =>
                           (Return (r :: poData, acts ++ actions), s2)
                       | (Throw e, s2) => (Throw e, s2)
                       end).2 = new ++ exchanges s1) as Hrun.
    { by destruct (scanPOs rb cb lb w subDept tok rest s1) as [[[pd a]|e] s2]. }
    rewrite Hrun. clear Hrun Hnew.
    assert (Forall (λ x, ∃ po0 id, po0 ∈ po :: rest ∧ isOver rb po0 = true ∧
                           checkoutIDOf lb po0 = Some id ∧ (id ∉ voidedCheckoutIDs s) ∧
                           x.1 = void_request id tok) new) as Hall'.
    { eapply Forall_impl; [exact Hall|]. intros x (po0 & id & Hin & Ho & Hc & Hv & Hx).
      exists po0, id. split; [apply elem_of_cons; by right|].
      split; [done|]. split; [done|]. split; [|done].
      intros Hin'. by apply Hv, Hsub. }
    destruct Hpo as [->|(id & o & Hover & Hid & Hnot & ->)].
    + exists new. split; [done|]. split; [cbn [length]; lia|done].
    + exists (new ++ [(void_request id tok, o)]).
      split; [by rewrite <- app_assoc|]. split; [rewrite length_app; cbn [length]; lia|].
      apply Forall_app. split; [done|]. apply Forall_singleton.
      exists po, id. split; [apply elem_of_cons; by left|done].
  - destruct Hpo as [->|(id & o & Hover & Hid & Hnot & ->)].
    + exists []. split; [done|]. split; [cbn [length]; lia|done].
    + exists [(void_request id tok, o)]. split; [done|]. split; [cbn [length]; lia|].
      apply Forall_singleton. exists po, id. split; [apply elem_of_cons; by left|done].
Qed.

(** X1. Whatever the network answers and whether the loop returns or throws:
    the history only gains entries, at most one per PO, and each is the
    void call, with the Load Entry token, of the checkout ID of an over PO
    that was not voided before. *)
Theorem voids_only_for_over_POs (subDept : Z) (tok : string) (pos : list PO.t) (s : state) :
  ∃ new, exchanges (scanPOs rb cb lb w subDept tok pos s).2 = new ++ exchanges s ∧
         (length new ≤ length pos)%nat ∧
         Forall (λ x, ∃ po id, po ∈ pos ∧ isOver rb po = true ∧
                        checkoutIDOf lb po = Some id ∧ (id ∉ voidedCheckoutIDs s) ∧
                        x.1 = void_request id tok) new.
Proof. apply scanPOs_exchanges. Qed.

End LoopRequests.

(** ** [voidedCheckoutIDs] against the history *)

Section Backed.
Import Ledger.
Context (w : world).

Lemma keeps_backed_preorder : PreOrder keeps_backed.
Proof.
  split.
  - by intros s H.
  - intros s1 s2 s3 H1 H2 H. by apply H2, H1.
Qed.

Lemma backed_exchange x s :
  backed s → backed (record_exchange x s).
Proof.
  intros Hs id Hin. specialize (Hs id Hin).
  cbn [exchanges record_exchange]. unfold void_successes in *. rewrite count_cons. lia.
Qed.

Lemma backed_voided id tok o s :
  answered_ok (void_request id tok, o) = true →
  backed s → backed (with_voided id (record_exchange (void_request id tok, o) s)).
Proof.
  intros Hok Hs id' Hin.
  cbn [exchanges voidedCheckoutIDs record_exchange with_voided] in *.
  unfold void_successes in *. rewrite count_cons, is_void_of_void.
  case_bool_decide as E.
  - rewrite Hok. cbn [andb]. lia.
  - apply elem_of_union in Hin as [Hin%elem_of_singleton|Hin]; [done|].
    specialize (Hs id' Hin). unfold void_successes in Hs. cbn [andb]. lia.
Qed.

Lemma keeps_backed_void rb cb lb tok po id :
  stepwise keeps_backed (voidOnce rb cb lb w tok po id).
Proof.
  intros s Hs. rewrite voidOnce_run. case_bool_decide as Hid; [done|]. cbv zeta.
  destruct (net w _ _) as [msg|r] eqn:Hnet; cbn [snd].
  { by apply backed_exchange. }
  destruct (res_status r =? 401) eqn:E401; cbn [snd].
  { by apply backed_exchange. }
  destruct (res_ok r) eqn:Eok; cbn [snd].
  - by apply backed_voided.
  - by apply backed_exchange.
Qed.

Lemma run_cycles_backed `{!Json J, !Payload J} cs s :
  backed s → backed (run_cycles w cs s).2.
Proof.
  apply (run_cycles_related w keeps_backed (PreOrder0:=keeps_backed_preorder)).
  - intros line s0 H. exact H.
  - intros p s0 H. exact H.
  - intros url tok o s0 H. by apply backed_exchange.
  - apply keeps_backed_void.
Qed.

(** X2. Over every sequence of cycles run one after the other from the
    initial state (each call of [scan] settled before the next starts), a
    checkout ID is in [voidedCheckoutIDs] exactly when the history holds a
    void call for it that was answered 2xx, and then it holds exactly
    one. *)
Theorem voided_iff_void_succeeded {J : Type} `{!Json J, !Payload J}
    (cs : list cycle) (id : string) :
  id ∈ voidedCheckoutIDs (run_cycles w cs init).2
  ↔ void_successes id (exchanges (run_cycles w cs init).2) = 1%nat.
Proof.
  pose proof (run_cycles_consistent w cs init consistent_init id) as [Hin Hq].
  apply quiet_at_most_one in Hq.
  assert (backed init) as H0 by (intros x Hx; by apply not_elem_of_empty in Hx).
  pose proof (run_cycles_backed cs init H0 id) as Hb.
  split.
  - intros H. specialize (Hb H). lia.
  - intros H. apply Hin. lia.
Qed.

End Backed.


(** ** A scan of one sub-department, step by step *)

Section ScanOneRun.
Context (w : world) {J : Type} `{!Json J, !Payload J}.

Lemma scanOne_run subDept apexToken tok s :
  scanOne w subDept apexToken tok s =
  let dateApex := Clock.todayApex (wallClock w (length (exchanges s))) in
  let dateLE := Clock.todayLoadEntry (wallClock w (length (exchanges s))) in
  let s0 := with_log (sd subDept +:+ "Fetching POs...") s in
  let o1 := net w (length (exchanges s)) (posRequest subDept dateApex apexToken) in
  let s1 := record_exchange (posRequest subDept dateApex apexToken, o1) s0 in
  match settle "Apex API" "Apex auth expired (401)" (posEndpoint subDept dateApex) o1 with
  | Throw e => (Throw e, s1)
  | Return pos =>
      let s1' := with_log (sd subDept +:+ "Fetching ancillary items...") s1 in
      let o2 := net w (S (length (exchanges s)))
                  (ancillaryRequest subDept dateApex apexToken) in
      let s2 := record_exchange (ancillaryRequest subDept dateApex apexToken, o2) s1' in
      match settle "Apex API" "Apex auth expired (401)"
              (ancillaryEndpoint subDept dateApex) o2 with
      | Throw e => (Throw e, s2)
      | Return ancillary =>
          let s2' := with_log (sd subDept +:+ "Fetching Load Entry truck summaries...") s2 in
          match fetchTruckSummaries w subDept dateLE tok s2' with
          | (Throw e, s3) => (Throw e, s3)
          | (Return leTrucks, s3) =>
              reconcile w subDept tok (aggregate (as_ancillary ancillary)).1
                (aggregate (as_ancillary ancillary)).2 leTrucks (as_pos pos) s3
          end
      end
  end.
Proof.
  unfold scanOne, todayApex, todayLoadEntry. cbv zeta.
  rewrite (bind_run (Clock.todayApex <$> newDate w)).
  change ((Clock.todayApex <$> newDate w) s)
    with (Return (A:=string) (Clock.todayApex (wallClock w (length (exchanges s)))), s).
  cbv beta iota.
  rewrite (bind_run (Clock.todayLoadEntry <$> newDate w)).
  change ((Clock.todayLoadEntry <$> newDate w) s)
    with (Return (A:=string) (Clock.todayLoadEntry (wallClock w (length (exchanges s)))), s).
  cbv beta iota.
  rewrite (bind_run (log _)). unfold log at 1. cbv beta iota.
  rewrite (bind_run (fetchApex w _ _)), fetchApex_run.
  cbn [exchanges with_log]. unfold posRequest.
  destruct (settle _ _ _ _) as [pos|e]; [|done].
  rewrite (bind_run (log _)). unfold log at 1. cbv beta iota.
  rewrite (bind_run (fetchApex w _ _)), fetchApex_run.
  cbn [exchanges with_log record_exchange length]. unfold ancillaryRequest.
  destruct (settle _ _ _ _) as [ancillary|e]; [|done].
  destruct (aggregate (as_ancillary ancillary)) as [rb cb].
  rewrite (bind_run (log _)). unfold log at 1. cbv beta iota.
  rewrite (bind_run (fetchTruckSummaries w _ _ _)). cbn [fst snd].
  by destruct (fetchTruckSummaries w _ _ _ _) as [[leTrucks|e] s3].
Qed.

End ScanOneRun.

(** ** Properties of the actions a completed cycle returns

    A relation [Q s s' actions] between the state before, the state after
    and the actions returned that holds of each step and composes holds of
    every cycle that returns. *)

Section Returned.
Context (w : world) (Q : state → state → list Action.t → Prop).
Hypothesis Q_nil : ∀ s, Q s s [].
Hypothesis Q_app : ∀ s s1 s2 a1 a2, Q s s1 a1 → Q s1 s2 a2 → Q s s2 (a1 ++ a2).
Hypothesis Q_log : ∀ line s, Q s (with_log line s) [].
Hypothesis Q_get : ∀ url tok o s, Q s (record_exchange (mkRequest GET url tok, o) s) [].
Hypothesis Q_scanPO : ∀ rb cb lb subDept tok po s r acts s',
  scanPO rb cb lb w subDept tok po s = (Return (r, acts), s') → Q s s' acts.

Lemma returned_scanPOs rb cb lb subDept tok pos s poData actions s' :
  scanPOs rb cb lb w subDept tok pos s = (Return (poData, actions), s') → Q s s' actions.
Proof.
  revert s poData actions. induction pos as [|po rest IH]; intros s poData actions.
  { intros [= <- <- <-]. apply Q_nil. }
  rewrite scanPOs_cons.
  destruct (scanPO rb cb lb w subDept tok po s) as [[[r acts]|e] s1] eqn:Hpo; [|done].
  destruct (scanPOs rb cb lb w subDept tok rest s1) as [[[pd acts']|e] s2] eqn:Hrest; [|done].
  intros [= <- <- <-]. eapply Q_app; [by eapply Q_scanPO|by eapply IH].
Qed.

Context {J : Type} `{!Json J, !Payload J}.

Lemma returned_reconcile subDept tok rb cb leTrucks pos s poData actions s' :
  reconcile w subDept tok rb cb leTrucks pos s = (Return (poData, actions), s') →
  Q s s' actions.
Proof.
  unfold reconcile. rewrite (bind_run (scanPOs _ _ _ w _ _ _)).
  destruct (scanPOs _ _ _ w subDept tok pos s) as [[[pd acts]|e] s1] eqn:Hloop; [|done].
  intros [= <- <- <-]. apply returned_scanPOs in Hloop.
  rewrite <- (app_nil_r acts). eapply Q_app; [exact Hloop|apply Q_log].
Qed.

Lemma returned_fetchTruckSummaries subDept dateLE tok s leTrucks s' :
  fetchTruckSummaries w subDept dateLE tok s = (Return leTrucks, s') → Q s s' [].
Proof.
  rewrite fetchTruckSummaries_run. unfold trucksRequest.
  destruct (settle _ _ _ _) as [j|e].
  - intros [= <- <-]. apply Q_get.
  - case_bool_decide; [done|]. intros [= <- <-].
    eapply (Q_app _ _ _ [] []); [apply Q_get|apply Q_log].
Qed.

Lemma returned_scanOne subDept apexToken tok s poData actions s' :
  scanOne w subDept apexToken tok s = (Return (poData, actions), s') → Q s s' actions.
Proof.
  rewrite scanOne_run. cbv zeta. unfold posRequest, ancillaryRequest.
  destruct (settle _ _ _ _) as [pos|e]; [|done].
  destruct (settle _ _ _ _) as [ancillary|e]; [|done].
  destruct (fetchTruckSummaries w _ _ _ _) as [[leTrucks|e] s3] eqn:Htrucks; [|done].
  intros Hrec. apply returned_reconcile in Hrec. apply returned_fetchTruckSummaries in Htrucks.
  eapply (Q_app _ _ _ [] actions); [apply Q_log|].
  eapply (Q_app _ _ _ [] actions); [apply Q_get|].
  eapply (Q_app _ _ _ [] actions); [apply Q_log|].
  eapply (Q_app _ _ _ [] actions); [apply Q_get|].
  eapply (Q_app _ _ _ [] actions); [apply Q_log|].
  eapply (Q_app _ _ _ [] actions); [exact Htrucks|exact Hrec].
Qed.

Lemma returned_scanEach deptList apexToken tok s poData actions s' :
  scanEach w deptList apexToken tok s = (Return (poData, actions), s') → Q s s' actions.
Proof.
  revert s poData actions. induction deptList as [|d rest IH]; intros s poData actions.
  { intros [= <- <- <-]. apply Q_nil. }
  cbn [scanEach]. rewrite (bind_run (scanOne w _ _ _)).
  destruct (scanOne w d apexToken tok s) as [[[pd acts]|e] s1] eqn:Hone; [|done].
  rewrite (bind_run (scanEach w _ _ _)).
  destruct (scanEach w rest apexToken tok s1) as [[[pd' acts']|e] s2] eqn:Hrest; [|done].
  intros [= <- <- <-].
  eapply Q_app; [by eapply returned_scanOne|by eapply IH].
Qed.

Lemma returned_cycle c s poData actions s' :
  run_cycle w c s = (Return (poData, actions), s') → Q s s' actions.
Proof. unfold run_cycle, scan. apply returned_scanEach. Qed.

End Returned.

(** ** Cancelled actions against [voidedCheckoutIDs] *)

Section Cancels.
Import Ledger.
Context (w : world).

Lemma cancels_match_same s s' :
  voidedCheckoutIDs s = voidedCheckoutIDs s' → cancels_match s s' [].
Proof.
  intros Heq. split; [by rewrite Heq|]. intros p.
  rewrite bool_decide_eq_false_2; [done|]. rewrite Heq. tauto.
Qed.

Lemma cancels_match_app s s1 s2 a1 a2 :
  cancels_match s s1 a1 → cancels_match s1 s2 a2 → cancels_match s s2 (a1 ++ a2).
Proof.
  intros [Hsub1 H1] [Hsub2 H2]. split; [by etrans|]. intros p.
  unfold cancels_for in *. rewrite count_app, H1, H2.
  pose proof (proj1 (elem_of_subseteq _ _) Hsub1 p) as I1.
  pose proof (proj1 (elem_of_subseteq _ _) Hsub2 p) as I2.
  destruct (decide (p ∈ voidedCheckoutIDs s)), (decide (p ∈ voidedCheckoutIDs s1)),
    (decide (p ∈ voidedCheckoutIDs s2)); repeat case_bool_decide; try done; tauto.
Qed.

Lemma scanPO_cancels_match rb cb lb subDept tok po s r acts s' :
  scanPO rb cb lb w subDept tok po s = (Return (r, acts), s') →
  cancels_match s s' acts ∧ Forall (λ a, well_formed a = true) acts.
Proof.
  rewrite scanPO_run. unfold decide_status.
  destruct (isOver rb po) eqn:Hover.
  2:{ intros [= <- <- <-]. split; [by apply cancels_match_same|done]. }
  destruct (checkoutIDOf lb po) as [id|] eqn:Hid.
  - rewrite voidOnce_run. case_bool_decide as Hin.
    { intros [= <- <- <-]. split; [by apply cancels_match_same|done]. }
    cbv zeta. destruct (net w _ _) as [msg|r0].
    { intros [= <- <- <-]. split; [by apply cancels_match_same|done]. }
    destruct (res_status r0 =? 401); [done|].
    destruct (res_ok r0).
    2:{ intros [= <- <- <-]. split; [by apply cancels_match_same|done]. }
    intros [= <- <- <-]. split; [|by apply Forall_singleton].
    split; [cbn [voidedCheckoutIDs with_log with_voided record_exchange];
            apply union_subseteq_r|].
    intros id'. unfold cancels_for. rewrite count_cons.
    cbn [Action.type Action.driverWalletCheckoutID mkAction
         voidedCheckoutIDs with_log with_voided record_exchange].
    rewrite (bool_decide_eq_true_2 (cancelled = cancelled)) by done. cbn [andb].
    unfold count. cbn [List.filter length].
    destruct (decide (id' = id)) as [->|Hne].
    + rewrite (bool_decide_eq_true_2 (Some id = Some id)) by done.
      rewrite bool_decide_eq_true_2; [done|].
      split; [by apply elem_of_union_l, elem_of_singleton|done].
    + rewrite (bool_decide_eq_false_2 (Some id = Some id')) by congruence.
      rewrite bool_decide_eq_false_2; [done|].
      intros [[H1%elem_of_singleton|H1]%elem_of_union H2]; done.
  - rewrite alertOnce_run. case_bool_decide.
    + intros [= <- <- <-]. split; [by apply cancels_match_same|done].
    + intros [= <- <- <-]. split; [|by apply Forall_singleton].
      split; [done|]. intros id'. unfold cancels_for. rewrite count_cons.
      cbn [Action.type mkAction].
      rewrite (bool_decide_eq_false_2 (over_no_wallet = cancelled)) by done.
      cbn [andb]. unfold count. cbn [List.filter length].
      cbn [voidedCheckoutIDs with_log with_alerted].
      rewrite bool_decide_eq_false_2; [done|tauto].
Qed.

(** X3. A cycle that returns hands its caller exactly one cancelled action for
    each checkout ID it added to [voidedCheckoutIDs] and none for any other
    ID; each cancelled action carries its checkout ID and each
    over-no-wallet action carries none. *)
Theorem cancelled_actions_match_voids {J : Type} `{!Json J, !Payload J}
    (c : cycle) (s s' : state) (poData : list Result.t) (actions : list Action.t) :
  run_cycle w c s = (Return (poData, actions), s') →
  cancels_match s s' actions ∧ Forall (λ a, well_formed a = true) actions.
Proof.
  apply (returned_cycle w
           (λ s s' acts, cancels_match s s' acts ∧ Forall (λ a, well_formed a = true) acts)).
  - intros s0. split; [by apply cancels_match_same|done].
  - intros s0 s1 s2 a1 a2 [H1 F1] [H2 F2].
    split; [by eapply cancels_match_app|by apply Forall_app].
  - intros line s0. split; [by apply cancels_match_same|done].
  - intros url tok o s0. split; [by apply cancels_match_same|done].
  - intros rb cb lb subDept tok po s0 r acts s1. apply scanPO_cancels_match.
Qed.

End Cancels.

(** In the first cycle of [void_succeeds] the one action returned is the
    cancellation of CO123. *)
Lemma cancelled_actions_witness :
  Ledger.cancels_for "CO123"
    (delivered (run_cycle Fixture.void_succeeds (J:=Fixture.doc) Fixture.sub85 init).1)
  = 1%nat.
Proof.
  assert (run_cycle Fixture.void_succeeds (J:=Fixture.doc) Fixture.sub85 init
          = (Return ([Result.mk 85 "P1" "T1" "ACME" 5 7 CANCELLED],
                     [Action.mk cancelled "P1" "T1" "ACME" 5 7 (Some "CO123")
                        (Clock.mkDate 1700000004000)]),
             (run_cycle Fixture.void_succeeds (J:=Fixture.doc) Fixture.sub85 init).2))
    as Hrun by (vm_compute; reflexivity).
  destruct (cancelled_actions_match_voids _ _ _ _ _ _ Hrun) as [[_ H] _].
  specialize (H "CO123").
  match type of H with
  | _ = if ?b then _ else _ =>
      assert (b = true) as Hb by (vm_compute; reflexivity); rewrite Hb in H
  end.
  rewrite Hrun. exact H.
Defined.


(** ** The entries of [poData] *)

Section Entries.
Import Ledger.
Context (w : world) (rb : gmap string Z) (cb : gmap string string)
        (lb : gmap string Truck.t).

Lemma scanPO_entry subDept tok po s r acts s' :
  scanPO rb cb lb w subDept tok po s = (Return (r, acts), s') →
  r = mkResult rb cb lb subDept po (Result.status r) ∧
  (Result.status r = OK ↔ isOver rb po = false) ∧
  (Result.status r = CANCELLED →
     ∃ id, checkoutIDOf lb po = Some id ∧ id ∈ voidedCheckoutIDs s').
Proof.
  rewrite scanPO_run. unfold decide_status.
  destruct (isOver rb po) eqn:Hover.
  2:{ intros [= <- <- <-]. cbn [Result.status mkResult]. done. }
  destruct (checkoutIDOf lb po) as [id|] eqn:Hid.
  - rewrite voidOnce_run. case_bool_decide as Hin.
    { intros [= <- <- <-]. cbn [Result.status mkResult].
      split; [done|]. split; [done|]. intros _. by exists id. }
    cbv zeta. destruct (net w _ _) as [msg|r0].
    { intros [= <- <- <-]. cbn [Result.status mkResult]. done. }
    destruct (res_status r0 =? 401); [done|].
    destruct (res_ok r0).
    + intros [= <- <- <-]. cbn [Result.status mkResult].
      split; [done|]. split; [done|]. intros _. exists id. split; [done|].
      cbn [voidedCheckoutIDs with_log with_voided].
      by apply elem_of_union_l, elem_of_singleton.
    + intros [= <- <- <-]. cbn [Result.status mkResult]. done.
  - rewrite alertOnce_run. case_bool_decide; intros [= <- <- <-];
      cbn [Result.status mkResult]; done.
Qed.

(** X4. A loop that returns has pushed one entry per PO, in the order of the
    POs; but for its status the entry is read off the PO and the joined
    maps alone; its status is OK exactly when the PO is not over, and
    CANCELLED only when the PO's checkout ID is in [voidedCheckoutIDs] by
    the end of the loop. *)
Theorem one_entry_per_PO (subDept : Z) (tok : string) (pos : list PO.t) (s s' : state)
    (poData : list Result.t) (actions : list Action.t) :
  scanPOs rb cb lb w subDept tok pos s = (Return (poData, actions), s') →
  Forall2 (λ po r,
             r = mkResult rb cb lb subDept po (Result.status r) ∧
             (Result.status r = OK ↔ isOver rb po = false) ∧
             (Result.status r = CANCELLED →
                ∃ id, checkoutIDOf lb po = Some id ∧ id ∈ voidedCheckoutIDs s'))
          pos poData.
Proof.
  revert s poData actions. induction pos as [|po rest IH]; intros s poData actions.
  { intros [= <- <- <-]. constructor. }
  rewrite scanPOs_cons.
  destruct (scanPO rb cb lb w subDept tok po s) as [[[r acts]|e] s1] eqn:Hpo; [|done].
  pose proof (scanPOs_grows w rb cb lb subDept tok rest s1) as [Hsub _].
  destruct (scanPOs rb cb lb w subDept tok rest s1) as [[[pd acts']|e] s2] eqn:Hrest; [|done].
  intros [= <- <- <-]. cbn [snd] in Hsub. constructor; [|by eapply IH].
  destruct (scanPO_entry _ _ _ _ _ _ _ Hpo) as (H1 & H2 & H3).
  split; [done|]. split; [done|]. intros Hc. destruct (H3 Hc) as (id & Hid & Hin).
  exists id. split; [done|]. by apply Hsub.
Qed.

End Entries.

(** P1 of the fixtures, over with checkout CO123 that the network lets
    void: one entry, CANCELLED. *)
Lemma one_entry_witness :
  Forall2 (λ po r,
             r = mkResult (aggregate [Fixture.restack7]).1 (aggregate [Fixture.restack7]).2
                   (indexTrucks [Fixture.T1]) 85 po (Result.status r) ∧
             (Result.status r = OK ↔ isOver (aggregate [Fixture.restack7]).1 po = false) ∧
             (Result.status r = CANCELLED →
                ∃ id, checkoutIDOf (indexTrucks [Fixture.T1]) po = Some id ∧
                      id ∈ voidedCheckoutIDs
                             (scanPOs (aggregate [Fixture.restack7]).1
                                (aggregate [Fixture.restack7]).2 (indexTrucks [Fixture.T1])
                                (Fixture.scripted [Fixture.answer 200 ""]) 85 "le-token"
                                [Fixture.P1] init).2))
          [Fixture.P1] [Result.mk 85 "P1" "T1" "ACME" 5 7 CANCELLED].
Proof.
  assert (scanPOs (aggregate [Fixture.restack7]).1 (aggregate [Fixture.restack7]).2
            (indexTrucks [Fixture.T1]) (Fixture.scripted [Fixture.answer 200 ""]) 85
            "le-token" [Fixture.P1] init
          = (Return ([Result.mk 85 "P1" "T1" "ACME" 5 7 CANCELLED],
                     [Action.mk cancelled "P1" "T1" "ACME" 5 7 (Some "CO123")
                        (Clock.mkDate 1700000001000)]),
             (scanPOs (aggregate [Fixture.restack7]).1 (aggregate [Fixture.restack7]).2
                (indexTrucks [Fixture.T1]) (Fixture.scripted [Fixture.answer 200 ""]) 85
                "le-token" [Fixture.P1] init).2))
    as Hrun by (vm_compute; reflexivity).
  exact (one_entry_per_PO _ _ _ _ _ _ _ _ _ _ _ Hrun).
Defined.

(** ** A second pass over the same POs *)

Section SecondPass.
Import Ledger.
Context (w : world) (rb : gmap string Z) (cb : gmap string string)
        (lb : gmap string Truck.t).

Lemma scanPO_settled subDept tok po s :
  settled rb lb s po →
  scanPO rb cb lb w subDept tok po s
  = (Return (mkResult rb cb lb subDept po (settled_status rb lb po), []), s).
Proof.
  unfold settled, settled_status. intros Hs. rewrite scanPO_run. unfold decide_status.
  destruct (isOver rb po) eqn:Hover; [|done]. specialize (Hs eq_refl).
  destruct (checkoutIDOf lb po) as [id|] eqn:Hid.
  - rewrite voidOnce_run. by rewrite bool_decide_eq_true_2.
  - rewrite alertOnce_run. by rewrite bool_decide_eq_true_2.
Qed.

Lemma scanPOs_settled subDept tok pos s :
  Forall (settled rb lb s) pos →
  scanPOs rb cb lb w subDept tok pos s
  = (Return (map (λ po, mkResult rb cb lb subDept po (settled_status rb lb po)) pos, []), s).
Proof.
  induction 1 as [|po rest Hpo Hrest IH]; [done|].
  rewrite scanPOs_cons, scanPO_settled by done. by rewrite IH.
Qed.

(** After a loop that returns, every over PO without a checkout ID has its
    number in [alertedOverPOs]. *)
Lemma scanPOs_alerted subDept tok pos s poData actions s' :
  scanPOs rb cb lb w subDept tok pos s = (Return (poData, actions), s') →
  Forall (λ po, needs_alert rb lb po = true → poNumberOf po ∈ alertedOverPOs s') pos.
Proof.
  revert s poData actions. induction pos as [|po rest IH]; intros s poData actions.
  { intros _. constructor. }
  rewrite scanPOs_cons.
  destruct (scanPO rb cb lb w subDept tok po s) as [[[r acts]|e] s1] eqn:Hpo; [|done].
  pose proof (scanPOs_grows w rb cb lb subDept tok rest s1) as [_ Hsub].
  destruct (scanPOs rb cb lb w subDept tok rest s1) as [[[pd acts']|e] s2] eqn:Hrest; [|done].
  intros [= <- <- <-]. cbn [snd] in Hsub. constructor; [|by eapply IH].
  intros Hna. apply Hsub.
  destruct (scanPO_alerts w rb cb lb _ _ _ _ _ _ _ EmptyString Hpo) as [-> _].
  rewrite Hna. by apply elem_of_union_l, elem_of_singleton.
Qed.

(** X5. Let a pass over the POs return, and let every over PO with a checkout
    ID have that ID in [voidedCheckoutIDs] by its end (no void was left
    failed). Then a later pass over the same POs with the same joined maps,
    from that state or any state whose dedup sets have only grown, issues
    no request, pushes no action, writes no log line and changes nothing:
    it returns CANCELLED for the over POs with a checkout ID, OVER for
    those without and OK for the others. *)
Theorem second_pass_is_silent (subDept : Z) (tok : string) (pos : list PO.t) (s s' : state)
    (poData : list Result.t) (actions : list Action.t) :
  scanPOs rb cb lb w subDept tok pos s = (Return (poData, actions), s') →
  (∀ po id, po ∈ pos → isOver rb po = true → checkoutIDOf lb po = Some id →
            id ∈ voidedCheckoutIDs s') →
  ∀ s2 tok', grows s' s2 →
    scanPOs rb cb lb w subDept tok' pos s2
    = (Return (map (λ po, mkResult rb cb lb subDept po (settled_status rb lb po)) pos, []),
       s2).
Proof.
  intros Hrun Hvoided s2 tok' [Hv Ha]. apply scanPOs_settled.
  apply scanPOs_alerted in Hrun. rewrite Forall_forall in Hrun.
  apply Forall_forall. intros po Hin Hover.
  destruct (checkoutIDOf lb po) as [id|] eqn:Hid.
  - apply Hv. by eapply Hvoided.
  - apply Ha, Hrun; [done|]. by apply needs_alert_spec.
Qed.

End SecondPass.

(** P1 is voided in the first pass; the second pass, with the network
    gone, reports it CANCELLED and does nothing. *)
Lemma second_pass_witness :
  scanPOs (aggregate [Fixture.restack7]).1 (aggregate [Fixture.restack7]).2
    (indexTrucks [Fixture.T1]) (Fixture.scripted [Fixture.answer 200 ""]) 85 "le-token"
    [Fixture.P1]
    (scanPOs (aggregate [Fixture.restack7]).1 (aggregate [Fixture.restack7]).2
       (indexTrucks [Fixture.T1]) (Fixture.scripted [Fixture.answer 200 ""]) 85
       "le-token" [Fixture.P1] init).2
  = (Return ([Result.mk 85 "P1" "T1" "ACME" 5 7 CANCELLED], []),
     (scanPOs (aggregate [Fixture.restack7]).1 (aggregate [Fixture.restack7]).2
        (indexTrucks [Fixture.T1]) (Fixture.scripted [Fixture.answer 200 ""]) 85
        "le-token" [Fixture.P1] init).2).
Proof.
  assert (scanPOs (aggregate [Fixture.restack7]).1 (aggregate [Fixture.restack7]).2
            (indexTrucks [Fixture.T1]) (Fixture.scripted [Fixture.answer 200 ""]) 85
            "le-token" [Fixture.P1] init
          = (Return ([Result.mk 85 "P1" "T1" "ACME" 5 7 CANCELLED],
                     [Action.mk cancelled "P1" "T1" "ACME" 5 7 (Some "CO123")
                        (Clock.mkDate 1700000001000)]),
             (scanPOs (aggregate [Fixture.restack7]).1 (aggregate [Fixture.restack7]).2
                (indexTrucks [Fixture.T1]) (Fixture.scripted [Fixture.answer 200 ""]) 85
                "le-token" [Fixture.P1] init).2))
    as Hrun by (vm_compute; reflexivity).
  refine (second_pass_is_silent _ _ _ _ _ _ _ _ _ _ _ Hrun _ _ "le-token" _).
  - intros po id Hin%list_elem_of_singleton Hover Hid. subst po.
    assert (id = "CO123") as -> by (vm_compute in Hid; congruence).
    apply (bool_decide_unpack _). vm_compute. exact I.
  - split; reflexivity.
Defined.


(** ** POs that miss a key *)

Section MissingKeys.
Context (w : world).

Lemma filter_none {A} (f : A → bool) l : (∀ x, f x = false) → List.filter f l = [].
Proof. intros Hf. induction l as [|x l IH]; cbn [List.filter]; [done|]. by rewrite Hf. Qed.

Lemma truthy_field_None_or_empty o : Js.truthy_field o = None → Js.or_empty o = EmptyString.
Proof. by destruct o as [[|c s]|]. Qed.

Lemma truthy_field_not_empty o : Js.truthy_field o ≠ Some EmptyString.
Proof. by destruct o as [[|c s]|]. Qed.

(** X6. A PO without a PO number (absent, [null] or empty) matches no
    ancillary item: its [restacksUpstacks] is 0 whatever the items are, and
    unless its pallet counts sum to a negative number it is not over,
    so its entry is OK and nothing is done for it. *)
Theorem PO_without_number_is_not_over (ancillary : list Ancillary.t)
    (cb : gmap string string) (lb : gmap string Truck.t) (subDept : Z) (tok : string)
    (po : PO.t) (s : state) :
  Js.truthy_field (PO.poNumber po) = None →
  restacksUpstacksOf (aggregate ancillary).1 po = 0 ∧
  (aggregate ancillary).2 !! poNumberOf po = None ∧
  (0 ≤ palletsInOf po →
   scanPO (aggregate ancillary).1 cb lb w subDept tok po s
   = (Return (mkResult (aggregate ancillary).1 cb lb subDept po OK, []), s)).
Proof.
  intros Hno. apply truthy_field_None_or_empty in Hno.
  assert (∀ i, item_of EmptyString i = false) as Hitem.
  { intros i. unfold item_of. apply bool_decide_eq_false_2, truthy_field_not_empty. }
  assert (restacksUpstacksOf (aggregate ancillary).1 po = 0) as H0.
  { unfold restacksUpstacksOf, poNumberOf. rewrite Hno, restacksByPO_lookup.
    unfold restack_items. rewrite filter_none; [done|]. intros i. by rewrite Hitem. }
  split; [done|]. split.
  - unfold poNumberOf. rewrite Hno, carrierByPO_lookup. unfold ancillaryCarrier.
    replace (omap (item_carrier EmptyString) ancillary) with (@nil string); [done|].
    symmetry. clear H0. induction ancillary as [|i l IH]; [done|].
    cbn [omap list_omap]. unfold item_carrier at 1. rewrite Hitem. exact IH.
  - intros Hpos. apply scanPO_not_over. unfold isOver. rewrite H0. lia.
Qed.

(** X7. A PO whose truck ID is missing, or carried by no truck summary, has no
    checkout ID: whatever it is over by, its step issues no request, leaves
    [voidedCheckoutIDs] alone and never reports CANCELLED. *)
Theorem PO_without_truck_is_never_voided (trucks : list Truck.t) (rb : gmap string Z)
    (cb : gmap string string) (subDept : Z) (tok : string) (po : PO.t) (s : state) :
  Js.truthy_field (PO.truckId po) = None ∨
  Forall (λ t, Js.truthy_field (Truck.truckID t) ≠ Some (truckIdOf po)) trucks →
  checkoutIDOf (indexTrucks trucks) po = None ∧
  exchanges (scanPO rb cb (indexTrucks trucks) w subDept tok po s).2 = exchanges s ∧
  voidedCheckoutIDs (scanPO rb cb (indexTrucks trucks) w subDept tok po s).2
  = voidedCheckoutIDs s ∧
  ∃ st acts,
    (scanPO rb cb (indexTrucks trucks) w subDept tok po s).1
    = Return (mkResult rb cb (indexTrucks trucks) subDept po st, acts) ∧ st ≠ CANCELLED.
Proof.
  intros Hno.
  assert (checkoutIDOf (indexTrucks trucks) po = None) as Hid.
  { unfold checkoutIDOf. rewrite leByTruckID_lookup. unfold matchedTruck.
    replace (List.filter _ trucks) with (@nil Truck.t); [done|].
    symmetry. destruct Hno as [Hno|Hno].
    - apply truthy_field_None_or_empty in Hno. unfold truckIdOf. rewrite Hno.
      apply filter_none. intros t. apply bool_decide_eq_false_2, truthy_field_not_empty.
    - induction Hno as [|t l Ht Hl IH]; [done|].
      cbn [List.filter]. by rewrite bool_decide_eq_false_2. }
  split; [done|]. rewrite scanPO_run. unfold decide_status. rewrite Hid.
  destruct (isOver rb po).
  - rewrite alertOnce_run. case_bool_decide; cbn [fst snd].
    + split; [done|]. split; [done|]. by exists OVER, [].
    + split; [done|]. split; [done|]. by eexists OVER, _.
  - cbn [fst snd]. split; [done|]. split; [done|]. by exists OK, [].
Qed.

End MissingKeys.

(** A PO of sub-department 85 with no number and three pallets in, amid
    restack items: not over. *)
Lemma PO_without_number_witness :
  scanPO (aggregate [Fixture.restack7; Fixture.upstack3]).1 ∅ ∅ (Fixture.scripted []) 85
    "le-token" (PO.mk None (Some "T1") (Some 3) None None None) init
  = (Return (Result.mk 85 "" "T1" "" 3 0 OK, []), init).
Proof.
  exact (proj2 (proj2 (PO_without_number_is_not_over (Fixture.scripted [])
                         [Fixture.restack7; Fixture.upstack3] ∅ ∅ 85 "le-token"
                         (PO.mk None (Some "T1") (Some 3) None None None) init eq_refl))
           ltac:(vm_compute; discriminate)).
Defined.

(** P1 carries no truck ID here, and T1 holds a checkout: no void call. *)
Lemma PO_without_truck_witness :
  checkoutIDOf (indexTrucks [Fixture.T1]) (PO.mk (Some "P1") None (Some 5) None None None)
  = None.
Proof.
  exact (proj1 (PO_without_truck_is_never_voided (Fixture.scripted []) [Fixture.T1]
                  (aggregate [Fixture.restack7]).1 ∅ 85 "le-token"
                  (PO.mk (Some "P1") None (Some 5) None None None) init
                  (or_introl eq_refl))).
Defined.

(** ** The requests of a scan *)

Section ScanRequests.
Import Ledger.
Context (w : world) {J : Type} `{!Json J, !Payload J}.

Lemma reconcile_exchanges subDept tok rb cb leTrucks pos s :
  exchanges (reconcile w subDept tok rb cb leTrucks pos s).2
  = exchanges (scanPOs rb cb (indexTrucks leTrucks) w subDept tok pos s).2.
Proof.
  unfold reconcile. rewrite (bind_run (scanPOs _ _ _ w _ _ _)).
  by destruct (scanPOs _ _ _ w subDept tok pos s) as [[[pd acts]|e] s1].
Qed.

Lemma fetchTruckSummaries_exchanges subDept dateLE tok s :
  exchanges (fetchTruckSummaries w subDept dateLE tok s).2
  = (trucksRequest subDept dateLE tok,
     net w (length (exchanges s)) (trucksRequest subDept dateLE tok)) :: exchanges s.
Proof.
  rewrite fetchTruckSummaries_run.
  destruct (settle _ _ _ _) as [j|e]; [done|]. by case_bool_decide.
Qed.

(** X8. Whatever the network answers, a scan of one sub-department adds to the
    history, oldest first: the GET of the POs and the GET of the ancillary
    items, both with the Apex token; the GET of the truck summaries with
    the Load Entry token; then void calls with the Load Entry token and
    nothing else. Each GET goes out only after the one before it has
    returned: the GET of the POs is the only request exactly when it fails,
    and when the GET of the ancillary items fails no third one goes out.
    Void calls go out, and the scan returns, only after all three, the
    fetch of the truck summaries having returned a list (the summaries, or
    none after a failure that is tolerated). *)
Theorem scan_requests_in_order (subDept : Z) (apexToken tok : string) (s : state) :
  let dateApex := Clock.todayApex (wallClock w (length (exchanges s))) in
  let dateLE := Clock.todayLoadEntry (wallClock w (length (exchanges s))) in
  let s0 := with_log (sd subDept +:+ "Fetching POs...") s in
  let g1 := fetchApex (J:=J) w (posEndpoint subDept dateApex) apexToken s0 in
  let s1 := with_log (sd subDept +:+ "Fetching ancillary items...") g1.2 in
  let g2 := fetchApex (J:=J) w (ancillaryEndpoint subDept dateApex) apexToken s1 in
  let s2 := with_log (sd subDept +:+ "Fetching Load Entry truck summaries...") g2.2 in
  let g3 := fetchTruckSummaries w subDept dateLE tok s2 in
  ∃ (k : nat) (voids gets : list (request * fetch_outcome)),
    exchanges (scanOne w subDept apexToken tok s).2 = voids ++ gets ++ exchanges s ∧
    gets.*1 = drop k (scanRequests subDept dateApex dateLE apexToken tok) ∧
    (k ≤ 2)%nat ∧
    Forall (λ x, ∃ id, x.1 = void_request id tok) voids ∧
    (k = 2%nat ↔ ∃ e, g1.1 = Throw e) ∧
    ((∃ pos, g1.1 = Return pos) → (∃ e, g2.1 = Throw e) → k = 1%nat) ∧
    (k = 0%nat → (∃ pos, g1.1 = Return pos) ∧ ∃ ancillary, g2.1 = Return ancillary) ∧
    (voids ≠ [] → k = 0%nat ∧ ∃ leTrucks, g3.1 = Return leTrucks) ∧
    (∀ r, (scanOne w subDept apexToken tok s).1 = Return r →
       k = 0%nat ∧ ∃ leTrucks, g3.1 = Return leTrucks).
Proof.
  intros dateApex dateLE s0 g1 s1 g2 s2 g3. rewrite scanOne_run. cbv zeta.
  fold dateApex dateLE. subst g3 s2 g2 s1 g1 s0.
  rewrite !fetchApex_run. cbn [fst snd exchanges with_log record_exchange length].
  fold (posRequest subDept dateApex apexToken).
  set (o1 := net w (length (exchanges s)) _).
  destruct (settle _ _ _ o1) as [pos|e].
  2:{ exists 2%nat, [], [(posRequest subDept dateApex apexToken, o1)].
      split; [done|]. split; [done|]. split; [lia|]. split; [done|].
      split; [split; [by exists e|done]|].
      split; [by intros [pos [=]]|]. split; [done|]. split; done. }
  cbn [fst snd exchanges with_log record_exchange length].
  fold (ancillaryRequest subDept dateApex apexToken).
  set (o2 := net w (S (length (exchanges s))) _).
  destruct (settle _ _ _ o2) as [ancillary|e].
  2:{ exists 1%nat, [], [(ancillaryRequest subDept dateApex apexToken, o2);
                         (posRequest subDept dateApex apexToken, o1)].
      split; [done|]. split; [done|]. split; [lia|]. split; [done|].
      split; [split; [done|by intros [e' [=]]]|].
      split; [done|]. split; [done|]. split; done. }
  cbn [fst snd].
  match goal with
  | |- context [fetchTruckSummaries w subDept dateLE tok ?s2] =>
      pose proof (fetchTruckSummaries_exchanges subDept dateLE tok s2) as Htr;
      destruct (fetchTruckSummaries w subDept dateLE tok s2) as [[leTrucks|e] s3]
  end; cbn [fst snd exchanges with_log record_exchange length] in Htr |- *.
  2:{ exists 0%nat, [], [(trucksRequest subDept dateLE tok,
                          net w (S (S (length (exchanges s))))
                            (trucksRequest subDept dateLE tok));
                         (ancillaryRequest subDept dateApex apexToken, o2);
                         (posRequest subDept dateApex apexToken, o1)].
      split; [exact Htr|]. split; [done|]. split; [lia|]. split; [done|].
      split; [split; [done|by intros [e' [=]]]|].
      split; [by intros _ [e' [=]]|]. split; [intros _; split; eauto|].
      split; done. }
  destruct (scanPOs_exchanges w (aggregate (as_ancillary ancillary)).1
              (aggregate (as_ancillary ancillary)).2 (indexTrucks leTrucks) subDept tok
              (as_pos pos) s3) as (new & Hnew & _ & Hall).
  exists 0%nat, new, [(trucksRequest subDept dateLE tok,
                       net w (S (S (length (exchanges s))))
                         (trucksRequest subDept dateLE tok));
                      (ancillaryRequest subDept dateApex apexToken, o2);
                      (posRequest subDept dateApex apexToken, o1)].
  split; [by rewrite reconcile_exchanges, Hnew, Htr|].
  split; [done|]. split; [lia|].
  split; [eapply Forall_impl; [exact Hall|];
          intros x (po & id & _ & _ & _ & _ & Hx); by exists id|].
  split; [split; [done|by intros [e' [=]]]|].
  split; [by intros _ [e' [=]]|]. split; [intros _; split; eauto|].
  split; intros; split; eauto.
Qed.

End ScanRequests.


(** ** The operational day *)

Section OperationalDay.
Import Clock.

Lemma operational_day_number now :
  Day (getOperationalDate now) = (timeValue now - 2 * msPerHour) / msPerDay.
Proof.
  unfold getOperationalDate.
  destruct (getHours now <? 2) eqn:Eh.
  - destruct (setDate_yesterday now) as [-> _].
    apply Z.ltb_lt in Eh. unfold getHours, Day, msPerHour, msPerDay in *.
    Z.div_mod_to_equations. lia.
  - apply Z.ltb_ge in Eh. unfold getHours, Day, msPerHour, msPerDay in *.
    Z.div_mod_to_equations. lia.
Qed.

(** X9. The operational date of an instant is the calendar date of the instant
    two hours earlier: the operational day runs from 02:00 to 02:00. *)
Theorem operational_day_starts_at_two (now : Date) :
  Day (getOperationalDate now) = (timeValue now - 2 * msPerHour) / msPerDay ∧
  calendarDate (getOperationalDate now)
  = calendarDate (mkDate (timeValue now - 2 * msPerHour)).
Proof.
  split; [apply operational_day_number|].
  unfold calendarDate. f_equal. rewrite operational_day_number. done.
Qed.

(** X10. Two instants of the same operational day (the same day once two hours
    are taken off) give the same [todayApex] and the same [todayLoadEntry]. *)
Theorem one_date_per_operational_day (a b : Date) :
  (timeValue a - 2 * msPerHour) / msPerDay = (timeValue b - 2 * msPerHour) / msPerDay →
  todayApex a = todayApex b ∧ todayLoadEntry a = todayLoadEntry b.
Proof.
  intros Hday. rewrite <- !operational_day_number in Hday.
  unfold todayApex, todayLoadEntry, getMonth, getDate, getFullYear. cbv zeta.
  by rewrite Hday.
Qed.

(** X11. A later instant never gives an earlier operational date, the step
    back before 02:00 notwithstanding. *)
Theorem operational_date_is_monotone (a b : Date) :
  timeValue a ≤ timeValue b → Day (getOperationalDate a) ≤ Day (getOperationalDate b).
Proof.
  intros Hle. rewrite !operational_day_number. unfold msPerHour, msPerDay.
  apply Z.div_le_mono; lia.
Qed.

End OperationalDay.

(** 23:30 on 29 February 2024 and 01:30 the next morning. *)
Lemma one_date_witness :
  Clock.todayApex (Clock.mkDate 1709249400000) = Clock.todayApex (Clock.mkDate 1709256600000) ∧
  Clock.todayLoadEntry (Clock.mkDate 1709249400000)
  = Clock.todayLoadEntry (Clock.mkDate 1709256600000).
Proof.
  apply (one_date_per_operational_day (Clock.mkDate 1709249400000)
           (Clock.mkDate 1709256600000)).
  vm_compute. reflexivity.
Defined.

Lemma operational_date_monotone_witness :
  Clock.Day (Clock.getOperationalDate (Clock.mkDate 1709249400000))
  ≤ Clock.Day (Clock.getOperationalDate (Clock.mkDate 1709256600000)).
Proof.
  apply (operational_date_is_monotone (Clock.mkDate 1709249400000)
           (Clock.mkDate 1709256600000)).
  vm_compute. discriminate.
Defined.

(** ** The void call *)

Section VoidCall.
Context (w : world).

(** X12. The void call makes one DELETE request to the void URL of the checkout
    ID and settles on the status of the answer alone: it returns [true]
    exactly on a 2xx answer; on 401 it throws the error with [status] 401,
    whose message is "Load Entry auth expired"; every other error it throws
    has no [status]. The body of the answer is never read. *)
Theorem void_succeeds_exactly_on_2xx (id tok : string) (s : state) :
  let o := net w (length (exchanges s)) (void_request id tok) in
  (voidDriverWalletCheckout w id tok s).2 = record_exchange (void_request id tok, o) s ∧
  ((voidDriverWalletCheckout w id tok s).1 = Return true
   ↔ ∃ r, o = Responded r ∧ 200 ≤ res_status r ≤ 299) ∧
  (∀ b, (voidDriverWalletCheckout w id tok s).1 = Return b → b = true) ∧
  (∀ e, (voidDriverWalletCheckout w id tok s).1 = Throw e →
        (status e = Some 401 ↔ ∃ r, o = Responded r ∧ res_status r = 401) ∧
        (status e = Some 401 → message e = "Load Entry auth expired") ∧
        (status e = Some 401 ∨ status e = None)).
Proof.
  intros o. rewrite voidDriverWalletCheckout_run. fold o. cbn [fst snd].
  split; [done|]. unfold void_failure.
  destruct o as [msg|r].
  { split; [split; [done|by intros (r & ? & _)]|]. split; [done|].
    intros e [= <-]. cbn [status Error].
    split; [split; [done|by intros (r & ? & _)]|]. split; [done|by right]. }
  destruct (res_status r =? 401) eqn:E401.
  { apply Z.eqb_eq in E401.
    split; [split; [done|intros (r' & [= <-] & ?); lia]|]. split; [done|].
    intros e [= <-]. cbn [status message].
    split; [split; [by exists r|done]|]. split; [done|by left]. }
  apply Z.eqb_neq in E401.
  destruct (res_ok r) eqn:Eok; unfold res_ok in Eok.
  - split; [split; [intros _; exists r; split; [done|lia]|done]|].
    split; [by intros b [= <-]|]. done.
  - split; [split; [done|intros (r' & [= <-] & ?); lia]|]. split; [done|].
    intros e [= <-]. cbn [status Error].
    split; [split; [done|intros (r' & [= <-] & ?); lia]|]. split; [done|by right].
Qed.

End VoidCall.


(** ** What makes a scan throw *)

Section Aborts.
Context (w : world).

Lemma settle_throw `{!Json J} service expired path o e :
  settle (J:=J) service expired path o = Throw e →
  (∃ r, o = Responded r ∧ res_status r = 401 ∧ e = mkError expired (Some 401))
  ∨ status e = None.
Proof.
  unfold settle. destruct o as [msg|r]; [intros [= <-]; by right|].
  unfold classify. destruct (res_status r =? 401) eqn:E401.
  { apply Z.eqb_eq in E401. intros [= <-]. left. by exists r. }
  destruct ((res_status r <? 200) || (299 <? res_status r)); [intros [= <-]; by right|].
  destruct (JSON_parse (res_body r)); [done|]. intros [= <-]. by right.
Qed.

Lemma scanPO_throw rb cb lb subDept tok po s e s' :
  scanPO rb cb lb w subDept tok po s = (Throw e, s') →
  ∃ id r rest, exchanges s' = (void_request id tok, Responded r) :: rest ∧
               res_status r = 401 ∧ e = mkError "Load Entry auth expired" (Some 401).
Proof.
  rewrite scanPO_run. unfold decide_status.
  destruct (isOver rb po); [|done].
  destruct (checkoutIDOf lb po) as [id|].
  - rewrite voidOnce_run. case_bool_decide; [done|].
    cbv zeta. destruct (net w _ _) as [msg|r]; [done|].
    destruct (res_status r =? 401) eqn:E401.
    { apply Z.eqb_eq in E401. intros [= <- <-]. by exists id, r, (exchanges s). }
    by destruct (res_ok r).
  - rewrite alertOnce_run. by case_bool_decide.
Qed.

Lemma scanPOs_throw rb cb lb subDept tok pos s e s' :
  scanPOs rb cb lb w subDept tok pos s = (Throw e, s') →
  ∃ id r rest, exchanges s' = (void_request id tok, Responded r) :: rest ∧
               res_status r = 401 ∧ e = mkError "Load Entry auth expired" (Some 401).
Proof.
  revert s. induction pos as [|po rest IH]; intros s; [done|].
  rewrite scanPOs_cons.
  destruct (scanPO rb cb lb w subDept tok po s) as [[[r acts]|e1] s1] eqn:Hpo.
  - destruct (scanPOs rb cb lb w subDept tok rest s1) as [[[pd a]|e2] s2] eqn:Hrest; [done|].
    intros [= <- <-]. by eapply IH.
  - intros [= <- <-]. by eapply scanPO_throw.
Qed.

Context {J : Type} `{!Json J, !Payload J}.

Lemma scanOne_throw subDept apexToken tok s e s' :
  scanOne w subDept apexToken tok s = (Throw e, s') →
  ∃ req o rest, exchanges s' = (req, o) :: rest ∧
    ((∃ endpoint, req = mkRequest GET (APEX_API +:+ endpoint) apexToken ∧
        ((∃ r, o = Responded r ∧ res_status r = 401 ∧
               e = mkError "Apex auth expired (401)" (Some 401))
         ∨ status e = None))
     ∨ (∃ endpoint r, req = mkRequest GET (LE_API +:+ endpoint) tok ∧ o = Responded r ∧
          res_status r = 401 ∧ e = mkError "Load Entry auth expired (401)" (Some 401))
     ∨ (∃ id r, req = void_request id tok ∧ o = Responded r ∧
          res_status r = 401 ∧ e = mkError "Load Entry auth expired" (Some 401))).
Proof.
  rewrite scanOne_run. cbv zeta.
  destruct (settle _ _ _ _) as [pos|e1] eqn:H1.
  2:{ intros Heq. injection Heq. intros <- <-. apply settle_throw in H1.
      eexists _, _, _. split; [reflexivity|]. left. eexists. split; [reflexivity|exact H1]. }
  destruct (settle _ _ (ancillaryEndpoint _ _) _) as [ancillary|e2] eqn:H2.
  2:{ intros Heq. injection Heq. intros <- <-. apply settle_throw in H2.
      eexists _, _, _. split; [reflexivity|]. left. eexists. split; [reflexivity|exact H2]. }
  rewrite fetchTruckSummaries_run.
  destruct (settle _ _ (trucksEndpoint _ _) _) as [trucks|e3] eqn:H3.
  - unfold reconcile. rewrite (bind_run (scanPOs _ _ _ w _ _ _)).
    destruct (scanPOs _ _ _ w _ _ _ _) as [[[pd acts]|e4] s4] eqn:H4; [done|].
    intros [= <- <-]. apply scanPOs_throw in H4 as (id & r & rest & Hx & Hr & He).
    exists (void_request id tok), (Responded r), rest. split; [done|].
    right. right. by exists id, r.
  - case_bool_decide as H401.
    + intros [= <- <-]. apply settle_throw in H3 as [(r & Ho & Hr & He)|H3]; [|congruence].
      eexists _, _, _. split; [reflexivity|]. right. left. eexists _, r.
      split; [reflexivity|done].
    + unfold reconcile. rewrite (bind_run (scanPOs _ _ _ w _ _ _)).
      destruct (scanPOs _ _ _ w _ _ _ _) as [[[pd acts]|e4] s4] eqn:H4; [done|].
      intros [= <- <-]. apply scanPOs_throw in H4 as (id & r & rest & Hx & Hr & He).
      exists (void_request id tok), (Responded r), rest. split; [done|].
      right. right. by exists id, r.
Qed.

Lemma scanEach_throw deptList apexToken tok s e s' :
  scanEach w deptList apexToken tok s = (Throw e, s') →
  ∃ req o rest, exchanges s' = (req, o) :: rest ∧
    ((∃ endpoint, req = mkRequest GET (APEX_API +:+ endpoint) apexToken ∧
        ((∃ r, o = Responded r ∧ res_status r = 401 ∧
               e = mkError "Apex auth expired (401)" (Some 401))
         ∨ status e = None))
     ∨ (∃ endpoint r, req = mkRequest GET (LE_API +:+ endpoint) tok ∧ o = Responded r ∧
          res_status r = 401 ∧ e = mkError "Load Entry auth expired (401)" (Some 401))
     ∨ (∃ id r, req = void_request id tok ∧ o = Responded r ∧
          res_status r = 401 ∧ e = mkError "Load Entry auth expired" (Some 401))).
Proof.
  revert s. induction deptList as [|d rest IH]; intros s; [done|].
  cbn [scanEach]. rewrite (bind_run (scanOne w _ _ _)).
  destruct (scanOne w d apexToken tok s) as [[[pd acts]|e1] s1] eqn:Hone.
  - rewrite (bind_run (scanEach w _ _ _)).
    destruct (scanEach w rest apexToken tok s1) as [[[pd' acts']|e2] s2] eqn:Hrest; [done|].
    intros [= <- <-]. by eapply IH.
  - intros [= <- <-]. by eapply scanOne_throw.
Qed.

(** X13. An error that carries a [status] leaves a scan only straight after
    the request whose answer made it: the newest exchange of the history is
    a request that was answered 401, the status is 401, and the message
    tells which source it was: "Apex auth expired (401)" for a GET to the
    Apex source, "Load Entry auth expired (401)" for the GET of the truck
    summaries, "Load Entry auth expired" for a void call. *)
Theorem auth_error_names_its_request (subDepts : Z + list Z) (apexToken tok : string)
    (s : state) (e : js_error) :
  (scan w subDepts apexToken tok s).1 = Throw e → status e ≠ None →
  ∃ req r rest,
    exchanges (scan w subDepts apexToken tok s).2 = (req, Responded r) :: rest ∧
    res_status r = 401 ∧ status e = Some 401 ∧
    ((∃ endpoint, req = mkRequest GET (APEX_API +:+ endpoint) apexToken ∧
        message e = "Apex auth expired (401)")
     ∨ (∃ endpoint, req = mkRequest GET (LE_API +:+ endpoint) tok ∧
          message e = "Load Entry auth expired (401)")
     ∨ (∃ id, req = void_request id tok ∧ message e = "Load Entry auth expired")).
Proof.
  unfold scan. intros Hthrow Hstatus.
  destruct (scanEach_throw (match subDepts with inl d => [d] | inr l => l end)
              apexToken tok s e
              (scanEach w (match subDepts with inl d => [d] | inr l => l end)
                 apexToken tok s).2) as (req & o & rest & Hx & Hkind).
  { rewrite (surjective_pairing (scanEach w _ apexToken tok s)). by rewrite Hthrow. }
  destruct Hkind as [(endpoint & -> & [(r & -> & Hr & ->)|Hnone])
                    |[(endpoint & r & -> & -> & Hr & ->)|(id & r & -> & -> & Hr & ->)]].
  - eexists _, r, rest. split; [exact Hx|]. split; [done|]. split; [done|].
    left. by exists endpoint.
  - done.
  - eexists _, r, rest. split; [exact Hx|]. split; [done|]. split; [done|].
    right. left. by exists endpoint.
  - eexists _, r, rest. split; [exact Hx|]. split; [done|]. split; [done|].
    right. right. by exists id.
Qed.

End Aborts.

(** With the token of the truck source expired, the scan throws on the
    third request, the GET of the truck summaries. *)
Lemma auth_error_witness :
  ∃ req r rest,
    exchanges (scan Fixture.trucks_expired (J:=Fixture.doc) (inl 85) "apex-token" "le-token"
                 init).2 = (req, Responded r) :: rest ∧
    res_status r = 401 ∧
    status (mkError "Load Entry auth expired (401)" (Some 401)) = Some 401 ∧
    ((∃ endpoint, req = mkRequest GET (APEX_API +:+ endpoint) "apex-token" ∧
        message (mkError "Load Entry auth expired (401)" (Some 401))
        = "Apex auth expired (401)")
     ∨ (∃ endpoint, req = mkRequest GET (LE_API +:+ endpoint) "le-token" ∧
          message (mkError "Load Entry auth expired (401)" (Some 401))
          = "Load Entry auth expired (401)")
     ∨ (∃ id, req = void_request id "le-token" ∧
          message (mkError "Load Entry auth expired (401)" (Some 401))
          = "Load Entry auth expired")).
Proof.
  assert ((scan Fixture.trucks_expired (J:=Fixture.doc) (inl 85) "apex-token" "le-token"
             init).1 = Throw (mkError "Load Entry auth expired (401)" (Some 401))) as Hrun
    by (vm_compute; reflexivity).
  exact (auth_error_names_its_request Fixture.trucks_expired (J:=Fixture.doc) (inl 85)
           "apex-token" "le-token" init _ Hrun ltac:(discriminate)).
Defined.


(** ** What the actions and the void calls rest on *)

Section Grounds.
Context (w : world).

Lemma scanPO_actions rb cb lb subDept tok po s r acts s' :
  scanPO rb cb lb w subDept tok po s = (Return (r, acts), s') →
  Forall (λ a, Action.poNumber a = Result.poNumber r ∧
               Action.truckId a = Result.truckId r ∧
               Action.carrier a = Result.carrier r ∧
               Action.palletsIn a = Result.palletsIn r ∧
               Action.restacksUpstacks a = Result.restacksUpstacks r ∧
               Action.palletsIn a < Action.restacksUpstacks a ∧
               Result.status r = match Action.type a with
                                 | cancelled => CANCELLED
                                 | over_no_wallet => OVER
                                 end) acts.
Proof.
  rewrite scanPO_run. unfold decide_status.
  destruct (isOver rb po) eqn:Hover; [|by intros [= <- <- <-]].
  apply isOver_gt in Hover.
  destruct (checkoutIDOf lb po) as [id|].
  - rewrite voidOnce_run. case_bool_decide; [by intros [= <- <- <-]|].
    cbv zeta. destruct (net w _ _) as [msg|r0]; [by intros [= <- <- <-]|].
    destruct (res_status r0 =? 401); [done|].
    destruct (res_ok r0); [|by intros [= <- <- <-]].
    intros [= <- <- <-]. apply Forall_singleton. cbn. repeat split; try done. lia.
  - rewrite alertOnce_run. case_bool_decide; [by intros [= <- <- <-]|].
    intros [= <- <- <-]. apply Forall_singleton. cbn. repeat split; try done. lia.
Qed.

(** X14. Every action a loop returns reports a PO that is over: it carries the
    PO number, truck ID, carrier and counts of an entry of [poData], its
    [restacksUpstacks] exceeds its [palletsIn], and the entry's status is
    CANCELLED for a cancelled action and OVER for an over-no-wallet one. *)
Theorem actions_report_over_POs (rb : gmap string Z) (cb : gmap string string)
    (lb : gmap string Truck.t) (subDept : Z) (tok : string) (pos : list PO.t)
    (s s' : state) (poData : list Result.t) (actions : list Action.t) :
  scanPOs rb cb lb w subDept tok pos s = (Return (poData, actions), s') →
  Forall (λ a, ∃ r, r ∈ poData ∧
                    Action.poNumber a = Result.poNumber r ∧
                    Action.truckId a = Result.truckId r ∧
                    Action.carrier a = Result.carrier r ∧
                    Action.palletsIn a = Result.palletsIn r ∧
                    Action.restacksUpstacks a = Result.restacksUpstacks r ∧
                    Action.palletsIn a < Action.restacksUpstacks a ∧
                    Result.status r = match Action.type a with
                                      | cancelled => CANCELLED
                                      | over_no_wallet => OVER
                                      end) actions.
Proof.
  revert s poData actions. induction pos as [|po rest IH]; intros s poData actions.
  { intros [= <- <- <-]. constructor. }
  rewrite scanPOs_cons.
  destruct (scanPO rb cb lb w subDept tok po s) as [[[r acts]|e] s1] eqn:Hpo; [|done].
  destruct (scanPOs rb cb lb w subDept tok rest s1) as [[[pd acts']|e] s2] eqn:Hrest; [|done].
  intros [= <- <- <-]. apply Forall_app. split.
  - eapply Forall_impl; [by eapply scanPO_actions|]. intros a Ha. exists r.
    split; [apply elem_of_cons; by left|exact Ha].
  - eapply Forall_impl; [by eapply IH|]. intros a (r' & Hin & Ha). exists r'.
    split; [apply elem_of_cons; by right|exact Ha].
Qed.

Context {J : Type} `{!Json J, !Payload J}.

(** X15. Whatever the network answers, every void call of a scan of one
    sub-department rests on the three documents the scan has just fetched:
    the PO fetch, the ancillary fetch and the truck-summary fetch all
    returned, and the checkout ID is the one of the truck summary matched
    by a PO of the PO document whose restack/upstack sum over the
    ancillary document exceeds its pallets in. Before the void calls the
    scan makes at most three requests, all of them GETs. *)
Theorem voids_rest_on_the_documents (subDept : Z) (apexToken tok : string) (s : state) :
  let dateApex := Clock.todayApex (wallClock w (length (exchanges s))) in
  let dateLE := Clock.todayLoadEntry (wallClock w (length (exchanges s))) in
  let s0 := with_log (sd subDept +:+ "Fetching POs...") s in
  let s1 := with_log (sd subDept +:+ "Fetching ancillary items...")
              (fetchApex (J:=J) w (posEndpoint subDept dateApex) apexToken s0).2 in
  let s2 := with_log (sd subDept +:+ "Fetching Load Entry truck summaries...")
              (fetchApex (J:=J) w (ancillaryEndpoint subDept dateApex) apexToken s1).2 in
  ∃ voids gets,
    exchanges (scanOne w subDept apexToken tok s).2 = voids ++ gets ++ exchanges s ∧
    (length gets ≤ 3)%nat ∧
    Forall (λ x, req_method x.1 = GET) gets ∧
    Forall (λ x, ∃ posDoc ancDoc trucksDoc po id,
                   (fetchApex w (posEndpoint subDept dateApex) apexToken s0).1
                   = Return posDoc ∧
                   (fetchApex w (ancillaryEndpoint subDept dateApex) apexToken s1).1
                   = Return ancDoc ∧
                   (fetchLoadEntry w (trucksEndpoint subDept dateLE) tok s2).1
                   = Return trucksDoc ∧
                   po ∈ as_pos posDoc ∧
                   palletsInOf po
                   < restacksUpstacksOf (aggregate (as_ancillary ancDoc)).1 po ∧
                   checkoutIDOf (indexTrucks (as_trucks trucksDoc)) po = Some id ∧
                   x.1 = void_request id tok) voids.
Proof.
  intros dateApex dateLE s0 s1 s2.
  assert (fetchApex (J:=J) w (posEndpoint subDept dateApex) apexToken s0
          = (settle "Apex API" "Apex auth expired (401)" (posEndpoint subDept dateApex)
               (net w (length (exchanges s)) (posRequest subDept dateApex apexToken)),
             record_exchange
               (posRequest subDept dateApex apexToken,
                net w (length (exchanges s)) (posRequest subDept dateApex apexToken)) s0))
    as F1 by (rewrite fetchApex_run; reflexivity).
  assert (fetchApex (J:=J) w (ancillaryEndpoint subDept dateApex) apexToken s1
          = (settle "Apex API" "Apex auth expired (401)" (ancillaryEndpoint subDept dateApex)
               (net w (S (length (exchanges s)))
                  (ancillaryRequest subDept dateApex apexToken)),
             record_exchange
               (ancillaryRequest subDept dateApex apexToken,
                net w (S (length (exchanges s)))
                  (ancillaryRequest subDept dateApex apexToken)) s1)) as F2.
  { rewrite fetchApex_run. subst s1. rewrite F1. done. }
  assert (fetchLoadEntry (J:=J) w (trucksEndpoint subDept dateLE) tok s2
          = (settle "LE API" "Load Entry auth expired (401)" (trucksEndpoint subDept dateLE)
               (net w (S (S (length (exchanges s)))) (trucksRequest subDept dateLE tok)),
             record_exchange
               (trucksRequest subDept dateLE tok,
                net w (S (S (length (exchanges s)))) (trucksRequest subDept dateLE tok)) s2))
    as F3.
  { rewrite fetchLoadEntry_run. subst s2. rewrite F2. subst s1. rewrite F1. done. }
  rewrite scanOne_run. cbv zeta. fold dateApex dateLE.
  set (o1 := net w (length (exchanges s)) _) in *.
  set (o2 := net w (S (length (exchanges s))) _) in *.
  destruct (settle _ _ _ o1) as [pos|e1] eqn:H1.
  2:{ exists [], [(posRequest subDept dateApex apexToken, o1)].
      split; [done|]. split; [cbn [length]; lia|]. split; [by repeat constructor|done]. }
  destruct (settle _ _ (ancillaryEndpoint _ _) o2) as [ancillary|e2] eqn:H2.
  2:{ exists [], [(ancillaryRequest subDept dateApex apexToken, o2);
                  (posRequest subDept dateApex apexToken, o1)].
      split; [done|]. split; [cbn [length]; lia|]. split; [by repeat constructor|done]. }
  rewrite fetchTruckSummaries_run. cbn [exchanges with_log record_exchange length].
  set (o3 := net w (S (S (length (exchanges s)))) _) in *.
  set (gets := [(trucksRequest subDept dateLE tok, o3);
                (ancillaryRequest subDept dateApex apexToken, o2);
                (posRequest subDept dateApex apexToken, o1)]).
  destruct (settle _ _ (trucksEndpoint _ _) o3) as [trucksDoc|e3] eqn:H3.
  - match goal with
    | |- context [reconcile w subDept tok ?rb ?cb ?tr ?ps ?s3] =>
        destruct (scanPOs_exchanges w rb cb (indexTrucks tr) subDept tok ps s3)
          as (new & Hnew & _ & Hall)
    end.
    exists new, gets. unfold gets. split; [by rewrite reconcile_exchanges, Hnew|].
    split; [cbn [length]; lia|]. split; [by repeat constructor|].
    eapply Forall_impl; [exact Hall|].
    intros x (po & id & Hin & Hover & Hid & _ & Hx).
    exists pos, ancillary, trucksDoc, po, id.
    rewrite F1, F2, F3. cbn [fst]. split; [done|]. split; [done|]. split; [done|].
    split; [done|]. split; [|done]. apply isOver_gt in Hover. lia.
  - case_bool_decide.
    + exists [], gets. unfold gets. split; [done|]. split; [cbn [length]; lia|].
      split; [by repeat constructor|done].
    + match goal with
      | |- context [reconcile w subDept tok ?rb ?cb ?tr ?ps ?s3] =>
          destruct (scanPOs_exchanges w rb cb (indexTrucks tr) subDept tok ps s3)
            as (new & Hnew & _ & Hall)
      end.
      assert (new = []) as ->.
      { destruct new as [|x new]; [done|]. exfalso.
        apply Forall_cons in Hall as [(po & id & _ & _ & Hid & _) _].
        unfold checkoutIDOf, indexTrucks in Hid. cbn [fold_left] in Hid.
        by rewrite lookup_empty in Hid. }
      exists [], gets. unfold gets. split; [by rewrite reconcile_exchanges, Hnew|].
      split; [cbn [length]; lia|]. split; [by repeat constructor|done].
Qed.

End Grounds.

(** The loop over P1, whose void goes through, returns the cancellation
    of P1. *)
Lemma actions_report_witness :
  Forall (λ a, ∃ r, r ∈ [Result.mk 85 "P1" "T1" "ACME" 5 7 CANCELLED] ∧
                    Action.poNumber a = Result.poNumber r ∧
                    Action.truckId a = Result.truckId r ∧
                    Action.carrier a = Result.carrier r ∧
                    Action.palletsIn a = Result.palletsIn r ∧
                    Action.restacksUpstacks a = Result.restacksUpstacks r ∧
                    Action.palletsIn a < Action.restacksUpstacks a ∧
                    Result.status r = match Action.type a with
                                      | cancelled => CANCELLED
                                      | over_no_wallet => OVER
                                      end)
    [Action.mk cancelled "P1" "T1" "ACME" 5 7 (Some "CO123") (Clock.mkDate 1700000001000)].
Proof.
  assert (scanPOs (aggregate [Fixture.restack7]).1 (aggregate [Fixture.restack7]).2
            (indexTrucks [Fixture.T1]) (Fixture.scripted [Fixture.answer 200 ""]) 85
            "le-token" [Fixture.P1] init
          = (Return ([Result.mk 85 "P1" "T1" "ACME" 5 7 CANCELLED],
                     [Action.mk cancelled "P1" "T1" "ACME" 5 7 (Some "CO123")
                        (Clock.mkDate 1700000001000)]),
             (scanPOs (aggregate [Fixture.restack7]).1 (aggregate [Fixture.restack7]).2
                (indexTrucks [Fixture.T1]) (Fixture.scripted [Fixture.answer 200 ""]) 85
                "le-token" [Fixture.P1] init).2))
    as Hrun by (vm_compute; reflexivity).
  exact (actions_report_over_POs _ _ _ _ _ _ _ _ _ _ _ Hrun).
Defined.


(** ** Steps that overlap *)

Section Overlap.
Import Ledger.
Context (w : world) (rb : gmap string Z) (cb : gmap string string)
        (lb : gmap string Truck.t).

Lemma fetch_halves req s : fetch w req s = (send w req ≫= receive) s.
Proof.
  rewrite bind_run. unfold fetch, send. cbv zeta.
  by destruct (net w (length (exchanges s)) req).
Qed.

Lemma voidDriverWalletCheckout_halves id tok s :
  voidDriverWalletCheckout w id tok s
  = (voidRequested w id tok ≫= voidSettled) s.
Proof.
  unfold voidDriverWalletCheckout, voidRequested, voidSettled.
  rewrite !bind_run, fetch_halves, bind_run.
  unfold send. cbv zeta. by destruct (net w (length (exchanges s)) _).
Qed.

Lemma res_ok_not_401 r : res_ok r = true → (res_status r =? 401) = false.
Proof.
  unfold res_ok. intros [H1%Z.leb_le H2%Z.leb_le]%andb_true_iff.
  apply Z.eqb_neq. lia.
Qed.

(** X28. The step for an over PO with a checkout ID, cut at its [await]
    (line 112): run without a pause between the two halves it is
    [voidOnce]. But when two runs for the same checkout ID, not voided
    yet, both reach the [await] before either resumes, both send the void
    call; and when both calls are answered 2xx, both runs add the ID,
    report CANCELLED and push a cancelled action of their own: the ID has
    been voided twice. *)
Theorem overlapping_steps_void_twice (tok id : string) (poA poB : PO.t) (s : state) :
  let oA := net w (length (exchanges s)) (void_request id tok) in
  let oB := net w (S (length (exchanges s))) (void_request id tok) in
  let s1 := record_exchange (void_request id tok, oA) s in
  let s2 := record_exchange (void_request id tok, oB) s1 in
  let s3 := with_log (cancelledLine poA id) (with_voided id s2) in
  let s4 := with_log (cancelledLine poB id) (with_voided id s3) in
  (∀ po s0, voidOnce rb cb lb w tok po id s0
            = (voidOnce_begin w tok id ≫= voidOnce_resume rb cb lb w po id) s0) ∧
  ((id ∉ voidedCheckoutIDs s) →
   answered_ok (void_request id tok, oA) = true →
   answered_ok (void_request id tok, oB) = true →
   voidOnce_begin w tok id s = (Return (Some oA), s1) ∧
   voidOnce_begin w tok id s1 = (Return (Some oB), s2) ∧
   voidOnce_resume rb cb lb w poA id (Some oA) s2
   = (Return (CANCELLED,
              [mkAction rb cb lb cancelled poA (Some id)
                 (wallClock w (S (S (length (exchanges s)))))]), s3) ∧
   voidOnce_resume rb cb lb w poB id (Some oB) s3
   = (Return (CANCELLED,
              [mkAction rb cb lb cancelled poB (Some id)
                 (wallClock w (S (S (length (exchanges s)))))]), s4) ∧
   void_calls id (exchanges s4) = S (S (void_calls id (exchanges s))) ∧
   void_successes id (exchanges s4) = S (S (void_successes id (exchanges s)))).
Proof.
  intros oA oB s1 s2 s3 s4. split.
  - intros po s0. unfold voidOnce, voidOnce_begin, voidOnce_resume, voided_has, try_catch.
    rewrite !bind_run.
    destruct (bool_decide (id ∈ voidedCheckoutIDs s0)); cbn [negb]; [done|].
    rewrite !bind_run, voidDriverWalletCheckout_halves, bind_run.
    unfold fmap, M_fmap, voidRequested, send. cbv zeta.
    by destruct (net w (length (exchanges s0)) _).
  - intros Hnew HA HB.
    assert (∀ po o s0, answered_ok (void_request id tok, o) = true →
              voidOnce_resume rb cb lb w po id (Some o) s0
              = (Return (CANCELLED,
                         [mkAction rb cb lb cancelled po (Some id)
                            (wallClock w (length (exchanges s0)))]),
                 with_log (cancelledLine po id) (with_voided id s0))) as Hresume.
    { intros po o s0 Hok. unfold answered_ok in Hok. cbn [snd] in Hok.
      destruct o as [msg|r]; [done|].
      unfold voidOnce_resume, try_catch, voidSettled, receive.
      rewrite !bind_run. cbn [mret M_ret].
      by rewrite (res_ok_not_401 _ Hok), Hok. }
    assert (∀ s0, (id ∉ voidedCheckoutIDs s0) →
              voidOnce_begin w tok id s0
              = (Return (Some (net w (length (exchanges s0)) (void_request id tok))),
                 record_exchange
                   (void_request id tok,
                    net w (length (exchanges s0)) (void_request id tok)) s0)) as Hbegin.
    { intros s0 Hs0. unfold voidOnce_begin, voided_has. rewrite bind_run.
      by rewrite bool_decide_eq_false_2. }
    split; [by apply Hbegin|]. split; [by apply (Hbegin s1)|].
    split; [by apply Hresume|]. split; [by apply Hresume|].
    subst s4 s3 s2 s1. cbn [exchanges with_log with_voided record_exchange].
    unfold void_calls, void_successes.
    rewrite !count_cons, !is_void_of_void, !bool_decide_eq_true_2 by done.
    rewrite HA, HB. split; reflexivity.
Qed.

End Overlap.

(** P1 of the fixtures, twice in flight with checkout CO123: both void
    calls go out and are answered 200. *)
Lemma overlapping_steps_witness :
  void_calls "CO123"
    (exchanges
       (with_log (cancelledLine Fixture.P1 "CO123")
          (with_voided "CO123"
             (with_log (cancelledLine Fixture.P1 "CO123")
                (with_voided "CO123"
                   (record_exchange
                      (void_request "CO123" "le-token", Fixture.answer 200 "")
                      (record_exchange
                         (void_request "CO123" "le-token", Fixture.answer 200 "")
                         init)))))))
  = 2%nat ∧
  void_successes "CO123"
    (exchanges
       (with_log (cancelledLine Fixture.P1 "CO123")
          (with_voided "CO123"
             (with_log (cancelledLine Fixture.P1 "CO123")
                (with_voided "CO123"
                   (record_exchange
                      (void_request "CO123" "le-token", Fixture.answer 200 "")
                      (record_exchange
                         (void_request "CO123" "le-token", Fixture.answer 200 "")
                         init)))))))
  = 2%nat.
Proof.
  destruct (proj2 (overlapping_steps_void_twice
                     (Fixture.scripted [Fixture.answer 200 ""; Fixture.answer 200 ""])
                     (aggregate [Fixture.restack7]).1 (aggregate [Fixture.restack7]).2
                     (indexTrucks [Fixture.T1]) "le-token" "CO123" Fixture.P1 Fixture.P1 init)
             (not_elem_of_empty (C:=gset string) "CO123") eq_refl eq_refl)
    as (_ & _ & _ & _ & Hcalls & Hok).
  split; [exact Hcalls|exact Hok].
Defined.


(** * The service *)

(** ** Running the steps of [index.js] *)

Ltac svc_simpl :=
  cbn [Service.apexToken Service.loadEntryToken Service.scanInterval Service.isScanning
       Service.lastScanResult Service.stats Service.scanner Service.logins Service.outbox
       Service.with_apexToken Service.with_loadEntryToken Service.with_scanInterval
       Service.with_isScanning Service.with_lastScanResult Service.with_stats
       Service.with_scanner Service.record_login Service.record_mail
       Service.totalScans Service.successfulScans Service.errors Service.lastError
       Service.startTime Service.lastScanTime
       Service.bump_totalScans Service.bump_successfulScans Service.bump_errors
       Service.set_lastError Service.set_lastScanTime
       voidedCheckoutIDs alertedOverPOs exchanges logs with_log fst snd].

Ltac svc_simpl_in H :=
  cbn [Service.apexToken Service.loadEntryToken Service.scanInterval Service.isScanning
       Service.lastScanResult Service.stats Service.scanner Service.logins Service.outbox
       Service.with_apexToken Service.with_loadEntryToken Service.with_scanInterval
       Service.with_isScanning Service.with_lastScanResult Service.with_stats
       Service.with_scanner Service.record_login Service.record_mail
       Service.totalScans Service.successfulScans Service.errors Service.lastError
       Service.startTime Service.lastScanTime
       Service.bump_totalScans Service.bump_successfulScans Service.bump_errors
       Service.set_lastError Service.set_lastScanTime
       voidedCheckoutIDs alertedOverPOs exchanges logs with_log fst snd] in H.

Section ServiceRuns.
Import Service.

Lemma T_bind_run {A B} (m : T A) (f : A → T B) s :
  (m ≫= f) s = match m s with
               | (Return a, s') => f a s'
               | (Throw e, s') => (Throw e, s')
               end.
Proof. reflexivity. Qed.

Lemma log_run line s :
  Service.log line s = (Return (), with_scanner (with_log line (scanner s)) s).
Proof. reflexivity. Qed.

Lemma stopScanning_run s :
  stopScanning s =
  if isScanning s then
    (Return true,
     with_scanInterval false
       (with_isScanning false
          (with_scanner (with_log "🛑 Stopping scanner" (scanner s)) s)))
  else
    (Return false, with_scanner (with_log "⚠️ Scanner not running" (scanner s)) s).
Proof.
  unfold stopScanning. rewrite T_bind_run. unfold getVar at 1. cbv beta iota.
  destruct (isScanning s) eqn:Hs; cbn [negb].
  - rewrite T_bind_run, log_run. cbv beta iota.
    rewrite T_bind_run. unfold update at 1. cbv beta iota.
    rewrite T_bind_run. unfold getVar at 1. cbv beta iota. svc_simpl.
    destruct (scanInterval s) eqn:Hi; rewrite T_bind_run.
    + unfold update. cbv beta iota. done.
    + unfold mret, T_ret. cbv beta iota. f_equal.
      unfold with_scanInterval, with_isScanning, with_scanner. svc_simpl. by rewrite Hi.
  - rewrite T_bind_run, log_run. done.
Qed.

Lemma with_mails_nil s : with_mails [] [] s = s.
Proof.
  destruct s as [a l i sc r st [v al ex lg] li ob]. unfold with_mails. svc_simpl.
  by rewrite app_nil_r.
Qed.

Lemma with_mails_step line mail lines mails s :
  with_mails lines mails (with_scanner (with_log line (scanner (record_mail mail s)))
                            (record_mail mail s))
  = with_mails (line :: lines) (mails ++ [mail]) s.
Proof.
  unfold with_mails. svc_simpl. by rewrite <- !app_assoc.
Qed.

Context (w : world) (h : host).

Lemma sendAlerts_run actions s :
  sendAlerts h actions s =
  (Return (),
   with_mails (imap (λ i, mailLine h (length (outbox s) + i)) actions)
     (reverse (imap (λ i, mailAttempt h (length (outbox s) + i)) actions)) s).
Proof.
  revert s. induction actions as [|action rest IH]; intros s.
  { cbn [sendAlerts imap]. by rewrite reverse_nil, with_mails_nil. }
  cbn [sendAlerts]. rewrite T_bind_run.
  assert ((if bool_decide (Action.type action = cancelled)
              || bool_decide (Action.type action = over_no_wallet)
           then catch (_ ← awaitSendEmail h action;
                       Service.log (emailSentLine (NOTIFY_EMAIL h) action))
                  (λ emailErr, Service.log (emailFailedLine emailErr))
           else mret ()) s
          = (Return (),
             with_scanner (with_log (mailLine h (length (outbox s)) action)
                             (scanner (record_mail (mailAttempt h (length (outbox s)) action)
                                         s)))
               (record_mail (mailAttempt h (length (outbox s)) action) s))) as ->.
  { replace (bool_decide (Action.type action = cancelled)
             || bool_decide (Action.type action = over_no_wallet)) with true
      by (by destruct (Action.type action)).
    unfold catch. rewrite T_bind_run. unfold awaitSendEmail, mailLine, mailAttempt.
    destruct (sendEmail h (length (outbox s)) action) as [e|]; by rewrite log_run. }
  rewrite IH. f_equal. rewrite with_mails_step. svc_simpl. cbn [imap length].
  rewrite reverse_cons, !Nat.add_0_r. f_equal.
  - f_equal. apply imap_ext. intros i x _. cbn [compose]. f_equal. lia.
  - f_equal. f_equal. apply imap_ext. intros i x _. cbn [compose]. f_equal. lia.
Qed.

Lemma awaitApexToken_run s :
  awaitApexToken h s =
  (match getApexToken h (length (logins s)) with
   | inl token => Return token
   | inr e => Throw e
   end, record_login (ApexLogin, getApexToken h (length (logins s))) s).
Proof. unfold awaitApexToken. by destruct (getApexToken h _). Qed.

Lemma awaitLoadEntryToken_run s :
  awaitLoadEntryToken h s =
  (match getLoadEntryToken h (length (logins s)) with
   | inl token => Return token
   | inr e => Throw e
   end, record_login (LoadEntryLogin, getLoadEntryToken h (length (logins s))) s).
Proof. unfold awaitLoadEntryToken. by destruct (getLoadEntryToken h _). Qed.

Lemma reauth_run which s :
  reauth h which s =
  let failed e s1 :=
    (Return false,
     with_stats (set_lastError (message e))
       (with_scanner (with_log ("❌ Re-auth failed: " +:+ message e) (scanner s1)) s1)) in
  let s0 := with_scanner
              (with_log ("🔄 " +:+ which +:+ " token expired — re-authenticating...")
                 (scanner s)) s in
  let after_apex s1 :=
    if bool_decide (which = "Load Entry") || bool_decide (which = "both") then
      match getLoadEntryToken h (length (logins s1)) with
      | inl token =>
          let s2 := with_loadEntryToken (Some token)
                      (record_login (LoadEntryLogin, inl token) s1) in
          (Return true,
           with_scanner (with_log "✅ Load Entry re-auth successful" (scanner s2)) s2)
      | inr e => failed e (record_login (LoadEntryLogin, inr e) s1)
      end
    else (Return true, s1) in
  if bool_decide (which = "Apex") || bool_decide (which = "both") then
    match getApexToken h (length (logins s)) with
    | inl token =>
        let s1 := with_apexToken (Some token) (record_login (ApexLogin, inl token) s0) in
        after_apex (with_scanner (with_log "✅ Apex re-auth successful" (scanner s1)) s1)
    | inr e => failed e (record_login (ApexLogin, inr e) s0)
    end
  else after_apex s0.
Proof.
  unfold reauth. rewrite T_bind_run, log_run. cbv beta iota zeta. unfold catch.
  rewrite T_bind_run.
  destruct (bool_decide (which = "Apex") || bool_decide (which = "both")).
  - rewrite T_bind_run, awaitApexToken_run. svc_simpl.
    destruct (getApexToken h (length (logins s))) as [token|e]; [|done].
    rewrite T_bind_run. unfold update at 1. cbv beta iota. rewrite log_run.
    rewrite T_bind_run.
    destruct (bool_decide (which = "Load Entry") || bool_decide (which = "both")); [|done].
    rewrite T_bind_run, awaitLoadEntryToken_run. svc_simpl.
    by destruct (getLoadEntryToken h _) as [token'|e].
  - unfold mret at 1, T_ret at 1. cbv beta iota. rewrite T_bind_run.
    destruct (bool_decide (which = "Load Entry") || bool_decide (which = "both")); [|done].
    rewrite T_bind_run, awaitLoadEntryToken_run. svc_simpl.
    by destruct (getLoadEntryToken h _) as [token'|e].
Qed.

Lemma with_scanner_same s : with_scanner (scanner s) s = s.
Proof. by destruct s. Qed.

Lemma newDate_run s :
  Service.newDate w s = (Return (wallClock w (length (exchanges (scanner s)))), s).
Proof. unfold Service.newDate, lift, Process.newDate. by rewrite with_scanner_same. Qed.

Lemma onScanError_run error s :
  onScanError h error s =
  let s1 := with_stats bump_errors s in
  if includes "401" (message error) then
    match reauth h (reauthTarget (message error)) s1 with
    | (Return true, s2) =>
        (Return false,
         with_scanner (with_log "🔄 Re-auth succeeded — will retry on next cycle"
                         (scanner s2)) s2)
    | (Return false, s2) =>
        (Return false,
         (stopScanning
            (with_scanner (with_log "💥 Re-auth failed — stopping scanner" (scanner s2))
               s2)).2)
    | (Throw e, s2) => (Throw e, s2)
    end
  else
    (Return false,
     with_stats (set_lastError (message error))
       (with_scanner (with_log ("❌ Scan error: " +:+ message error) (scanner s1)) s1)).
Proof.
  unfold onScanError. rewrite T_bind_run. unfold update at 1. cbv beta iota zeta.
  destruct (includes "401" (message error)); [|by rewrite T_bind_run, log_run].
  rewrite T_bind_run.
  destruct (reauth h _ _) as [[[|]|e] s2]; [| |done].
  - by rewrite T_bind_run, log_run.
  - rewrite T_bind_run, log_run. cbv beta iota. rewrite T_bind_run, stopScanning_run.
    by destruct (isScanning _).
Qed.

Context {J : Type} `{!Json J, !Payload J}.

Lemma performScan_run s :
  performScan w h s =
  match Js.truthy_field (apexToken s), Js.truthy_field (loadEntryToken s) with
  | Some apex, Some le =>
      let now := wallClock w (length (exchanges (scanner s))) in
      let s1 := with_stats (set_lastScanTime now) (with_stats bump_totalScans s) in
      match scan w (inr [85; 86]) apex le (scanner s) with
      | (Return (poData, actions), sc) =>
          let ts := wallClock w (length (exchanges sc)) in
          let s2 := with_lastScanResult
                      (Some (mkScanResult ts (length poData) (count_over poData)
                               (count_cancelled poData) (length actions) poData))
                      (with_scanner sc s1) in
          let s3 := with_mails
                      (imap (λ i, mailLine h (length (outbox s) + i)) actions)
                      (reverse (imap (λ i, mailAttempt h (length (outbox s) + i)) actions))
                      s2 in
          let s4 := with_stats bump_successfulScans s3 in
          (Return true,
           with_scanner (with_log (cycleCompleteLine poData actions) (scanner s4)) s4)
      | (Throw e, sc) => onScanError h e (with_scanner sc s1)
      end
  | _, _ =>
      (Return false,
       with_scanner (with_log "❌ Cannot scan — not authenticated" (scanner s)) s)
  end.
Proof.
  unfold performScan. rewrite T_bind_run. unfold getVar at 1. cbv beta iota.
  rewrite T_bind_run. unfold getVar at 1. cbv beta iota.
  destruct (Js.truthy_field (apexToken s)) as [apex|];
    [|by rewrite T_bind_run, log_run].
  destruct (Js.truthy_field (loadEntryToken s)) as [le|];
    [|by rewrite T_bind_run, log_run].
  unfold catch, scanAndNotify. cbv zeta.
  rewrite T_bind_run. unfold update at 1. cbv beta iota.
  rewrite T_bind_run, newDate_run. cbv beta iota. svc_simpl.
  rewrite T_bind_run. unfold update at 1. cbv beta iota.
  rewrite T_bind_run. unfold lift at 1. svc_simpl.
  destruct (scan w (inr [85; 86]) apex le (scanner s)) as [[[poData actions]|e] sc]; [|done].
  rewrite T_bind_run, newDate_run. cbv beta iota. svc_simpl.
  rewrite T_bind_run. unfold update at 1. cbv beta iota.
  rewrite T_bind_run, sendAlerts_run. cbv beta iota. svc_simpl.
  rewrite T_bind_run. unfold update at 1. cbv beta iota.
  by rewrite T_bind_run, log_run.
Qed.

End ServiceRuns.


(** ** What a polling cycle leaves behind *)

Section PollingCycle.
Import Service.
Context (w : world) (h : host) {J : Type} `{!Json J, !Payload J}.

Lemma reauth_settles which : settles (reauth h which).
Proof.
  intros s. rewrite reauth_run. cbv zeta.
  destruct (bool_decide (which = "Apex") || bool_decide (which = "both")),
    (bool_decide (which = "Load Entry") || bool_decide (which = "both")).
  - destruct (getApexToken h _) as [t|e]; [|by eexists].
    svc_simpl. destruct (getLoadEntryToken h _) as [t'|e]; by eexists.
  - destruct (getApexToken h _) as [t|e]; by eexists.
  - destruct (getLoadEntryToken h _) as [t'|e]; by eexists.
  - by eexists.
Qed.

Lemma onScanError_settles error : settles (onScanError h error).
Proof.
  intros s. rewrite onScanError_run. cbv zeta.
  destruct (includes "401" (message error)); [|by eexists].
  destruct (reauth_settles (reauthTarget (message error)) (with_stats bump_errors s))
    as [b Hb].
  destruct (reauth h _ _) as [[[|]|e] s2]; [by eexists|by eexists|done].
Qed.

Lemma performScan_settles : settles (performScan w h).
Proof.
  intros s. rewrite performScan_run.
  destruct (Js.truthy_field (apexToken s)) as [apex|]; [|by eexists].
  destruct (Js.truthy_field (loadEntryToken s)) as [le|]; [|by eexists].
  cbv zeta. destruct (scan w _ apex le (scanner s)) as [[[poData actions]|e] sc];
    [by eexists|apply onScanError_settles].
Qed.

(** X16. No call of the service rejects: whatever the network, the log-ins and
    the mail transport do, [performScan], [authenticate], [reauth],
    [stopScanning] and the timer callback return. *)
Theorem service_calls_never_throw :
  settles (performScan w h) ∧ settles (authenticate h) ∧
  (∀ which, settles (reauth h which)) ∧ settles stopScanning ∧ settles (onInterval w h).
Proof.
  split; [apply performScan_settles|]. split; [|split; [apply reauth_settles|split]].
  - intros s. unfold authenticate, catch.
    rewrite T_bind_run, log_run. cbv beta iota. rewrite T_bind_run, log_run. cbv beta iota.
    rewrite T_bind_run, awaitApexToken_run.
    destruct (getApexToken h _) as [t|e].
    2:{ cbv beta iota. rewrite T_bind_run, log_run. by eexists. }
    rewrite T_bind_run. unfold update at 1. cbv beta iota.
    rewrite T_bind_run, log_run. cbv beta iota. rewrite T_bind_run, log_run. cbv beta iota.
    rewrite T_bind_run, awaitLoadEntryToken_run.
    destruct (getLoadEntryToken h _) as [t'|e].
    2:{ cbv beta iota. rewrite T_bind_run, log_run. by eexists. }
    rewrite T_bind_run. unfold update at 1. cbv beta iota.
    rewrite T_bind_run, log_run. cbv beta iota. rewrite T_bind_run, log_run. by eexists.
  - intros s. rewrite stopScanning_run. destruct (isScanning s); by eexists.
  - intros s. unfold onInterval. rewrite T_bind_run. unfold getVar at 1. cbv beta iota.
    destruct (isScanning s); [|by eexists].
    rewrite T_bind_run. destruct (performScan_settles s) as [b Hb].
    destruct (performScan w h s) as [[b'|e] s']; [by eexists|done].
Qed.

(** X17. Every action is handed to the notifier once, in the order of the
    list, whether earlier mails failed or not; one line is logged for each;
    nothing but the log and the outbox changes. *)
Theorem every_action_is_mailed (actions : list Action.t) (s : service) :
  ∃ lines,
    length lines = length actions ∧
    sendAlerts h actions s
    = (Return (),
       with_mails lines
         (reverse (imap (λ i a, (a, sendEmail h (length (outbox s) + i) a)) actions)) s).
Proof.
  exists (imap (λ i, mailLine h (length (outbox s) + i)) actions).
  split; [apply length_imap|]. apply sendAlerts_run.
Qed.

(** X18. Without both tokens [performScan] returns [false] and does nothing but
    log one line: no request is made and no counter moves. *)
Theorem scan_needs_both_tokens (s : service) :
  Js.truthy_field (apexToken s) = None ∨ Js.truthy_field (loadEntryToken s) = None →
  performScan w h s
  = (Return false,
     with_scanner (with_log "❌ Cannot scan — not authenticated" (scanner s)) s).
Proof.
  intros Hno. rewrite performScan_run.
  destruct Hno as [->| ->]; [done|]. by destruct (Js.truthy_field (apexToken s)).
Qed.

(** X19. When the scan returns, [performScan] returns [true]; both counters of
    scans go up by one and the error counter and [lastError] stay;
    [lastScanResult] holds the counts of the entries; every action returned
    is handed to the notifier, in order; tokens and log-ins are untouched. *)
Theorem completed_scan_is_recorded (s : service) (apex le : string)
    (poData : list Result.t) (actions : list Action.t) (sc : state) :
  Js.truthy_field (apexToken s) = Some apex →
  Js.truthy_field (loadEntryToken s) = Some le →
  scan w (inr [85; 86]) apex le (scanner s) = (Return (poData, actions), sc) →
  let s' := (performScan w h s).2 in
  (performScan w h s).1 = Return true ∧
  totalScans (stats s') = totalScans (stats s) + 1 ∧
  successfulScans (stats s') = successfulScans (stats s) + 1 ∧
  errors (stats s') = errors (stats s) ∧
  lastError (stats s') = lastError (stats s) ∧
  lastScanTime (stats s') = Some (wallClock w (length (exchanges (scanner s)))) ∧
  lastScanResult s'
  = Some (mkScanResult (wallClock w (length (exchanges sc))) (length poData)
            (count_over poData) (count_cancelled poData) (length actions) poData) ∧
  outbox s'
  = reverse (imap (λ i a, (a, sendEmail h (length (outbox s) + i) a)) actions) ++ outbox s ∧
  apexToken s' = apexToken s ∧ loadEntryToken s' = loadEntryToken s ∧
  logins s' = logins s ∧ isScanning s' = isScanning s ∧
  voidedCheckoutIDs (scanner s') = voidedCheckoutIDs sc ∧
  alertedOverPOs (scanner s') = alertedOverPOs sc ∧
  exchanges (scanner s') = exchanges sc.
Proof.
  intros Ha Hl Hscan s'. subst s'. rewrite performScan_run, Ha, Hl. cbv zeta.
  rewrite Hscan. unfold with_mails. svc_simpl. repeat split; done.
Qed.

Lemma performScan_failed s apex le e sc :
  Js.truthy_field (apexToken s) = Some apex →
  Js.truthy_field (loadEntryToken s) = Some le →
  scan w (inr [85; 86]) apex le (scanner s) = (Throw e, sc) →
  includes "401" (message e) = false →
  performScan w h s
  = (Return false,
     with_stats (set_lastError (message e))
       (with_scanner (with_log ("❌ Scan error: " +:+ message e) sc)
          (with_stats bump_errors
             (with_stats (set_lastScanTime (wallClock w (length (exchanges (scanner s)))))
                (with_stats bump_totalScans s))))).
Proof.
  intros Ha Hl Hscan H401. rewrite performScan_run, Ha, Hl. cbv zeta.
  rewrite Hscan, onScanError_run. cbv zeta. by rewrite H401.
Qed.

(** X20. When the scan throws an error whose message does not contain "401",
    [performScan] returns [false]: the scan and the error are counted,
    [lastError] is the message, [lastScanResult] still holds the last
    completed scan, no mail is sent, no token is renewed and the scanner
    keeps running. *)
Theorem failed_scan_is_recorded (s : service) (apex le : string) (e : js_error)
    (sc : state) :
  Js.truthy_field (apexToken s) = Some apex →
  Js.truthy_field (loadEntryToken s) = Some le →
  scan w (inr [85; 86]) apex le (scanner s) = (Throw e, sc) →
  includes "401" (message e) = false →
  let s' := (performScan w h s).2 in
  (performScan w h s).1 = Return false ∧
  totalScans (stats s') = totalScans (stats s) + 1 ∧
  successfulScans (stats s') = successfulScans (stats s) ∧
  errors (stats s') = errors (stats s) + 1 ∧
  lastError (stats s') = Some (message e) ∧
  lastScanResult s' = lastScanResult s ∧ outbox s' = outbox s ∧
  apexToken s' = apexToken s ∧ loadEntryToken s' = loadEntryToken s ∧
  logins s' = logins s ∧ isScanning s' = isScanning s ∧
  scanInterval s' = scanInterval s ∧
  scanner s' = with_log ("❌ Scan error: " +:+ message e) sc.
Proof.
  intros Ha Hl Hscan H401 s'. subst s'.
  rewrite (performScan_failed s apex le e sc) by done. svc_simpl. repeat split; done.
Qed.

(** X21. When the scan is aborted by a void call (the newest exchange is the
    DELETE of a checkout), the error has [status] 401 but its message,
    "Load Entry auth expired", does not contain "401": [performScan] does
    not re-authenticate. No log-in is attempted, both tokens stay and the
    scanner keeps running with them. *)
Theorem void_401_is_not_reauthenticated (s : service) (apex le : string) (e : js_error) :
  Js.truthy_field (apexToken s) = Some apex →
  Js.truthy_field (loadEntryToken s) = Some le →
  (scan w (inr [85; 86]) apex le (scanner s)).1 = Throw e →
  (∃ id o rest, exchanges (scan w (inr [85; 86]) apex le (scanner s)).2
                = (void_request id le, o) :: rest) →
  let s' := (performScan w h s).2 in
  status e = Some 401 ∧
  (performScan w h s).1 = Return false ∧
  logins s' = logins s ∧
  apexToken s' = apexToken s ∧ loadEntryToken s' = loadEntryToken s ∧
  isScanning s' = isScanning s ∧
  lastError (stats s') = Some "Load Entry auth expired".
Proof.
  intros Ha Hl Hthrow (id & o & rest & Hx) s'. subst s'.
  destruct (scan w (inr [85; 86]) apex le (scanner s)) as [r sc] eqn:Hscan.
  cbn [fst snd] in *. subst r.
  destruct (scanEach_throw w _ _ _ _ _ _ Hscan) as (req & o' & rest' & Hx' & Hcase).
  rewrite Hx in Hx'. injection Hx' as <- <- <-.
  assert (e = mkError "Load Entry auth expired" (Some 401)) as ->.
  { destruct Hcase as [(ep & Hreq & _)|[(ep & r & Hreq & _)|(id' & r & _ & _ & _ & He)]];
      [discriminate Hreq|discriminate Hreq|exact He]. }
  rewrite (performScan_failed s apex le _ sc) by (try done; vm_compute; reflexivity).
  svc_simpl. repeat split; done.
Qed.

End PollingCycle.

(** Before authentication a scan is refused. *)
Lemma scan_needs_both_tokens_witness :
  Service.performScan (Fixture.scripted []) Scenario.obliging (J:=Fixture.doc)
    (Service.start (Clock.mkDate 1699999000000))
  = (Return false,
     Service.with_scanner (with_log "❌ Cannot scan — not authenticated" init)
       (Service.start (Clock.mkDate 1699999000000))).
Proof.
  exact (scan_needs_both_tokens (Fixture.scripted []) Scenario.obliging (J:=Fixture.doc)
           (Service.start (Clock.mkDate 1699999000000)) (or_introl eq_refl)).
Defined.

(** Both sub-departments answer: one cancellation, mailed; the scan counts
    as successful. *)
Lemma completed_scan_witness :
  (Service.performScan Scenario.both_depts_answer Scenario.obliging (J:=Fixture.doc)
     Scenario.running).1 = Return true ∧
  Service.successfulScans
    (Service.stats (Service.performScan Scenario.both_depts_answer Scenario.obliging
                      (J:=Fixture.doc) Scenario.running).2) = 1 ∧
  Service.outbox (Service.performScan Scenario.both_depts_answer Scenario.obliging
                    (J:=Fixture.doc) Scenario.running).2
  = [(Action.mk cancelled "P1" "T1" "ACME" 5 7 (Some "CO123") (Clock.mkDate 1700000004000),
      None)].
Proof.
  assert (scan Scenario.both_depts_answer (J:=Fixture.doc) (inr [85; 86]) "apex-token"
            "le-token" init
          = (Return ([Result.mk 85 "P1" "T1" "ACME" 5 7 CANCELLED;
                      Result.mk 86 "P1" "T1" "ACME" 5 7 CANCELLED],
                     [Action.mk cancelled "P1" "T1" "ACME" 5 7 (Some "CO123")
                        (Clock.mkDate 1700000004000)]),
             (scan Scenario.both_depts_answer (J:=Fixture.doc) (inr [85; 86]) "apex-token"
                "le-token" init).2)) as Hscan by (vm_compute; reflexivity).
  destruct (completed_scan_is_recorded Scenario.both_depts_answer Scenario.obliging
              Scenario.running "apex-token" "le-token" _ _ _ eq_refl eq_refl Hscan)
    as (H1 & _ & H3 & _ & _ & _ & _ & H8 & _).
  split; [exact H1|]. split; [exact H3|exact H8].
Defined.

(** The Apex source answers 500: the error is recorded, nothing else
    happens. *)
Lemma failed_scan_witness :
  (Service.performScan Scenario.apex_down Scenario.obliging (J:=Fixture.doc)
     Scenario.running).1 = Return false ∧
  Service.lastError
    (Service.stats (Service.performScan Scenario.apex_down Scenario.obliging
                      (J:=Fixture.doc) Scenario.running).2)
  = Some "Apex API 500: subdept/85/pos/11-14-2023/11-14-2023".
Proof.
  assert (scan Scenario.apex_down (J:=Fixture.doc) (inr [85; 86]) "apex-token" "le-token"
            init
          = (Throw (Error "Apex API 500: subdept/85/pos/11-14-2023/11-14-2023"),
             (scan Scenario.apex_down (J:=Fixture.doc) (inr [85; 86]) "apex-token"
                "le-token" init).2)) as Hscan by (vm_compute; reflexivity).
  destruct (failed_scan_is_recorded Scenario.apex_down Scenario.obliging
              Scenario.running "apex-token" "le-token" _ _ eq_refl eq_refl Hscan
              ltac:(vm_compute; reflexivity))
    as (H1 & _ & _ & _ & H5 & _).
  split; [exact H1|exact H5].
Defined.

(** The void call for CO123 answers 401: no log-in follows. *)
Lemma void_401_witness :
  Service.logins (Service.performScan Scenario.void_expired Scenario.obliging
                    (J:=Fixture.doc) Scenario.running).2 = [] ∧
  Service.lastError
    (Service.stats (Service.performScan Scenario.void_expired Scenario.obliging
                      (J:=Fixture.doc) Scenario.running).2)
  = Some "Load Entry auth expired".
Proof.
  assert ((scan Scenario.void_expired (J:=Fixture.doc) (inr [85; 86]) "apex-token"
             "le-token" init).1
          = Throw (mkError "Load Entry auth expired" (Some 401))) as Hthrow
    by (vm_compute; reflexivity).
  assert (∃ id o rest,
            exchanges (scan Scenario.void_expired (J:=Fixture.doc) (inr [85; 86])
                         "apex-token" "le-token" init).2
            = (void_request id "le-token", o) :: rest) as Hvoid.
  { exists "CO123". eexists _, _. vm_compute. reflexivity. }
  destruct (void_401_is_not_reauthenticated Scenario.void_expired Scenario.obliging
              Scenario.running "apex-token" "le-token" _ eq_refl eq_refl Hthrow Hvoid)
    as (_ & _ & H3 & _ & _ & _ & H7).
  split; [exact H3|exact H7].
Defined.


(** ** Expired tokens *)

Section Renewal.
Import Service.
Context (w : world) (h : host) {J : Type} `{!Json J, !Payload J}.

Lemma performScan_401 s apex le e sc :
  Js.truthy_field (apexToken s) = Some apex →
  Js.truthy_field (loadEntryToken s) = Some le →
  scan w (inr [85; 86]) apex le (scanner s) = (Throw e, sc) →
  includes "401" (message e) = true →
  performScan w h s
  = let s1 := with_stats bump_errors
                (with_scanner sc
                   (with_stats (set_lastScanTime (wallClock w (length (exchanges (scanner s)))))
                      (with_stats bump_totalScans s))) in
    match reauth h (reauthTarget (message e)) s1 with
    | (Return true, s2) =>
        (Return false,
         with_scanner (with_log "🔄 Re-auth succeeded — will retry on next cycle"
                         (scanner s2)) s2)
    | (Return false, s2) =>
        (Return false,
         (stopScanning
            (with_scanner (with_log "💥 Re-auth failed — stopping scanner" (scanner s2))
               s2)).2)
    | (Throw e', s2) => (Throw e', s2)
    end.
Proof.
  intros Ha Hl Hscan H401. rewrite performScan_run, Ha, Hl. cbv zeta.
  rewrite Hscan, onScanError_run. cbv zeta. by rewrite H401.
Qed.

Lemma onInterval_stopped s : isScanning s = false → onInterval w h s = (Return (), s).
Proof.
  intros Hs. unfold onInterval. rewrite T_bind_run. unfold getVar at 1. cbv beta iota.
  by rewrite Hs.
Qed.

Lemma ticks_stopped n s : isScanning s = false → ticks w h n s = s.
Proof.
  intros Hs. induction n as [|n IH]; [done|].
  cbn [ticks]. by rewrite onInterval_stopped.
Qed.

(** X22. When the scan throws the 401 error of the Apex wrapper, [performScan]
    logs in to Apex again and to nothing else. If the log-in yields a token
    it replaces [apexToken] and the scanner keeps running; if it throws,
    [apexToken] stays, [lastError] is the message, the scanner is stopped
    and later firings of the timer do nothing. Either way the Load Entry
    token stays and [performScan] returns [false]. *)
Theorem apex_401_renews_the_apex_token (s : service) (apex le : string) (sc : state) :
  Js.truthy_field (apexToken s) = Some apex →
  Js.truthy_field (loadEntryToken s) = Some le →
  scan w (inr [85; 86]) apex le (scanner s)
  = (Throw (mkError "Apex auth expired (401)" (Some 401)), sc) →
  let o := getApexToken h (length (logins s)) in
  let s' := (performScan w h s).2 in
  (performScan w h s).1 = Return false ∧
  logins s' = (ApexLogin, o) :: logins s ∧
  loadEntryToken s' = loadEntryToken s ∧
  errors (stats s') = errors (stats s) + 1 ∧
  successfulScans (stats s') = successfulScans (stats s) ∧
  match o with
  | inl token =>
      apexToken s' = Some token ∧ isScanning s' = isScanning s ∧
      scanInterval s' = scanInterval s ∧ lastError (stats s') = lastError (stats s)
  | inr err =>
      apexToken s' = apexToken s ∧ isScanning s' = false ∧
      scanInterval s' = (if isScanning s then false else scanInterval s) ∧
      lastError (stats s') = Some (message err) ∧
      ∀ n, ticks w h n s' = s'
  end.
Proof.
  intros Ha Hl Hscan o s'. subst o s'.
  rewrite (performScan_401 s apex le _ sc) by (try done; vm_compute; reflexivity).
  cbv zeta. cbn [message].
  change (reauthTarget "Apex auth expired (401)") with "Apex".
  rewrite reauth_run. cbv zeta.
  change (bool_decide ("Apex" = "Apex") || bool_decide ("Apex" = "both")) with true.
  change (bool_decide ("Apex" = "Load Entry") || bool_decide ("Apex" = "both")) with false.
  cbv iota. svc_simpl.
  destruct (getApexToken h (length (logins s))) as [token|err].
  - svc_simpl. repeat split; done.
  - rewrite stopScanning_run. svc_simpl.
    destruct (isScanning s) eqn:Hs; svc_simpl.
    + repeat split; try done. intros n. by apply ticks_stopped.
    + repeat split; try done. intros n. by apply ticks_stopped.
Qed.

(** X23. When the scan throws the 401 error of the Load Entry wrapper (the
    truck-summary fetch), [performScan] logs in to Apex first and then to
    Load Entry. If both yield tokens, both are replaced and the scanner
    keeps running. If the Apex log-in throws, the Load Entry log-in is not
    attempted and both tokens stay; if the Load Entry log-in throws, the
    Apex token is already replaced. In both failures the scanner is
    stopped. *)
Theorem load_entry_401_renews_both_tokens (s : service) (apex le : string) (sc : state) :
  Js.truthy_field (apexToken s) = Some apex →
  Js.truthy_field (loadEntryToken s) = Some le →
  scan w (inr [85; 86]) apex le (scanner s)
  = (Throw (mkError "Load Entry auth expired (401)" (Some 401)), sc) →
  let o1 := getApexToken h (length (logins s)) in
  let o2 := getLoadEntryToken h (S (length (logins s))) in
  let s' := (performScan w h s).2 in
  (performScan w h s).1 = Return false ∧
  match o1, o2 with
  | inl t1, inl t2 =>
      apexToken s' = Some t1 ∧ loadEntryToken s' = Some t2 ∧
      logins s' = (LoadEntryLogin, o2) :: (ApexLogin, o1) :: logins s ∧
      isScanning s' = isScanning s ∧ lastError (stats s') = lastError (stats s)
  | inl t1, inr err =>
      apexToken s' = Some t1 ∧ loadEntryToken s' = loadEntryToken s ∧
      logins s' = (LoadEntryLogin, o2) :: (ApexLogin, o1) :: logins s ∧
      isScanning s' = false ∧ lastError (stats s') = Some (message err)
  | inr err, _ =>
      apexToken s' = apexToken s ∧ loadEntryToken s' = loadEntryToken s ∧
      logins s' = (ApexLogin, o1) :: logins s ∧
      isScanning s' = false ∧ lastError (stats s') = Some (message err)
  end.
Proof.
  intros Ha Hl Hscan o1 o2 s'. subst o1 o2 s'.
  rewrite (performScan_401 s apex le _ sc) by (try done; vm_compute; reflexivity).
  cbv zeta. cbn [message].
  change (reauthTarget "Load Entry auth expired (401)") with "both".
  rewrite reauth_run. cbv zeta.
  change (bool_decide ("both" = "Apex") || bool_decide ("both" = "both")) with true.
  change (bool_decide ("both" = "Load Entry") || bool_decide ("both" = "both")) with true.
  cbv iota. svc_simpl.
  destruct (getApexToken h (length (logins s))) as [t1|err].
  - svc_simpl. cbn [length].
    destruct (getLoadEntryToken h (S (length (logins s)))) as [t2|err].
    + svc_simpl. repeat split; done.
    + rewrite stopScanning_run. svc_simpl.
      destruct (isScanning s) eqn:Hs; svc_simpl; rewrite ?Hs; repeat split; done.
  - rewrite stopScanning_run. svc_simpl.
    destruct (isScanning s) eqn:Hs; svc_simpl; rewrite ?Hs; repeat split; done.
Qed.

Lemma reauthTarget_cases msg :
  reauthTarget msg = "both" ∨ reauthTarget msg = "Apex" ∨ reauthTarget msg = "Load Entry".
Proof.
  unfold reauthTarget. cbv zeta.
  destruct (includes "siteadminsso" msg || includes "Apex" msg),
    (includes "loadentry" msg || includes "LoadEntry" msg); cbn [andb]; tauto.
Qed.

Lemma reauth_logs_in which s :
  which = "both" ∨ which = "Apex" ∨ which = "Load Entry" →
  (length (logins s) < length (logins (reauth h which s).2))%nat.
Proof.
  intros Hw. rewrite reauth_run. cbv zeta.
  destruct Hw as [->|[->| ->]].
  - change (bool_decide ("both" = "Apex") || bool_decide ("both" = "both")) with true.
    change (bool_decide ("both" = "Load Entry") || bool_decide ("both" = "both")) with true.
    cbv iota. destruct (getApexToken h (length (logins s))) as [t1|err]; svc_simpl.
    + destruct (getLoadEntryToken h _) as [t2|err]; svc_simpl; cbn [length]; lia.
    + cbn [length]; lia.
  - change (bool_decide ("Apex" = "Apex") || bool_decide ("Apex" = "both")) with true.
    change (bool_decide ("Apex" = "Load Entry") || bool_decide ("Apex" = "both")) with false.
    cbv iota. destruct (getApexToken h (length (logins s))) as [t1|err]; svc_simpl;
      cbn [length]; lia.
  - change (bool_decide ("Load Entry" = "Apex") || bool_decide ("Load Entry" = "both"))
      with false.
    change (bool_decide ("Load Entry" = "Load Entry")
            || bool_decide ("Load Entry" = "both")) with true.
    cbv iota. svc_simpl. destruct (getLoadEntryToken h _) as [t2|err]; svc_simpl;
      cbn [length]; lia.
Qed.

(** X24. When the scan throws, [performScan] attempts a log-in exactly when the
    message of the error contains "401", whatever the error's [status]. *)
Theorem login_iff_401_in_message (s : service) (apex le : string) (e : js_error)
    (sc : state) :
  Js.truthy_field (apexToken s) = Some apex →
  Js.truthy_field (loadEntryToken s) = Some le →
  scan w (inr [85; 86]) apex le (scanner s) = (Throw e, sc) →
  logins (performScan w h s).2 = logins s ↔ includes "401" (message e) = false.
Proof.
  intros Ha Hl Hscan. destruct (includes "401" (message e)) eqn:H401.
  - split; [|done]. intros Heq. exfalso.
    rewrite (performScan_401 s apex le e sc) in Heq by done. cbv zeta in Heq.
    match type of Heq with
    | context [reauth h ?which ?s1] =>
        pose proof (reauth_logs_in which s1 (reauthTarget_cases _)) as Hlen;
        destruct (reauth h which s1) as [[[|]|e'] s2]
    end; svc_simpl_in Hlen; svc_simpl_in Heq.
    + rewrite Heq in Hlen. lia.
    + rewrite stopScanning_run in Heq.
      destruct (isScanning _); svc_simpl_in Heq; rewrite Heq in Hlen; lia.
    + rewrite Heq in Hlen. lia.
  - split; [done|]. intros _. by rewrite (performScan_failed w h s apex le e sc).
Qed.

End Renewal.

(** The Apex source answers 401 and the log-in yields a new token. *)
Lemma apex_401_witness :
  Service.apexToken (Service.performScan Scenario.apex_expired Scenario.obliging
                       (J:=Fixture.doc) Scenario.running).2 = Some "apex-token-2" ∧
  Service.isScanning (Service.performScan Scenario.apex_expired Scenario.obliging
                        (J:=Fixture.doc) Scenario.running).2 = true.
Proof.
  assert (scan Scenario.apex_expired (J:=Fixture.doc) (inr [85; 86]) "apex-token" "le-token"
            init
          = (Throw (mkError "Apex auth expired (401)" (Some 401)),
             (scan Scenario.apex_expired (J:=Fixture.doc) (inr [85; 86]) "apex-token"
                "le-token" init).2)) as Hscan by (vm_compute; reflexivity).
  destruct (apex_401_renews_the_apex_token Scenario.apex_expired Scenario.obliging
              Scenario.running "apex-token" "le-token" _ eq_refl eq_refl Hscan)
    as (_ & _ & _ & _ & _ & H6 & H7 & _).
  split; [exact H6|exact H7].
Defined.

(** The truck source answers 401 and the Apex log-in times out: the Load
    Entry token is not renewed and the scanner stops. *)
Lemma load_entry_401_witness :
  Service.loadEntryToken (Service.performScan Fixture.trucks_expired Scenario.locked_out
                            (J:=Fixture.doc) Scenario.running).2 = Some "le-token" ∧
  Service.isScanning (Service.performScan Fixture.trucks_expired Scenario.locked_out
                        (J:=Fixture.doc) Scenario.running).2 = false.
Proof.
  assert (scan Fixture.trucks_expired (J:=Fixture.doc) (inr [85; 86]) "apex-token" "le-token"
            init
          = (Throw (mkError "Load Entry auth expired (401)" (Some 401)),
             (scan Fixture.trucks_expired (J:=Fixture.doc) (inr [85; 86]) "apex-token"
                "le-token" init).2)) as Hscan by (vm_compute; reflexivity).
  destruct (load_entry_401_renews_both_tokens Fixture.trucks_expired Scenario.locked_out
              Scenario.running "apex-token" "le-token" _ eq_refl eq_refl Hscan)
    as (_ & _ & H2 & _ & H4 & _).
  split; [exact H2|exact H4].
Defined.

(** An Apex answer that is not JSON and holds the digits 401: its message
    contains "401", so a log-in follows. *)
Lemma login_iff_401_witness :
  Service.logins
    (Service.performScan (Fixture.scripted [Fixture.answer 200 "error 401"])
       Scenario.obliging (J:=Fixture.doc) Scenario.running).2
  = Service.logins Scenario.running
  ↔ Service.includes "401"
      (message (Error "Apex API bad JSON for subdept/85/pos/11-14-2023/11-14-2023: error 401"))
    = false.
Proof.
  assert (scan (Fixture.scripted [Fixture.answer 200 "error 401"]) (J:=Fixture.doc)
            (inr [85; 86]) "apex-token" "le-token" init
          = (Throw (Error "Apex API bad JSON for subdept/85/pos/11-14-2023/11-14-2023: error 401"),
             (scan (Fixture.scripted [Fixture.answer 200 "error 401"]) (J:=Fixture.doc)
                (inr [85; 86]) "apex-token" "le-token" init).2)) as Hscan
    by (vm_compute; reflexivity).
  exact (login_iff_401_in_message (Fixture.scripted [Fixture.answer 200 "error 401"])
           Scenario.obliging Scenario.running "apex-token" "le-token" _ _
           eq_refl eq_refl Hscan).
Defined.


(** ** Logging in *)

Section LoggingIn.
Import Service.
Context (h : host).

Lemma authenticate_run s :
  authenticate h s =
  let logged line s1 := with_scanner (with_log line (scanner s1)) s1 in
  let failed e s1 :=
    (Return false,
     with_stats (set_lastError (message e))
       (logged ("❌ Authentication failed: " +:+ message e) s1)) in
  let s0 := logged "📡 Authenticating with Apex (form POST to apex.capstonelogistics.com)..."
              (logged "🔐 Starting authentication..." s) in
  match getApexToken h (length (logins s)) with
  | inr e => failed e (record_login (ApexLogin, inr e) s0)
  | inl token =>
      let s1 := logged "🌐 Authenticating with Load Entry (Microsoft B2C SSO flow)..."
                  (logged ("✅ Apex Token acquired (" +:+ Js.substring0 20 token +:+ "...)")
                     (with_apexToken (Some token)
                        (record_login (ApexLogin, inl token) s0))) in
      match getLoadEntryToken h (S (length (logins s))) with
      | inr e => failed e (record_login (LoadEntryLogin, inr e) s1)
      | inl token' =>
          (Return true,
           logged "🎯 Authentication complete - ready to scan"
             (logged ("✅ Load Entry B2C token acquired (" +:+ Js.substring0 20 token'
                      +:+ "...)")
                (with_loadEntryToken (Some token')
                   (record_login (LoadEntryLogin, inl token') s1))))
      end
  end.
Proof.
  unfold authenticate, catch. cbv zeta.
  rewrite T_bind_run, log_run. cbv beta iota. rewrite T_bind_run, log_run. cbv beta iota.
  rewrite T_bind_run, awaitApexToken_run.
  change (length (logins (with_scanner _ (with_scanner _ s)))) with (length (logins s)).
  destruct (getApexToken h (length (logins s))) as [t1|err].
  2:{ cbv beta iota. rewrite T_bind_run, log_run. cbv beta iota.
      rewrite T_bind_run. by unfold update at 1. }
  rewrite T_bind_run. unfold update at 1. cbv beta iota.
  rewrite T_bind_run, log_run. cbv beta iota. rewrite T_bind_run, log_run. cbv beta iota.
  rewrite T_bind_run, awaitLoadEntryToken_run.
  match goal with
  | |- context [getLoadEntryToken h (length (logins ?s1))] =>
      change (length (logins s1)) with (S (length (logins s)))
  end.
  destruct (getLoadEntryToken h (S (length (logins s)))) as [t2|err].
  2:{ cbv beta iota. rewrite T_bind_run, log_run. cbv beta iota.
      rewrite T_bind_run. by unfold update at 1. }
  rewrite T_bind_run. unfold update at 1. cbv beta iota.
  rewrite T_bind_run, log_run. cbv beta iota. by rewrite T_bind_run, log_run.
Qed.

(** X25. [authenticate] logs in to Apex, then to Load Entry. It returns [true]
    exactly when both log-ins yield a token, and then holds both. When the
    Apex log-in throws, the Load Entry log-in is not attempted and both
    tokens stay as they were; when the Load Entry log-in throws, the Apex
    token is already replaced. A failure leaves its message in
    [lastError]. *)
Theorem authenticate_outcome (s : service) :
  let o1 := getApexToken h (length (logins s)) in
  let o2 := getLoadEntryToken h (S (length (logins s))) in
  let s' := (authenticate h s).2 in
  match o1, o2 with
  | inl t1, inl t2 =>
      (authenticate h s).1 = Return true ∧
      apexToken s' = Some t1 ∧ loadEntryToken s' = Some t2 ∧
      logins s' = (LoadEntryLogin, o2) :: (ApexLogin, o1) :: logins s ∧
      stats s' = stats s
  | inl t1, inr err =>
      (authenticate h s).1 = Return false ∧
      apexToken s' = Some t1 ∧ loadEntryToken s' = loadEntryToken s ∧
      logins s' = (LoadEntryLogin, o2) :: (ApexLogin, o1) :: logins s ∧
      lastError (stats s') = Some (message err)
  | inr err, _ =>
      (authenticate h s).1 = Return false ∧
      apexToken s' = apexToken s ∧ loadEntryToken s' = loadEntryToken s ∧
      logins s' = (ApexLogin, o1) :: logins s ∧
      lastError (stats s') = Some (message err)
  end ∧
  isScanning s' = isScanning s ∧ exchanges (scanner s') = exchanges (scanner s).
Proof.
  intros o1 o2 s'. subst o1 o2 s'. rewrite authenticate_run. cbv zeta.
  destruct (getApexToken h (length (logins s))) as [t1|err];
    [destruct (getLoadEntryToken h (S (length (logins s)))) as [t2|err]|];
    svc_simpl; repeat split; done.
Qed.

End LoggingIn.

(** ** Over the firings of the timer *)

Section Ticks.
Import Service.
Context (w : world) (h : host) {J : Type} `{!Json J, !Payload J}.

(** What one [reauth] does to the counters and to the tokens. *)
Lemma reauth_effect which s :
  let s' := (reauth h which s).2 in
  totalScans (stats s') = totalScans (stats s) ∧
  successfulScans (stats s') = successfulScans (stats s) ∧
  errors (stats s') = errors (stats s) ∧
  (apexToken s' = apexToken s
   ∨ ∃ k t, getApexToken h k = inl t ∧ apexToken s' = Some t) ∧
  (loadEntryToken s' = loadEntryToken s
   ∨ ∃ k t, getLoadEntryToken h k = inl t ∧ loadEntryToken s' = Some t).
Proof.
  cbv zeta. rewrite reauth_run. cbv zeta.
  destruct (bool_decide (which = "Apex") || bool_decide (which = "both")),
    (bool_decide (which = "Load Entry") || bool_decide (which = "both")).
  - destruct (getApexToken h (length (logins s))) as [t1|err] eqn:H1; svc_simpl.
    + cbn [length].
      destruct (getLoadEntryToken h (S (length (logins s)))) as [t2|err] eqn:H2; svc_simpl;
        (split; [done|]); (split; [done|]); (split; [done|]);
        (split; [right; by eexists _, _|]); [right; by eexists _, _|by left].
    + repeat split; try done; by left.
  - destruct (getApexToken h (length (logins s))) as [t1|err] eqn:H1; svc_simpl.
    + (split; [done|]); (split; [done|]); (split; [done|]).
      split; [right; by eexists _, _|by left].
    + repeat split; try done; by left.
  - svc_simpl.
    destruct (getLoadEntryToken h (length (logins s))) as [t2|err] eqn:H2; svc_simpl.
    + (split; [done|]); (split; [done|]); (split; [done|]).
      split; [by left|right; by eexists _, _].
    + repeat split; try done; by left.
  - svc_simpl. repeat split; try done; by left.
Qed.

(** What one [performScan] does to the counters and to the tokens. *)
Lemma performScan_effect s :
  let s' := (performScan w h s).2 in
  ((totalScans (stats s') = totalScans (stats s) ∧
    successfulScans (stats s') = successfulScans (stats s) ∧
    errors (stats s') = errors (stats s))
   ∨ (totalScans (stats s') = totalScans (stats s) + 1 ∧
      successfulScans (stats s') = successfulScans (stats s) + 1 ∧
      errors (stats s') = errors (stats s))
   ∨ (totalScans (stats s') = totalScans (stats s) + 1 ∧
      successfulScans (stats s') = successfulScans (stats s) ∧
      errors (stats s') = errors (stats s) + 1)) ∧
  (apexToken s' = apexToken s
   ∨ ∃ k t, getApexToken h k = inl t ∧ apexToken s' = Some t) ∧
  (loadEntryToken s' = loadEntryToken s
   ∨ ∃ k t, getLoadEntryToken h k = inl t ∧ loadEntryToken s' = Some t).
Proof.
  cbv zeta. rewrite performScan_run.
  destruct (Js.truthy_field (apexToken s)) as [apex|];
    [|svc_simpl; split; [by left|split; by left]].
  destruct (Js.truthy_field (loadEntryToken s)) as [le|];
    [|svc_simpl; split; [by left|split; by left]].
  cbv zeta. destruct (scan w _ apex le (scanner s)) as [[[poData actions]|e] sc].
  { unfold with_mails. svc_simpl. split; [right; by left|split; by left]. }
  rewrite onScanError_run. cbv zeta.
  destruct (includes "401" (message e)).
  2:{ svc_simpl. split; [right; by right|split; by left]. }
  match goal with
  | |- context [reauth h ?which ?s1] =>
      pose proof (reauth_effect which s1) as (R1 & R2 & R3 & R4 & R5);
      destruct (reauth h which s1) as [[[|]|e'] s2]
  end; cbv zeta in *; svc_simpl_in R1; svc_simpl_in R2; svc_simpl_in R3;
    svc_simpl_in R4; svc_simpl_in R5.
  - svc_simpl. split; [right; right; by rewrite R1, R2, R3|by split].
  - rewrite stopScanning_run. svc_simpl.
    destruct (isScanning s2); svc_simpl;
      (split; [right; right; by rewrite R1, R2, R3|by split]).
  - svc_simpl. split; [right; right; by rewrite R1, R2, R3|by split].
Qed.

Lemma onInterval_run s :
  onInterval w h s =
  if isScanning s then
    match performScan w h s with
    | (Return _, s') => (Return (), s')
    | (Throw e, s') => (Throw e, s')
    end
  else (Return (), s).
Proof.
  unfold onInterval. rewrite T_bind_run. unfold getVar at 1. cbv beta iota.
  destruct (isScanning s); [|done]. rewrite T_bind_run.
  by destruct (performScan w h s) as [[b|e] s'].
Qed.

Lemma onInterval_effect s :
  let s' := (onInterval w h s).2 in
  ((totalScans (stats s') = totalScans (stats s) ∧
    successfulScans (stats s') = successfulScans (stats s) ∧
    errors (stats s') = errors (stats s))
   ∨ (totalScans (stats s') = totalScans (stats s) + 1 ∧
      successfulScans (stats s') = successfulScans (stats s) + 1 ∧
      errors (stats s') = errors (stats s))
   ∨ (totalScans (stats s') = totalScans (stats s) + 1 ∧
      successfulScans (stats s') = successfulScans (stats s) ∧
      errors (stats s') = errors (stats s) + 1)) ∧
  (apexToken s' = apexToken s
   ∨ ∃ k t, getApexToken h k = inl t ∧ apexToken s' = Some t) ∧
  (loadEntryToken s' = loadEntryToken s
   ∨ ∃ k t, getLoadEntryToken h k = inl t ∧ loadEntryToken s' = Some t).
Proof.
  cbv zeta. rewrite onInterval_run.
  destruct (isScanning s); [|cbn [fst snd]; split; [by left|split; by left]].
  pose proof (performScan_effect s) as Heff. cbv zeta in Heff.
  by destruct (performScan w h s) as [[b|e] s'].
Qed.

(** X26. Over any number of firings of the timer, one after the other: if every
    scan counted so far has either completed or failed, so it is
    afterwards ([successfulScans + errors = totalScans]); and [totalScans]
    never goes down and goes up by at most one per firing. *)
Theorem scan_counters_add_up (n : nat) (s : service) :
  counters_add_up s →
  counters_add_up (ticks w h n s) ∧
  totalScans (stats s) ≤ totalScans (stats (ticks w h n s))
  ≤ totalScans (stats s) + Z.of_nat n.
Proof.
  revert s. induction n as [|n IH]; intros s Hs; [cbn [ticks]; split; [done|lia]|].
  cbn [ticks]. destruct (onInterval_effect s) as [Hc _]. cbv zeta in Hc.
  unfold counters_add_up in *.
  destruct (IH (onInterval w h s).2) as [H1 H2]; [lia|]. split; [exact H1|lia].
Qed.

(** X27. Once both tokens are held they are held for good: as long as the
    log-ins never yield an empty token, no number of firings of the timer
    turns [authenticated] off, a failed re-authentication included. *)
Theorem authenticated_stays_on (n : nat) (s : service) :
  (∀ k t, getApexToken h k = inl t → t ≠ EmptyString) →
  (∀ k t, getLoadEntryToken h k = inl t → t ≠ EmptyString) →
  authenticated s = true → authenticated (ticks w h n s) = true.
Proof.
  intros HA HL. revert s. induction n as [|n IH]; intros s Hs; [done|].
  cbn [ticks]. apply IH. destruct (onInterval_effect s) as (_ & Ha & Hl). cbv zeta in *.
  unfold authenticated in *.
  assert (is_Some (Js.truthy_field (apexToken (onInterval w h s).2))) as [a ->].
  { destruct Ha as [->|(k & t & Hk & ->)].
    - destruct (Js.truthy_field (apexToken s)); [by eexists|done].
    - specialize (HA k t Hk). destruct t; [done|by eexists]. }
  assert (is_Some (Js.truthy_field (loadEntryToken (onInterval w h s).2))) as [l ->].
  { destruct Hl as [->|(k & t & Hk & ->)].
    - destruct (Js.truthy_field (apexToken s)); [|done].
      destruct (Js.truthy_field (loadEntryToken s)); [by eexists|done].
    - specialize (HL k t Hk). destruct t; [done|by eexists]. }
  done.
Qed.

End Ticks.

(** Two firings against a dead network: two scans counted, two errors. *)
Lemma scan_counters_witness :
  Service.counters_add_up
    (Service.ticks (Fixture.scripted []) Scenario.obliging (J:=Fixture.doc) 2
       Scenario.running) ∧
  0 ≤ Service.totalScans
        (Service.stats (Service.ticks (Fixture.scripted []) Scenario.obliging
                          (J:=Fixture.doc) 2 Scenario.running)) ≤ 0 + Z.of_nat 2.
Proof.
  exact (scan_counters_add_up (Fixture.scripted []) Scenario.obliging (J:=Fixture.doc) 2
           Scenario.running eq_refl).
Defined.

(** The Apex log-in times out after a 401: the scanner stops, and the
    service still counts as authenticated. *)
Lemma authenticated_stays_on_witness :
  Service.authenticated
    (Service.ticks Scenario.apex_expired Scenario.locked_out (J:=Fixture.doc) 3
       Scenario.running) = true.
Proof.
  apply (authenticated_stays_on Scenario.apex_expired Scenario.locked_out (J:=Fixture.doc)
           3 Scenario.running).
  - intros k t Hk. discriminate Hk.
  - intros k t [= <-]. discriminate.
  - reflexivity.
Defined.
